(** * Sentinel-1 GRD thermal-noise removal: a shallow embedding of
    [s1denoise/sentinel1image.py] and the properties of its denoising pipeline.

    Conventions of the embedding.
    - Python [float] and numpy [float64] are Rocq's primitive binary64 floats;
      their operations are the IEEE-754 ones, specified by [FloatAxioms].
    - Line and sample indices are natural numbers (the annotation stores
      them as non-negative integers).
    - numpy arrays are lists, 2-D rasters are lists of rows.
    - Exceptions are values of [exn]; [print] output, JSON subscripts and calls
      of the optimizer are recorded as a trace of [event]s. *)

From Stdlib Require Import ZArith Floats Uint63 Znumtheory Ascii String.
From stdpp Require Import base option list sorting strings pretty gmap.

Set Warnings "-inexact-float,-clear-no-such-hyp".
Open Scope string_scope.
Open Scope list_scope.

(** ** Floating point *)

Module Float.

Definition nan : float := PrimFloat.nan.

(** [np.isnan], [np.isfinite] *)
Definition isnan (x : float) : bool := PrimFloat.is_nan x.
Definition isfinite (x : float) : bool := PrimFloat.is_finite x.

(** Conversion of an integer to the nearest float (exact below 2^53). *)
Definition of_Z (z : Z) : float := SF2Prim (binary_normalize prec emax z 0 false).
Definition of_nat (n : nat) : float := of_Z (Z.of_nat n).

(** [x ** 2] on a numpy float array is the correctly rounded square. *)
Definition square (x : float) : float := (x * x)%float.

(** *** Fixed-point formatting: ['%.<d>f' % x]

    The exact binary value [m * 2^e] is scaled by [10^d] and rounded to the
    nearest integer, ties to even, as the C library and Python do. *)
Definition round_half_even (num den : Z) : Z :=
  let q := (num / den)%Z in
  let r := (num mod den)%Z in
  match (2 * r ?= den)%Z with
  | Lt => q
  | Gt => (q + 1)%Z
  | Eq => if Z.even q then q else (q + 1)%Z
  end.

Definition scaled_round (d : nat) (m : positive) (e : Z) : Z :=
  let p := (Zpos m * 10 ^ Z.of_nat d)%Z in
  if (0 <=? e)%Z then (p * 2 ^ e)%Z else round_half_even p (2 ^ (- e)).

(** digits of [n], left-padded with zeros to [w] characters *)
Definition zfill (w : nat) (s : string) : string :=
  String.concat "" (replicate (w - String.length s) "0") +:+ s.

Definition fixed_digits (d : nat) (n : Z) : string :=
  let scale := (10 ^ Z.of_nat d)%Z in
  let ip := pretty (n / scale)%Z in
  match d with
  | O => ip
  | _ => ip +:+ "." +:+ zfill d (pretty (n mod scale)%Z)
  end.

Definition format_f (d : nat) (x : float) : string :=
  match Prim2SF x with
  | S754_nan => "nan"
  | S754_infinity s => if s then "-inf" else "inf"
  | S754_zero s => (if s then "-" else "") +:+ fixed_digits d 0
  | S754_finite s m e => (if s then "-" else "") +:+ fixed_digits d (scaled_round d m e)
  end.

(** ['{:0<w>.<d>f}'.format(x)]: zero padding after the sign up to width [w] *)
Definition format_0f (w d : nat) (x : float) : string :=
  match format_f d x with
  | String c rest => if Ascii.eqb c "-"%char then "-" +:+ zfill (w - 1) rest else zfill w (String c rest)
  | s => zfill w s
  end.

(** Assignment of a float into an [int64] array: truncation towards zero;
    values that do not fit give the smallest integer. *)
Definition to_int64 (x : float) : Z :=
  match Prim2SF x with
  | S754_zero _ => 0%Z
  | S754_finite sg m e =>
      let a := if (0 <=? e)%Z then (Zpos m * 2 ^ e)%Z else (Zpos m / 2 ^ (- e))%Z in
      let v := if sg then (- a)%Z else a in
      if ((- 2 ^ 63 <=? v) && (v <? 2 ^ 63))%Z then v else (- 2 ^ 63)%Z
  | _ => (- 2 ^ 63)%Z
  end.

(** [np.isclose(a, b)] with the default tolerances *)
Definition isclose (a b : float) : bool :=
  if isfinite a && isfinite b
  then (PrimFloat.abs (a - b) <=? 1e-8 + 1e-5 * PrimFloat.abs b)%float
  else (a =? b)%float.

End Float.

Example format_f_2_72 : Float.format_f 1 2.72 = "2.7". Proof. vm_compute. reflexivity. Qed.
Example format_f_2_8 : Float.format_f 1 2.8 = "2.8". Proof. vm_compute. reflexivity. Qed.
Example format_f_2_45 : Float.format_f 1 2.45 = "2.5". Proof. vm_compute. reflexivity. Qed.
Example format_f_2_65 : Float.format_f 1 2.65 = "2.6". Proof. vm_compute. reflexivity. Qed.
Example format_f_2_75 : Float.format_f 1 2.75 = "2.8". Proof. vm_compute. reflexivity. Qed.
Example format_f_2_25 : Float.format_f 1 2.25 = "2.2". Proof. vm_compute. reflexivity. Qed.
Example format_0f_2_9 : Float.format_0f 4 2 2.9 = "2.90". Proof. vm_compute. reflexivity. Qed.
Example format_0f_3_1 : Float.format_0f 4 2 3.1 = "3.10". Proof. vm_compute. reflexivity. Qed.
Example of_Z_3 : Float.of_Z 3 = 3%float. Proof. vm_compute. reflexivity. Qed.
Example of_Z_m7 : Float.of_Z (-7) = (-7)%float. Proof. vm_compute. reflexivity. Qed.

(** ** Exceptions, printed messages and the effect trace *)

Inductive exn :=
| ValueError (msg : string)
| KeyError (key : string)
| TypeError (msg : string)
| IndexError (msg : string)
| ZeroDivisionError.

(** The lines the module prints; the interpolated values are kept as data. *)
Inductive message :=
| ERROR_IPF_lower_than_2_43
| WARNING_IPF_lower_than_2_53
| WARNING_noise_scaling_missing (subswathID : string) (IPFversion : float)
| WARNING_power_balancing_missing (subswathID : string) (IPFversion : float)
| WARNING_extra_scaling_missing (subswathID : string) (IPFversion : float)
| WARNING_noise_variance_missing (subswathID : string) (IPFversion : float).

(** One swathBounds element of the annotation. *)
Record block := Block {
  firstAzimuthLine : nat;
  lastAzimuthLine : nat;
  firstRangeSample : nat;
  lastRangeSample : nat }.

Inductive event :=
| Print (m : message)
(** a membership test or a subscript of the coefficient table *)
| JsonKey (key : string)
(** a call of [scipy.optimize.minimize] for one block and one noise vector *)
| Minimize (swath_name : string) (b : block) (v1 : nat).

(** A computation yields its trace and either an exception or a value. *)
Definition M (A : Type) : Type := list event * (exn + A).

Definition raise {A} (e : exn) : M A := ([], inl e).
Definition emit (ev : event) : M unit := ([ev], inr tt).
Definition print (m : message) : M unit := emit (Print m).
Definition lift {A} (r : exn + A) : M A := ([], r).

#[export] Instance M_ret : MRet M := λ A x, ([], inr x).
#[export] Instance M_bind : MBind M := λ A B f m,
  match m with
  | (t, inl e) => (t, inl e)
  | (t, inr x) => let '(t', r) := f x in (t ++ t', r)
  end.

Definition trace {A} (m : M A) : list event := fst m.
Definition outcome {A} (m : M A) : exn + A := snd m.
Definition returns {A} (m : M A) (x : A) : Prop := outcome m = inr x.

(** [for x in l: acc = f acc x] *)
Fixpoint for_each {A B} (l : list A) (f : B → A → M B) (acc : B) : M B :=
  match l with
  | [] => mret acc
  | x :: l' => acc' ← f acc x; for_each l' f acc'
  end.

(** subscript of a list, [IndexError] out of range *)
Definition getitem {A} (l : list A) (i : nat) : M A :=
  match l !! i with
  | Some x => mret x
  | None => raise (IndexError "index out of range")
  end.

(** subscript of a dict, [KeyError] on a missing key *)
Definition subscript {A} (d : gmap string A) (k : string) : M A :=
  match d !! k with
  | Some x => mret x
  | None => raise (KeyError k)
  end.

(** subscript of an insertion-ordered dict *)
Definition dict_get {A} (d : list (string * A)) (k : string) : M A :=
  match list_find (λ kv, kv.1 = k) d with
  | Some (_, kv) => mret kv.2
  | None => raise (KeyError k)
  end.

(** ** Strings and file names *)

(** [s.split(c)] *)
Fixpoint split_on (c : ascii) (s : string) : list string :=
  match s with
  | EmptyString => [EmptyString]
  | String a s' =>
      if Ascii.eqb a c then EmptyString :: split_on c s'
      else match split_on c s' with
           | [] => [String a EmptyString]
           | w :: ws => String a w :: ws
           end
  end.

(** [os.path.basename(p)] and [p.split(os.sep)[-1]] agree: the part after the
    last separator. *)
Definition basename (p : string) : string :=
  List.last (split_on "/" p) EmptyString.

(** [s[i:j]] for [0 <= i <= j] *)
Definition slice (i j : nat) (s : string) : string := String.substring i (j - i) s.

Example split_on_name :
  split_on "_" "S1B_EW_GRDM_1SDH_20170120T000000" = ["S1B"; "EW"; "GRDM"; "1SDH"; "20170120T000000"].
Proof. reflexivity. Qed.
Example basename_path : basename "/data/S1A_IW.SAFE" = "S1A_IW.SAFE".
Proof. reflexivity. Qed.

(** ** Dates *)

Record datetime := Datetime {
  year : nat; month : nat; day : nat; hour : nat; minute : nat; second : nat }.

Definition datetime_key (d : datetime) : list nat :=
  [year d; month d; day d; hour d; minute d; second d].

Fixpoint lex_leb (a b : list nat) : bool :=
  match a, b with
  | x :: a', y :: b' => (x <? y)%nat || ((x =? y)%nat && lex_leb a' b')
  | [], _ => true
  | _ :: _, [] => false
  end.

(** [a <= b] on naive datetimes *)
Definition datetime_leb (a b : datetime) : bool := lex_leb (datetime_key a) (datetime_key b).

(** ** Product metadata

    The records hold what the accessors of the class return once the XML is
    parsed: dictionaries of lists become records of lists with the same keys. *)

(** [noise_range(pol)]: the range noise vectors of the noise XML *)
Record NoiseRange := {
  nr_line : list nat;
  nr_pixel : list (list nat);
  nr_noise : list (list float) }.

(** [calibration(pol)]: the calibration vectors *)
Record Calibration := {
  cal_line : list nat;
  cal_pixel : list (list nat);
  sigmaNought : list (list float) }.

(** [aux_calibration_params()[pol][swath]] *)
Record AuxCalibrationParams := {
  elevationAntennaPattern : list float;
  elevationAntennaPatternCount : Z;
  elevationAngleIncrement : float }.

(** What the annotation, calibration and noise files give for one polarisation. *)
Record PolData := {
  shape : nat * nat;
  (** swath name and its blocks, in the order of the swathMerge elements *)
  swath_bounds : list (string * list block);
  noise_range : NoiseRange;
  calibration : Calibration;
  azimuthFrequency : float;
  (** (swath, numberOfInputLines) of every inputDimensions element *)
  inputDimensions : list (string * Z) }.

(** A value of the coefficient file: a number or a list of numbers. *)
Inductive json :=
| JNum (x : float)
| JList (xs : list float).

Abbreviation raster := (list (list float)).

(** The [Sentinel1Image] object. *)
Record Sentinel1Image := {
  filename : string;
  obsMode : string;
  crosspol : string;
  pols : list string;
  swath_ids : list nat;
  IPFversion : float;
  xml : gmap string PolData;
  (** DN rasters of the measurement files *)
  measurements : gmap string (list (list nat));
  aux_calibration_params : gmap string (gmap string AuxCalibrationParams) }.

Definition set_IPFversion (v : float) (s : Sentinel1Image) : Sentinel1Image :=
  {| filename := filename s; obsMode := obsMode s; crosspol := crosspol s;
     pols := pols s; swath_ids := swath_ids s; IPFversion := v; xml := xml s;
     measurements := measurements s;
     aux_calibration_params := aux_calibration_params s |}.

(** [f'{self.obsMode}{swid}'] *)
Definition swath_name_of (s : Sentinel1Image) (swid : nat) : string :=
  obsMode s +:+ pretty swid.

(** ** Library functions

    scipy, numpy's transcendental and reduction kernels, [datetime.strptime] and
    the helpers of [s1denoise.utils] are outside the module; so are the
    geometric interpolators and the scalloping model, whose values play no part
    in the properties proved here. They are operations of this interface. *)
Class Library := {
  (** [datetime.strptime(_, '%Y%m%dT%H%M%S')] *)
  strptime : string → exn + datetime;
  (** [InterpolatedUnivariateSpline(x, y, k=k)] *)
  InterpolatedUnivariateSpline : list float → list float → nat → exn + (float → float);
  (** [RectBivariateSpline(x, y, z)] *)
  RectBivariateSpline : list float → list float → raster → exn + (float → float → float);
  (** [minimize(cost, 0, args=(pix, interpolator, apg)).x[0]] *)
  minimize_cost : list float → (float → float) → list float → float;
  (** [x ** y] for a non-integer exponent *)
  np_power : float → float → float;
  (** [np.nanmean] *)
  nanmean : raster → float;
  (** [scipy.ndimage.gaussian_filter(a, window)] *)
  gaussian_filter : raster → float → raster;
  (** [s1denoise.utils.fill_gaps(array, mask)] *)
  fill_gaps : raster → list (list bool) → raster;
  get_boresight_angle_interpolator : Sentinel1Image → string → exn + (float → float → float);
  get_range_spread_loss_interpolator : Sentinel1Image → string → float → exn + (float → float → float);
  (** [get_tg_vectors(pol)]: total gain per noise vector *)
  get_tg_vectors : Sentinel1Image → string → exn + list (list float);
  get_scalloping_full_size : Sentinel1Image → string → exn + raster }.

(** ** numpy helpers *)

(** [np.arange(a, b)] on integers *)
Definition arange (a b : nat) : list nat := seq a (b - a).
Definition arangeZ (a b : Z) : list Z := (λ i, a + Z.of_nat i)%Z <$> seq 0 (Z.to_nat (b - a)).

(** [np.where(mask)[0]] *)
Definition np_where {A} (P : A → bool) (l : list A) : list nat :=
  fst <$> filter (λ ix, P ix.2 = true) (imap pair l).

(** [np.where((line >= fal) * (line <= lal))[0]] *)
Definition line_in (b : block) (l : nat) : bool :=
  (firstAzimuthLine b <=? l)%nat && (l <=? lastAzimuthLine b)%nat.
Definition pixel_in (b : block) (p : nat) : bool :=
  (firstRangeSample b <=? p)%nat && (p <=? lastRangeSample b)%nat.
Definition in_block (b : block) (l p : nat) : bool := line_in b l && pixel_in b p.

(** [a[idx]] for an index array *)
Definition take_indices {A} (a : list A) (idx : list nat) : M (list A) :=
  for_each idx (λ acc i, x ← getitem a i; mret (acc ++ [x])) [].

(** [a[idx] = vals], element by element *)
Definition put_indices {A} (a : list A) (idx : list nat) (vals : list A) : list A :=
  foldl (λ acc iv, <[iv.1 := iv.2]> acc) a (zip idx vals).

Example np_where_ex : np_where (λ x, (2 <=? x)%nat) [1; 5; 0; 3]%nat = [1; 3]%nat.
Proof. reflexivity. Qed.
Example arangeZ_ex : arangeZ (-1) 2 = [-1; 0; 1]%Z.
Proof. reflexivity. Qed.

(** [a / b] on Python floats *)
Definition py_truediv (a b : float) : M float :=
  if (b =? 0)%float then raise ZeroDivisionError else mret (a / b)%float.

(** [max(l)] *)
Definition py_max (l : list Z) : M Z :=
  match l with
  | [] => raise (ValueError "max() arg is an empty sequence")
  | x :: l' => mret (foldl Z.max x l')
  end.

Definition as_num (j : json) : M float :=
  match j with
  | JNum x => mret x
  | JList _ => raise (TypeError "unsupported operand type(s): 'list'")
  end.
Definition as_list (j : json) : M (list float) :=
  match j with
  | JList xs => mret xs
  | JNum _ => raise (TypeError "'float' object is not subscriptable")
  end.

(** * The methods of [Sentinel1Image] *)

Section Methods.

Context {lib : Library}.
(** the content of [denoising_parameters.json] *)
Context (params : gmap string (gmap string json)).

(** [key in params], recorded in the trace *)
Definition params_contains (key : string) : M bool :=
  _ ← emit (JsonKey key); mret (bool_decide (is_Some (params !! key))).
(** [params[key]], recorded in the trace *)
Definition params_getitem (key : string) : M (gmap string json) :=
  _ ← emit (JsonKey key); subscript params key.

(** ** Construction: the checks of [__init__] on the IPF version *)

Definition supported_products : list string :=
  ["IW_GRDH_1SDH"; "IW_GRDH_1SDV"; "EW_GRDM_1SDH"; "EW_GRDM_1SDV"].

Definition pol_mode_table (pol_mode : string) : M (string * list string) :=
  if String.eqb pol_mode "1SDH" then mret ("HV", ["HH"; "HV"])
  else if String.eqb pol_mode "1SDV" then mret ("VH", ["VH"; "VV"])
  else raise (KeyError pol_mode).

Definition swath_count (mode : string) : M nat :=
  if String.eqb mode "IW" then mret 3%nat
  else if String.eqb mode "EW" then mret 5%nat
  else raise (KeyError mode).

(** [__init__(filename)]; the files of the product are given parsed: the
    version attribute of the manifest, the per-polarisation XML, the
    measurement rasters and the auxiliary calibration parameters. *)
Definition init (fname : string) (version : float) (x : gmap string PolData)
    (meas : gmap string (list (list nat)))
    (auxp : gmap string (gmap string AuxCalibrationParams)) : M Sentinel1Image :=
  let base := basename fname in
  if negb (bool_decide (slice 4 16 base ∈ supported_products)) then
    raise (ValueError "Source file must be Sentinel-1A/1B IW_GRDH_1SDH, IW_GRDH_1SDV, EW_GRDM_1SDH, or EW_GRDM_1SDV product.")
  else
    let mode := slice 4 6 base in
    pol_mode ← getitem (split_on "_" base) 3;
    '(cross, ps) ← pol_mode_table pol_mode;
    n ← swath_count mode;
    start_tok ← getitem (split_on "_" base) 4;
    _ ← lift (strptime start_tok);
    end_tok ← getitem (split_on "_" base) 5;
    _ ← lift (strptime end_tok);
    _ ← (if (version <? 2.43)%float then print ERROR_IPF_lower_than_2_43
         else if (2.43 <=? version)%float && (version <? 2.53)%float
              then print WARNING_IPF_lower_than_2_53
              else mret tt);
    mret {| filename := fname; obsMode := mode; crosspol := cross; pols := ps;
            swath_ids := seq 1 n; IPFversion := version; xml := x;
            measurements := meas; aux_calibration_params := auxp |}.

(** ** Focused burst length *)

(** the candidates of the comprehension: [k] in [range(1, n // nominal + 1)]
    with [n % k == 0] *)
Definition burst_candidates (nominalLinesPerBurst numberOfInputLines : Z) : list Z :=
  filter (λ k, (numberOfInputLines mod k = 0)%Z)
         (arangeZ 1 (numberOfInputLines / nominalLinesPerBurst + 1)).

Definition numberOfBursts (nominalLinesPerBurst numberOfInputLines : Z) : M Z :=
  py_max (burst_candidates nominalLinesPerBurst numberOfInputLines).

Definition nominalLinesPerBurst (mode : string) : M Z :=
  if String.eqb mode "IW" then mret 1450%Z
  else if String.eqb mode "EW" then mret 1100%Z
  else raise (KeyError mode).

(** the body of the loop over [inputDimensions] *)
Definition burst_length (nominal : Z) (azimuthTimeIntevalInSLC : float)
    (numberOfInputLines : Z) : M float :=
  nb ← numberOfBursts nominal numberOfInputLines;
  if bool_decide ((numberOfInputLines mod nb)%Z = 0%Z) then
    mret (Float.of_Z numberOfInputLines / Float.of_Z nb * azimuthTimeIntevalInSLC)%float
  else raise (ValueError "number of bursts cannot be determined.").

Definition focusedBurstLengthInTime (s : Sentinel1Image) (pol : string) : M (gmap string float) :=
  d ← subscript (xml s) pol;
  azimuthTimeIntevalInSLC ← py_truediv 1 (azimuthFrequency d);
  nominal ← nominalLinesPerBurst (obsMode s);
  for_each (inputDimensions d)
    (λ acc dims,
       t ← burst_length nominal azimuthTimeIntevalInSLC dims.2;
       mret (<[dims.1 := t]> acc))
    ∅.

(** ** Denoising coefficients *)

(** [np.linspace(-30, +30, 601)] *)
Definition linspace_SNNR : list float :=
  ((λ i, Float.of_nat i * (60 / 600) + (-30))%float <$> seq 0 600) ++ [30%float].

Definition coefficients : Type :=
  gmap string json * gmap string json * gmap string json * gmap string json.

(** the version that keys the lookup *)
Definition lookup_IPFversion (platform : string) (version : float) (sensingDate : datetime) : float :=
  if String.eqb platform "S1B" && (version =? 2.72)%float
     && datetime_leb (Datetime 2017 1 16 13 42 34) sensingDate
  then 2.8%float else version.

(** [f'{base_key}_<kind>_%0.1f' % IPFversion] *)
Definition coefficient_key (base_key kind : string) (version : float) : string :=
  base_key +:+ "_" +:+ kind +:+ "_" +:+ Float.format_f 1 version.

(** the body of the loop over the swaths. The keys are built with
    [f'{base_key}_NS_%0.1f' % IPFversion]; product names hold no [%]. *)
Definition coefficients_step (s : Sentinel1Image) (base_key : string) (version : float)
    (load_extra_scaling : bool) (acc : coefficients) (iSW : nat) : M coefficients :=
  let '(noiseScaling, powerBalancing, extraScaling, noiseVariance) := acc in
  let subswathID := swath_name_of s iSW in
  let ns_key := coefficient_key base_key "NS" version in
  ns_in ← params_contains ns_key;
  noiseScaling ←
    (if ns_in : bool then
       e ← params_getitem ns_key;
       mret (<[subswathID := default (JNum 1) (e !! subswathID)]> noiseScaling)
     else
       _ ← print (WARNING_noise_scaling_missing subswathID version);
       mret (<[subswathID := JNum 1]> noiseScaling));
  let pb_key := coefficient_key base_key "PB" version in
  pb_in ← params_contains pb_key;
  powerBalancing ←
    (if pb_in : bool then
       e ← params_getitem pb_key;
       mret (<[subswathID := default (JNum 0) (e !! subswathID)]> powerBalancing)
     else
       _ ← print (WARNING_power_balancing_missing subswathID version);
       mret (<[subswathID := JNum 0]> powerBalancing));
  if negb load_extra_scaling then
    mret (noiseScaling, powerBalancing, extraScaling, noiseVariance)
  else
    let es_key := coefficient_key base_key "ES" version in
    es_in ← params_contains es_key;
    extraScaling ←
      (if es_in : bool then
         e ← params_getitem es_key;
         v ← subscript e subswathID;
         e' ← params_getitem es_key;
         snnr ← subscript e' "SNNR";
         mret (<["SNNR" := snnr]> (<[subswathID := v]> extraScaling))
       else
         _ ← print (WARNING_extra_scaling_missing subswathID version);
         mret (<[subswathID := JList (replicate 601 1%float)]>
                 (<["SNNR" := JList linspace_SNNR]> extraScaling)));
    let nv_key := coefficient_key base_key "NV" version in
    (** the test is on [pb_key]; the assignment is into the string [nv_key] *)
    nv_in ← params_contains pb_key;
    _ ← (if nv_in : bool then
           _ ← params_getitem nv_key;
           raise (TypeError "'str' object does not support item assignment")
         else print (WARNING_noise_variance_missing subswathID version));
    mret (noiseScaling, powerBalancing, extraScaling, noiseVariance).

Definition import_denoisingCoefficients (s : Sentinel1Image) (pol : string)
    (load_extra_scaling : bool) : M coefficients :=
  let filename_parts := split_on "_" (basename (filename s)) in
  platform ← getitem filename_parts 0;
  mode ← getitem filename_parts 1;
  resolution ← getitem filename_parts 2;
  tok ← getitem (split_on "_" (basename (filename s))) 4;
  sensingDate ← lift (strptime tok);
  let version := lookup_IPFversion platform (IPFversion s) sensingDate in
  let base_key := platform +:+ "_" +:+ mode +:+ "_" +:+ resolution +:+ "_" +:+ pol in
  for_each (swath_ids s) (coefficients_step s base_key version load_extra_scaling) (∅, ∅, ∅, ∅).

(** [get_tg_scales_offsets()] *)
Definition apg_key (s : Sentinel1Image) : string :=
  slice 0 16 (basename (filename s)) +:+ "_APG_" +:+ Float.format_0f 4 2 (IPFversion s).

Definition get_tg_scales_offsets (s : Sentinel1Image) : M (list float * list float) :=
  p ← params_getitem (apg_key s);
  for_each (seq 0 5)
    (λ (acc : list float * list float) i,
       let '(scales, offsets) := acc in
       B ← subscript p "B" ≫= as_list;
       b0 ← getitem B (i * 2);
       y ← subscript p "Y_SCALE" ≫= as_num;
       o ← py_truediv b0 y;
       B ← subscript p "B" ≫= as_list;
       b1 ← getitem B (1 + i * 2);
       a ← subscript p "A_SCALE" ≫= as_num;
       y ← subscript p "Y_SCALE" ≫= as_num;
       sc ← py_truediv (b1 * a) y;
       mret (scales ++ [sc], offsets ++ [o]))
    ([], []).

(** ** Elevation antenna pattern *)

(** [a[0::2]] *)
Fixpoint stride2 {A} (l : list A) : list A :=
  match l with
  | x :: _ :: l' => x :: stride2 l'
  | l => l
  end.

Definition aux_params (s : Sentinel1Image) (pol subswathID : string) : M AuxCalibrationParams :=
  by_swath ← subscript (aux_calibration_params s) pol;
  subscript by_swath subswathID.

(** the amplitude and the angle axis handed to the spline *)
Definition eap_amplitudeLUT (a : AuxCalibrationParams) : list float :=
  let eap_lut := elevationAntennaPattern a in
  if (elevationAntennaPatternCount a =? Z.of_nat (length eap_lut))%Z then
    (λ x, np_power 10 (x / 10)) <$> eap_lut
  else
    zip_with (λ re im, PrimFloat.sqrt (Float.square re + Float.square im))
             (stride2 (removelast eap_lut)) (stride2 (tail eap_lut)).

Definition eap_angleLUT (a : AuxCalibrationParams) : list float :=
  let recordLength := elevationAntennaPatternCount a in
  (λ i, Float.of_Z i * elevationAngleIncrement a)%float
    <$> arangeZ (- (recordLength / 2)) (recordLength / 2 + 1).

Definition get_eap_interpolator (s : Sentinel1Image) (subswathID pol : string) : M (float → float) :=
  a ← aux_params s pol subswathID;
  lift (InterpolatedUnivariateSpline (eap_angleLUT a) (PrimFloat.sqrt <$> eap_amplitudeLUT a) 3).

(** ** Lifting vectors to the full raster *)

(** Arrays combined element by element must have the same length. *)
Definition same_length {A B} (a : list A) (b : list B) : M unit :=
  if (length a =? length b)%nat then mret tt
  else raise (ValueError "operands could not be broadcast together").

Definition py_min_nat (l : list nat) : M nat :=
  match l with
  | [] => raise (ValueError "min() arg is an empty sequence")
  | x :: l' => mret (foldl Nat.min x l')
  end.
Definition py_max_nat (l : list nat) : M nat :=
  match l with
  | [] => raise (ValueError "max() arg is an empty sequence")
  | x :: l' => mret (foldl Nat.max x l')
  end.

(** the pixels of one vector inside block [b] whose value is finite *)
Definition valid_pixels (b : block) (pix : list nat) (z : list float) : list nat :=
  np_where (λ pz, pixel_in b pz.1 && Float.isfinite pz.2) (zip pix z).

(** evaluation of a bivariate spline on a grid: the coordinates must be sorted *)
Fixpoint nondecreasing (l : list nat) : bool :=
  match l with
  | x :: (y :: _) as l' => (x <=? y)%nat && nondecreasing l'
  | _ => true
  end.
Definition grid_row (f : float → float → float) (l : nat) (ps : list nat) : M (list float) :=
  if nondecreasing ps then mret ((λ p, f (Float.of_nat l) (Float.of_nat p)) <$> ps)
  else raise (ValueError "y must be sorted to evaluate on a grid").

Definition get_swath_interpolator (s : Sentinel1Image) (pol swath_name : string)
    (line : list nat) (pixel : list (list nat)) (z : list (list float))
    : M ((float → float → float) * list block) :=
  d ← subscript (xml s) pol;
  swathBound ← dict_get (swath_bounds d) swath_name;
  lo ← py_min_nat (firstRangeSample <$> swathBound);
  hi ← py_max_nat (lastRangeSample <$> swathBound);
  let pix_vec_fr := arange lo (hi + 1) in
  '(z_vecs, swath_lines) ←
    for_each swathBound
      (λ acc b,
         for_each (np_where (line_in b) line)
           (λ (acc : raster * list nat) v1,
              let '(z_vecs, swath_lines) := acc in
              l ← getitem line v1;
              pix ← getitem pixel v1;
              zv ← getitem z v1;
              _ ← same_length pix zv;
              let valid2 := valid_pixels b pix zv in
              if bool_decide (valid2 = []) then
                mret (z_vecs ++ [replicate (length pix_vec_fr) Float.nan], swath_lines ++ [l])
              else
                xs ← take_indices pix valid2;
                ys ← take_indices zv valid2;
                z_interp1 ← lift (InterpolatedUnivariateSpline (Float.of_nat <$> xs) ys 3);
                mret (z_vecs ++ [(λ p, z_interp1 (Float.of_nat p)) <$> pix_vec_fr],
                      swath_lines ++ [l]))
           acc)
      ([], []);
  z_interp2 ← lift (RectBivariateSpline (Float.of_nat <$> swath_lines)
                                        (Float.of_nat <$> pix_vec_fr) z_vecs);
  mret (z_interp2, swathBound).

(** [x ** power] for the integer powers of the module *)
Definition int_power (power : nat) (x : float) : float :=
  match power with
  | 1%nat => x
  | 2%nat => Float.square x
  | _ => np_power x (Float.of_nat power)
  end.

(** length of [a[lo:hi+1]] on an axis of size [n], and of [np.arange(lo, hi+1)] *)
Definition slice_len (lo hi n : nat) : nat := (Nat.min (hi + 1) n - Nat.min lo n)%nat.
Definition fits (lo hi n : nat) : bool :=
  let rhs := (hi + 1 - lo)%nat in
  (slice_len lo hi n =? rhs)%nat || (rhs =? 1)%nat.

(** [z_fs[fal:lal+1, frs:lrs+1] = v] where [v] is given by position *)
Definition setitem_block (z_fs : raster) (b : block) (v : nat → nat → float) : M raster :=
  if fits (firstAzimuthLine b) (lastAzimuthLine b) (length z_fs)
     && forallb (λ row, fits (firstRangeSample b) (lastRangeSample b) (length row)) z_fs
  then mret (imap (λ l row, imap (λ p x, if in_block b l p then v l p else x) row) z_fs)
  else raise (ValueError "could not broadcast input array").

Definition interp_nrv_full_size (s : Sentinel1Image) (z : list (list float)) (line : list nat)
    (pixel : list (list nat)) (pol : string) (power : nat) : M raster :=
  d ← subscript (xml s) pol;
  let z_fs := replicate (shape d).1 (replicate (shape d).2 Float.nan) in
  for_each (swath_name_of s <$> swath_ids s)
    (λ z_fs swath_name,
       '(z_interp2, swath_coords) ← get_swath_interpolator s pol swath_name line pixel z;
       for_each swath_coords
         (λ z_fs b,
            setitem_block z_fs b
              (λ l p, int_power power (z_interp2 (Float.of_nat l) (Float.of_nat p))))
         z_fs)
    z_fs.

(** ** Calibration and swath identifiers on the noise vectors *)

Definition get_calibration_vectors (s : Sentinel1Image) (pol : string) : M (list (list float)) :=
  d ← subscript (xml s) pol;
  let line := nr_line (noise_range d) in
  let pixel := nr_pixel (noise_range d) in
  let c := calibration d in
  for_each (swath_name_of s <$> swath_ids s)
    (λ sigma0_vecs swath_name,
       '(sigma0interp, swath_coords) ←
         get_swath_interpolator s pol swath_name (cal_line c) (cal_pixel c) (sigmaNought c);
       for_each swath_coords
         (λ sigma0_vecs b,
            for_each (np_where (line_in b) line)
              (λ sigma0_vecs v1,
                 pix ← getitem pixel v1;
                 let valid2 := np_where (pixel_in b) pix in
                 l ← getitem line v1;
                 ps ← take_indices pix valid2;
                 vals ← grid_row sigma0interp l ps;
                 row ← getitem sigma0_vecs v1;
                 mret (<[v1 := put_indices row valid2 vals]> sigma0_vecs))
              sigma0_vecs)
         sigma0_vecs)
    ((λ p_vec, replicate (length p_vec) Float.nan) <$> pixel).

(** [get_swath_id_vectors(pol)]: the 1-based position of the swath of every pixel *)
Definition get_swath_id_vectors (s : Sentinel1Image) (pol : string) : M (list (list nat)) :=
  d ← subscript (xml s) pol;
  let line := nr_line (noise_range d) in
  let pixel := nr_pixel (noise_range d) in
  for_each (imap pair (swath_bounds d))
    (λ swath_indices entry,
       let iswath := entry.1 in
       for_each entry.2.2
         (λ swath_indices b,
            for_each (np_where (line_in b) line)
              (λ swath_indices v1,
                 pix ← getitem pixel v1;
                 row ← getitem swath_indices v1;
                 let valid2 := np_where (pixel_in b) pix in
                 mret (<[v1 := put_indices row valid2 (replicate (length valid2) (iswath + 1)%nat)]>
                         swath_indices))
              swath_indices)
         swath_indices)
    ((λ p, replicate (length p) 0%nat) <$> pixel).

(** ** Noise from the total gain *)

(** The vectors are created with [np.zeros_like(pixel)], hence hold integers. *)
Definition get_noise_tg_vectors (s : Sentinel1Image) (pol : string) : M (list (list Z)) :=
  d ← subscript (xml s) pol;
  let pixel := nr_pixel (noise_range d) in
  '(scales, offsets) ← get_tg_scales_offsets s;
  gtot ← lift (get_tg_vectors s pol);
  swath_ids ← get_swath_id_vectors s pol;
  for_each (seq 0 (length gtot))
    (λ noise i,
       for_each (seq 1 5)
         (λ noise j,
            ids ← getitem swath_ids i;
            g ← getitem gtot i;
            _ ← same_length ids g;
            row ← getitem noise i;
            o ← getitem offsets (j - 1);
            sc ← getitem scales (j - 1);
            let gpi := np_where (λ x, (x =? j)%nat) ids in
            vals ← take_indices g gpi;
            mret (<[i := put_indices row gpi ((λ x, Float.to_int64 (o + x * sc)) <$> vals)]> noise))
         noise)
    ((λ p, replicate (length p) 0%Z) <$> pixel).

(** ** Shift of the range noise vectors *)

(** [np.unique(a, return_index=True)]: the sorted distinct values and the
    position of the first occurrence of each *)
Definition np_unique (a : list nat) : list nat * list nat :=
  let values := merge_sort Nat.le (remove_dups a) in
  (values, omap (λ v, fst <$> list_find (λ x, x = v) a) values).

(** [np.allclose(a, b)] for a scalar [b] *)
Definition allclose (a : list float) (b : float) : bool := forallb (λ x, Float.isclose x b) a.

(** [a[skip:-skip]] *)
Definition slice_skip {A} (skip : nat) (a : list A) : list A :=
  match skip with
  | O => []
  | _ => drop skip (take (length a - skip) a)
  end.

(** the positions of a vector written for block [b]: the valid pixels, one per
    distinct pixel number *)
Definition written_pixels (b : block) (pix : list nat) (nz : list float) : M (list nat) :=
  let valid2 := valid_pixels b pix nz in
  vp ← take_indices pix valid2;
  take_indices valid2 (np_unique vp).2.

(** the body of the loop over the noise vectors of one block *)
Definition shift_vector (swath_name : string) (b : block)
    (eap : float → float) (ba rsp : float → float → float)
    (line : list nat) (pixel : list (list nat)) (noise : list (list float))
    (skip min_valid_size : nat) (noise_shifted : list (list float)) (v1 : nat)
    : M (list (list float)) :=
  valid_lin ← getitem line v1;
  pix ← getitem pixel v1;
  nz ← getitem noise v1;
  _ ← same_length pix nz;
  let valid2 := valid_pixels b pix nz in
  if (min_valid_size <=? length valid2)%nat then
    vp ← take_indices pix valid2;
    let valid_pix := (np_unique vp).1 in
    valid2 ← written_pixels b pix nz;
    let at_pix f := (λ p, f (Float.of_nat valid_lin) (Float.of_nat p)) <$> valid_pix in
    let eap_v := eap <$> at_pix ba in
    let apg := zip_with (λ e r, Float.square (1 / e / r)) eap_v (at_pix rsp) in
    noise_valid ← take_indices nz valid2;
    first ← getitem noise_valid 0;
    row ← getitem noise_shifted v1;
    if allclose noise_valid first then
      mret (<[v1 := put_indices row valid2 noise_valid]> noise_shifted)
    else
      noise_interpolator ←
        lift (InterpolatedUnivariateSpline (Float.of_nat <$> valid_pix) noise_valid 3);
      _ ← emit (Minimize swath_name b v1);
      let pixel_shift :=
        minimize_cost (Float.of_nat <$> slice_skip skip valid_pix) noise_interpolator
                      (slice_skip skip apg) in
      let noise_shifted0 :=
        (λ p, noise_interpolator (Float.of_nat p + pixel_shift)%float) <$> valid_pix in
      mret (<[v1 := put_indices row valid2 noise_shifted0]> noise_shifted)
  else mret noise_shifted.

Definition get_shifted_noise_vectors_with (s : Sentinel1Image) (pol : string)
    (pixel : list (list nat)) (noise : list (list float))
    (skip min_valid_size : nat) (rsl_power : float) : M (list (list float)) :=
  d ← subscript (xml s) pol;
  let line := nr_line (noise_range d) in
  for_each (swath_ids s)
    (λ noise_shifted swid,
       let swath_name := swath_name_of s swid in
       swathBound ← dict_get (swath_bounds d) swath_name;
       eap_interpolator ← get_eap_interpolator s swath_name pol;
       ba_interpolator ← lift (get_boresight_angle_interpolator s pol);
       rsp_interpolator ← lift (get_range_spread_loss_interpolator s pol rsl_power);
       for_each swathBound
         (λ noise_shifted b,
            for_each (np_where (line_in b) line)
              (shift_vector swath_name b eap_interpolator ba_interpolator rsp_interpolator
                            line pixel noise skip min_valid_size)
              noise_shifted)
         noise_shifted)
    ((λ p, replicate (length p) 0%float) <$> pixel).

(** [get_shifted_noise_vectors(pol)] with the default arguments *)
Definition get_shifted_noise_vectors (s : Sentinel1Image) (pol : string) : M (list (list float)) :=
  d ← subscript (xml s) pol;
  get_shifted_noise_vectors_with s pol (nr_pixel (noise_range d)) (nr_noise (noise_range d))
    4 10 (3 / 2)%float.

(** ** Full-size rasters *)

Definition same_shape {A B} (a : list (list A)) (b : list (list B)) : M unit :=
  if bool_decide (length <$> a = length <$> b) then mret tt
  else raise (ValueError "operands could not be broadcast together").

(** element-wise operation on two rasters of the same shape *)
Definition raster_zip {A B C} (f : A → B → C) (a : list (list A)) (b : list (list B))
    : M (list (list C)) :=
  _ ← same_shape a b; mret (zip_with (zip_with f) a b).

Definition get_corrected_nesz_full_size (s : Sentinel1Image) (pol : string) (nesz : raster)
    : M raster :=
  '(ns, pb, _, _) ← import_denoisingCoefficients s pol false;
  for_each (swath_ids s)
    (λ nesz_corrected swid,
       let swath_name := swath_name_of s swid in
       match ns !! swath_name with
       | None => mret nesz_corrected
       | Some _ =>
           d ← subscript (xml s) pol;
           swathBound ← dict_get (swath_bounds d) swath_name;
           for_each swathBound
             (λ nesz_corrected b,
                n ← subscript ns swath_name ≫= as_num;
                let scaled := (λ l row, imap (λ p x, if in_block b l p then (x * n)%float else x) row) in
                o ← subscript pb swath_name ≫= as_num;
                let offset := (λ l row, imap (λ p x, if in_block b l p then (x + o)%float else x) row) in
                mret (imap offset (imap scaled nesz_corrected)))
             nesz_corrected
       end)
    nesz.

Definition get_raw_sigma0_full_size (s : Sentinel1Image) (pol : string) (min_dn : Z) : M raster :=
  dn ← subscript (measurements s) pol;
  d ← subscript (xml s) pol;
  let c := calibration d in
  cal ← interp_nrv_full_size s (sigmaNought c) (cal_line c) (cal_pixel c) pol 2;
  sigma0_fs ← raster_zip (λ n x, (Float.square (Float.of_nat n) / x)%float) dn cal;
  mret (zip_with (zip_with (λ (n : nat) x, if (Z.of_nat n <=? min_dn)%Z then Float.nan else x))
                 dn sigma0_fs).

(** the noise vectors chosen by the algorithm tag *)
Definition select_noise (s : Sentinel1Image) (pol algorithm : string) : M (list (list float)) :=
  d ← subscript (xml s) pol;
  if String.eqb algorithm "NERSC" then get_shifted_noise_vectors s pol
  else if String.eqb algorithm "NERSC_TG" then
    noise ← get_noise_tg_vectors s pol; mret (fmap (M := list) Float.of_Z <$> noise)
  else mret (nr_noise (noise_range d)).

Definition get_nesz_full_size (s : Sentinel1Image) (pol algorithm : string) : M raster :=
  noise ← select_noise s pol algorithm;
  cal_s0 ← get_calibration_vectors s pol;
  nesz ← for_each (zip noise cal_s0)
           (λ acc nc,
              _ ← same_length nc.1 nc.2;
              mret (acc ++ [zip_with (λ n c, (n / Float.square c)%float) nc.1 nc.2]))
           [];
  d ← subscript (xml s) pol;
  nesz_fs ← interp_nrv_full_size s nesz (nr_line (noise_range d)) (nr_pixel (noise_range d)) pol 1;
  scall ← lift (get_scalloping_full_size s pol);
  nesz_fs ← raster_zip PrimFloat.mul nesz_fs scall;
  if String.eqb algorithm "NERSC" then get_corrected_nesz_full_size s pol nesz_fs
  else mret nesz_fs.

(** ** Thermal and texture noise removal *)

Definition remove_thermal_noise (s : Sentinel1Image) (pol algorithm : string)
    (remove_negative : bool) (min_dn : Z) : M raster :=
  nesz_fs ← get_nesz_full_size s pol algorithm;
  sigma0 ← get_raw_sigma0_full_size s pol min_dn;
  sigma0 ← raster_zip PrimFloat.sub sigma0 nesz_fs;
  if remove_negative then
    mret (fill_gaps sigma0 (fmap (M := list) (λ x, (x <=? 0)%float) <$> sigma0))
  else mret sigma0.

(** [np.nanmin] *)
Definition nanmin (a : raster) : M float :=
  match concat a with
  | [] => raise (ValueError "zero-size array to reduction operation fmin which has no identity")
  | xs =>
      match filter (λ x, Float.isnan x = false) xs with
      | [] => mret Float.nan
      | x :: l => mret (foldl (λ m y, if (y <? m)%float then y else m) x l)
      end
  end.

(** The method assigns to [self.IPFversion], so it returns the object as well. *)
Definition remove_texture_noise (s : Sentinel1Image) (pol : string) (window weight s0_min : float)
    (remove_negative : bool) (algorithm : string) (min_dn : Z) : Sentinel1Image * M raster :=
  let s := if (IPFversion s =? 3.2)%float then set_IPFversion 3.1 s else s in
  (s,
   sigma0 ← get_raw_sigma0_full_size s pol min_dn;
   nesz ← get_nesz_full_size s pol algorithm;
   let s0_offset := nanmean nesz in
   sigma0o ←
     (if (s0_offset =? 0)%float then mret sigma0
      else
        sigma0 ← raster_zip PrimFloat.sub sigma0 nesz;
        let sigma0g := gaussian_filter sigma0 window in
        snr ← raster_zip PrimFloat.div sigma0g nesz;
        num ← raster_zip (λ g sx, (weight * g + sx)%float) sigma0g
                 (zip_with (zip_with PrimFloat.mul) snr sigma0);
        raster_zip (λ n r, (n / (weight + r) + s0_offset)%float) num snr);
   if remove_negative then
     m ← nanmin sigma0o;
     if (m <? 0)%float then
       mret (fill_gaps sigma0o (fmap (M := list) (λ x, (x <=? s0_min)%float) <$> sigma0o))
     else mret sigma0o
   else mret sigma0o).

(** ** Noise vectors corrected by the coefficients *)

(** [get_corrected_noise_vectors(pol, nesz, pixel, add_pb)]: the product is
    assigned to the pixels of the block, then the offset is added in place. *)
Definition get_corrected_noise_vectors (s : Sentinel1Image) (pol : string)
    (nesz : list (list float)) (pixel : option (list (list nat))) (add_pb : bool)
    : M (list (list float)) :=
  d ← subscript (xml s) pol;
  let pixel := default (nr_pixel (noise_range d)) pixel in
  let line := nr_line (noise_range d) in
  '(ns, pb, _, _) ← import_denoisingCoefficients s pol false;
  for_each (swath_ids s)
    (λ nesz_corrected swid,
       let swath_name := swath_name_of s swid in
       swathBound ← dict_get (swath_bounds d) swath_name;
       for_each swathBound
         (λ nesz_corrected b,
            for_each (np_where (line_in b) line)
              (λ nesz_corrected v1,
                 pix ← getitem pixel v1;
                 let valid2 := np_where (pixel_in b) pix in
                 nz ← getitem nesz v1;
                 vals ← take_indices nz valid2;
                 n ← subscript ns swath_name ≫= as_num;
                 row ← getitem nesz_corrected v1;
                 let row := put_indices row valid2 ((λ x, x * n)%float <$> vals) in
                 if add_pb then
                   cur ← take_indices row valid2;
                   o ← subscript pb swath_name ≫= as_num;
                   mret (<[v1 := put_indices row valid2 ((λ x, x + o)%float <$> cur)]>
                           nesz_corrected)
                 else mret (<[v1 := row]> nesz_corrected))
              nesz_corrected)
         nesz_corrected)
    ((λ p, replicate (length p) Float.nan) <$> pixel).

(** ** Antenna pattern and range spread loss on the noise vectors *)

(** the body of the loop over the noise vectors, for the swath [swid] *)
Definition eap_rsl_step (swid min_size : nat) (eap_interpolator : float → float)
    (ba_interpolator rsl_interpolator : float → float → float)
    (acc : list (list float) * list (list float))
    (e : nat * (nat * (list nat * list nat)))
    : M (list (list float) * list (list float)) :=
  let '(i, (l, (p, swids))) := e in
  let gpi := np_where (λ x, (x =? swid)%nat) swids in
  if (min_size <? length gpi)%nat then
    ps ← take_indices p gpi;
    ba ← grid_row ba_interpolator l ps;
    let eap := eap_interpolator <$> ba in
    rsl ← grid_row rsl_interpolator l ps;
    eap_row ← getitem acc.1 i;
    rsl_row ← getitem acc.2 i;
    mret (<[i := put_indices eap_row gpi eap]> acc.1,
          <[i := put_indices rsl_row gpi rsl]> acc.2)
  else mret acc.

Definition get_eap_rsl_vectors (s : Sentinel1Image) (pol : string) (min_size : nat)
    (rsl_power : float) : M (list (list float) * list (list float)) :=
  d ← subscript (xml s) pol;
  let pixel := nr_pixel (noise_range d) in
  let nans := (λ p, replicate (length p) Float.nan) <$> pixel in
  swath_indices ← get_swath_id_vectors s pol;
  for_each (swath_ids s)
    (λ acc swid,
       let swath_name := swath_name_of s swid in
       eap_interpolator ← get_eap_interpolator s swath_name pol;
       ba_interpolator ← lift (get_boresight_angle_interpolator s pol);
       rsl_interpolator ← lift (get_range_spread_loss_interpolator s pol rsl_power);
       for_each (imap pair (zip (nr_line (noise_range d)) (zip pixel swath_indices)))
         (eap_rsl_step swid min_size eap_interpolator ba_interpolator rsl_interpolator)
         acc)
    (nans, nans).

(** ** The swath number of every pixel of the raster *)

(** [a[fal:lal+1, frs:lrs+1] = c] for a scalar [c]: the slices are clipped to
    the array *)
Definition fill_block {A} (a : list (list A)) (b : block) (c : A) : list (list A) :=
  imap (λ l row, imap (λ p x, if in_block b l p then c else x) row) a.

Definition subswathIndexMap (s : Sentinel1Image) (pol : string) : M (list (list nat)) :=
  d ← subscript (xml s) pol;
  let subswathIndexMap := replicate (shape d).1 (replicate (shape d).2 0%nat) in
  n ← swath_count (obsMode s);
  for_each (seq 1 n)
    (λ subswathIndexMap iSW,
       swathBound ← dict_get (swath_bounds d) (swath_name_of s iSW);
       for_each swathBound
         (λ subswathIndexMap b, mret (fill_block subswathIndexMap b iSW))
         subswathIndexMap)
    subswathIndexMap.

End Methods.

(** * Reasoning about computations *)

Section Monad_facts.

Context {A B : Type}.

Lemma bind_unfold (m : M A) (f : A → M B) :
  m ≫= f = match m with
           | (t, inl e) => (t, inl e)
           | (t, inr x) => (t ++ trace (f x), outcome (f x))
           end.
Proof.
  unfold mbind, M_bind. destruct m as [t [e|x]]; [done|].
  unfold trace, outcome. by destruct (f x).
Qed.

Lemma returns_bind (m : M A) (f : A → M B) (y : B) :
  returns (m ≫= f) y ↔ ∃ x, returns m x ∧ returns (f x) y.
Proof.
  rewrite bind_unfold. unfold returns, outcome. destruct m as [t [e|x]]; simpl.
  - split; [done|]. by intros (x & ? & _).
  - split; [by exists x|]. intros (x' & [= ->] & H). done.
Qed.

Lemma trace_bind (m : M A) (f : A → M B) (ev : event) :
  ev ∈ trace (m ≫= f) → ev ∈ trace m ∨ ∃ x, returns m x ∧ ev ∈ trace (f x).
Proof.
  rewrite bind_unfold. unfold returns, trace, outcome. destruct m as [t [e|x]]; simpl.
  - by left.
  - rewrite elem_of_app. intros [?|?]; [by left|right; by exists x].
Qed.

Lemma returns_ret (x y : A) : returns (mret x) y ↔ x = y.
Proof. unfold returns, outcome, mret, M_ret. simpl. split; [by intros [= ->]|by intros ->]. Qed.

Lemma returns_raise (e : exn) (y : A) : ¬ returns (raise e) y.
Proof. unfold returns, outcome, raise. simpl. discriminate. Qed.

Lemma returns_lift (r : exn + A) (y : A) : returns (lift r) y ↔ r = inr y.
Proof. done. Qed.

End Monad_facts.

Lemma trace_ret {A} (x : A) (ev : event) : ev ∉ trace (mret (M := M) x).
Proof. unfold trace, mret, M_ret. simpl. apply not_elem_of_nil. Qed.

Lemma trace_lift {A} (r : exn + A) (ev : event) : ev ∉ trace (lift r).
Proof. unfold trace, lift. simpl. apply not_elem_of_nil. Qed.

Lemma trace_raise {A} (e : exn) (ev : event) : ev ∉ trace (raise (A := A) e).
Proof. unfold trace, raise. simpl. apply not_elem_of_nil. Qed.

Lemma returns_getitem {A} (l : list A) (i : nat) (x : A) :
  returns (getitem l i) x ↔ l !! i = Some x.
Proof.
  unfold getitem. destruct (l !! i) as [y|].
  - rewrite returns_ret. split; congruence.
  - split; [by intros ?%returns_raise|done].
Qed.

Lemma trace_getitem {A} (l : list A) (i : nat) (ev : event) : ev ∉ trace (getitem l i).
Proof. unfold getitem. destruct (l !! i); [apply trace_ret|apply trace_raise]. Qed.

Lemma returns_subscript {A} (d : gmap string A) (k : string) (x : A) :
  returns (subscript d k) x ↔ d !! k = Some x.
Proof.
  unfold subscript. destruct (d !! k) as [y|].
  - rewrite returns_ret. split; congruence.
  - split; [by intros ?%returns_raise|done].
Qed.

Lemma trace_subscript {A} (d : gmap string A) (k : string) (ev : event) :
  ev ∉ trace (subscript d k).
Proof. unfold subscript. destruct (d !! k); [apply trace_ret|apply trace_raise]. Qed.

Lemma returns_dict_get {A} (d : list (string * A)) (k : string) (x : A) :
  returns (dict_get d k) x → (k, x) ∈ d.
Proof.
  unfold dict_get. destruct (list_find _ d) as [[i [k' x']]|] eqn:Hf.
  - rewrite returns_ret. intros <-. apply list_find_Some in Hf as (Hl & Hk & _).
    simpl in Hk. subst k'. by eapply list_elem_of_lookup_2.
  - by intros ?%returns_raise.
Qed.

Lemma trace_dict_get {A} (d : list (string * A)) (k : string) (ev : event) :
  ev ∉ trace (dict_get d k).
Proof.
  unfold dict_get. destruct (list_find _ d) as [[? [? ?]]|]; [apply trace_ret|apply trace_raise].
Qed.

(** An invariant of the accumulator of a loop holds when the loop returns. *)
Lemma for_each_invariant {A B} (P : B → Prop) (l : list A) (f : B → A → M B) (acc out : B) :
  (∀ acc x acc', x ∈ l → P acc → returns (f acc x) acc' → P acc') →
  P acc → returns (for_each l f acc) out → P out.
Proof.
  revert acc. induction l as [|x l IH]; intros acc Hstep Hacc; simpl.
  - by intros ->%returns_ret.
  - intros (acc' & Hx & Hrest)%returns_bind.
    eapply (IH acc'); [|by eapply Hstep; [left| |]|done].
    intros ???? ; eapply Hstep. by right.
Qed.

(** Under a running invariant [I], a property established by the iteration on
    [x] and kept by the others holds when the loop returns. *)
Lemma for_each_establish {A B} (I P : B → Prop) (l : list A) (f : B → A → M B)
    (x : A) (acc out : B) :
  x ∈ l → I acc →
  (∀ acc y acc', y ∈ l → I acc → returns (f acc y) acc' → I acc') →
  (∀ acc acc', I acc → returns (f acc x) acc' → P acc') →
  (∀ acc y acc', y ∈ l → I acc → P acc → returns (f acc y) acc' → P acc') →
  returns (for_each l f acc) out → P out.
Proof.
  revert acc. induction l as [|y l IH]; intros acc Hx HI Hinv Hest Hkeep;
    [by apply elem_of_nil in Hx|].
  simpl. intros (acc' & Hy & Hrest)%returns_bind.
  assert (I acc') as HI' by (eapply (Hinv acc y); [left|done|done]).
  apply elem_of_cons in Hx as [<-|Hx].
  - assert (I out ∧ P out) as [_ ?]; [|done].
    eapply (for_each_invariant (λ c, I c ∧ P c) l f acc'); [| |done].
    + intros c z c' Hz [Hc1 Hc2] Hstep. split.
      * eapply (Hinv c z); [by right|done|done].
      * eapply (Hkeep c z); [by right|done|done|done].
    + split; [done|]. eapply Hest; [exact HI|exact Hy].
  - eapply (IH acc'); [done|done| |done| |done].
    + intros c z c' Hz; eapply Hinv. by right.
    + intros c z c' Hz; eapply Hkeep. by right.
Qed.

(** Every event of a loop is an event of one of its iterations. *)
Lemma trace_for_each {A B} (l : list A) (f : B → A → M B) (acc : B) (ev : event) :
  ev ∈ trace (for_each l f acc) → ∃ x acc0, x ∈ l ∧ ev ∈ trace (f acc0 x).
Proof.
  revert acc. induction l as [|x l IH]; intros acc; simpl.
  - by intros ?%elem_of_nil.
  - intros [H|(acc' & _ & H)]%trace_bind.
    + exists x, acc. split; [left|done].
    + destruct (IH _ H) as (y & acc0 & ? & ?). exists y, acc0. split; [by right|done].
Qed.

(** * A small instance of the library and a small product, for concrete runs *)

Definition digit_of (c : ascii) : option nat :=
  let n := nat_of_ascii c in
  if (48 <=? n)%nat && (n <=? 57)%nat then Some (n - 48)%nat else None.

Fixpoint digits_value (acc : nat) (s : string) : option nat :=
  match s with
  | EmptyString => Some acc
  | String c s' => d ← digit_of c; digits_value (10 * acc + d) s'
  end.

(** the fixed-width form [YYYYMMDDTHHMMSS] of product names *)
Definition parse_compact_datetime (s : string) : exn + datetime :=
  let field i j := digits_value 0 (slice i j s) in
  match field 0 4, field 4 6, field 6 8, field 9 11, field 11 13, field 13 15 with
  | Some y, Some mo, Some d, Some h, Some mi, Some se =>
      if (String.length s =? 15)%nat && String.eqb (slice 8 9 s) "T"
         && (1 <=? mo)%nat && (mo <=? 12)%nat && (1 <=? d)%nat && (d <=? 31)%nat
         && (h <=? 23)%nat && (mi <=? 59)%nat && (se <=? 59)%nat
      then inr (Datetime y mo d h mi se)
      else inl (ValueError "time data does not match format")
  | _, _, _, _, _, _ => inl (ValueError "time data does not match format")
  end.

(** a stand-in for the splines: the value of the first sample everywhere *)
Definition first_sample_spline (x y : list float) (k : nat) : exn + (float → float) :=
  if (length x =? length y)%nat && (k <? length x)%nat
  then inr (λ _, default Float.nan (head y))
  else inl (ValueError "x and y should have a same length").

Definition demo_shape : nat * nat := (2, 24)%nat.

Definition demo_library : Library := {|
  strptime := parse_compact_datetime;
  InterpolatedUnivariateSpline := first_sample_spline;
  RectBivariateSpline := λ _ _ z, inr (λ _ _, default 2%float (head (concat z)));
  minimize_cost := λ _ _ _, 0%float;
  np_power := λ x _, x;
  nanmean := λ a, default Float.nan (head (concat a));
  gaussian_filter := λ a _, a;
  fill_gaps := λ a mask,
    zip_with (zip_with (λ x (m : bool), if m then 1e-3%float else x)) a mask;
  get_boresight_angle_interpolator := λ _ _, inr (λ _ _, 1%float);
  get_range_spread_loss_interpolator := λ _ _ _, inr (λ _ _, 1%float);
  get_tg_vectors := λ _ _, inr [replicate 24 1%float];
  get_scalloping_full_size := λ _ _, inr (replicate 2 (replicate 24 1%float))
|}.

(** Three swaths on a 2 x 24 raster; samples 22 and 23 belong to no swath. One
    noise vector on line 0 with the constant value 5. *)
Definition demo_bounds : list (string * list block) :=
  [("IW1", [Block 0 1 0 11]); ("IW2", [Block 0 1 12 16]); ("IW3", [Block 0 1 17 21])].

Definition demo_pol : PolData := {|
  shape := demo_shape;
  swath_bounds := demo_bounds;
  noise_range := {| nr_line := [0%nat]; nr_pixel := [seq 0 24];
                    nr_noise := [replicate 24 5%float] |};
  calibration := {| cal_line := [0; 1]%nat; cal_pixel := [seq 0 24; seq 0 24];
                    sigmaNought := [replicate 24 2%float; replicate 24 2%float] |};
  azimuthFrequency := 1000%float;
  inputDimensions := [("IW1", 2900%Z); ("IW2", 1451%Z); ("IW3", 4350%Z)] |}.

Definition demo_aux : AuxCalibrationParams := {|
  elevationAntennaPattern := [0; 0; 0; 0; 0]%float;
  elevationAntennaPatternCount := 5;
  elevationAngleIncrement := 0.5%float |}.

Definition demo_xml : gmap string PolData := {[ "VH" := demo_pol; "VV" := demo_pol ]}.
Definition demo_measurements : gmap string (list (list nat)) :=
  {[ "VH" := replicate 2 (replicate 24 4%nat); "VV" := replicate 2 (replicate 24 4%nat) ]}.
Definition demo_aux_params : gmap string (gmap string AuxCalibrationParams) :=
  let by_swath : gmap string AuxCalibrationParams :=
    {[ "IW1" := demo_aux; "IW2" := demo_aux; "IW3" := demo_aux ]} in
  {[ "VH" := by_swath; "VV" := by_swath ]}.

(** the object that [__init__] builds for a product name and an IPF version *)
Definition demo_image (fname : string) (version : float) : Sentinel1Image := {|
  filename := fname; obsMode := "IW"; crosspol := "VH"; pols := ["VH"; "VV"];
  swath_ids := [1; 2; 3]%nat; IPFversion := version; xml := demo_xml;
  measurements := demo_measurements; aux_calibration_params := demo_aux_params |}.

Definition demo_name_S1A : string :=
  "S1A_IW_GRDH_1SDV_20190101T000000_20190101T000025_025000_02C000_ABCD.SAFE".
Definition demo_name_S1B : string :=
  "S1B_IW_GRDH_1SDV_20170120T000000_20170120T000025_003900_006B00_ABCD.SAFE".

Example init_demo :
  outcome (init (lib := demo_library) demo_name_S1A 2.9 demo_xml demo_measurements demo_aux_params)
  = inr (demo_image demo_name_S1A 2.9).
Proof. vm_compute. reflexivity. Qed.

(** * Focused burst length (claim C3) *)

Lemma elem_of_arangeZ (a b k : Z) : k ∈ arangeZ a b ↔ (a ≤ k < b)%Z.
Proof.
  unfold arangeZ. rewrite list_elem_of_fmap. split.
  - intros (i & -> & Hi%elem_of_seq). lia.
  - intros H. exists (Z.to_nat (k - a)). split; [lia|]. apply elem_of_seq. lia.
Qed.

Lemma foldl_max_spec (l : list Z) (x : Z) :
  (foldl Z.max x l = x ∨ foldl Z.max x l ∈ l)
  ∧ (x ≤ foldl Z.max x l)%Z ∧ ∀ y, y ∈ l → (y ≤ foldl Z.max x l)%Z.
Proof.
  revert x. induction l as [|z l IH]; intros x; simpl.
  - split; [by left|]. split; [lia|]. by intros y ?%elem_of_nil.
  - destruct (IH (Z.max x z)) as (Hin & Hle & Hall). repeat split.
    + destruct Hin as [Heq|Hin]; [|right; by right].
      rewrite Heq. destruct (Z.max_spec x z) as [[_ ->]|[_ ->]]; [right; left|by left].
    + lia.
    + intros y [->|Hy]%elem_of_cons; [lia|by apply Hall].
Qed.

(** [max] of a non-empty list returns its greatest element. *)
Lemma py_max_spec (l : list Z) :
  l ≠ [] → ∃ m, py_max l = mret m ∧ m ∈ l ∧ ∀ y, y ∈ l → (y ≤ m)%Z.
Proof.
  destruct l as [|x l]; [done|]. intros _. exists (foldl Z.max x l).
  destruct (foldl_max_spec l x) as (Hin & Hle & Hall). repeat split.
  - destruct Hin as [->|?]; [left|by right].
  - intros y [->|?]%elem_of_cons; [done|by apply Hall].
Qed.

Lemma elem_of_burst_candidates (nominal n k : Z) :
  k ∈ burst_candidates nominal n ↔ (1 ≤ k ≤ n / nominal)%Z ∧ (k | n)%Z.
Proof.
  unfold burst_candidates. rewrite list_elem_of_filter, elem_of_arangeZ. split.
  - intros [Hm Hk]. split; [lia|]. apply Z.mod_divide; [lia|done].
  - intros [Hk Hd]. split; [|lia]. apply Z.mod_divide; [lia|done].
Qed.

(** the words of the specification: [d] is the largest divisor of [n] not
    exceeding [bound] *)
Definition largest_divisor_upto (n bound d : Z) : Prop :=
  (d | n)%Z ∧ (1 ≤ d ≤ bound)%Z ∧ ∀ d', (1 ≤ d' ≤ bound)%Z → (d' | n)%Z → (d' ≤ d)%Z.

Lemma numberOfBursts_largest_divisor (nominal n : Z) :
  (0 < nominal ≤ n)%Z →
  ∃ d, numberOfBursts nominal n = mret d ∧ largest_divisor_upto n (n / nominal) d.
Proof.
  intros Hn.
  assert (1 ≤ n / nominal)%Z as Hq by (apply Z.div_le_lower_bound; lia).
  assert (1%Z ∈ burst_candidates nominal n) as H1.
  { apply elem_of_burst_candidates. split; [lia|apply Z.divide_1_l]. }
  destruct (py_max_spec (burst_candidates nominal n)) as (d & Hd & Hin & Hmax).
  { intros Hnil. rewrite Hnil in H1. by apply elem_of_nil in H1. }
  exists d. split; [done|]. apply elem_of_burst_candidates in Hin as [Hb Hdiv].
  repeat split; [done|lia|lia|]. intros d' Hb' Hdiv'. apply Hmax.
  by apply elem_of_burst_candidates.
Qed.

Lemma numberOfBursts_empty (nominal n : Z) :
  (0 < nominal)%Z → (n < nominal)%Z →
  numberOfBursts nominal n = raise (ValueError "max() arg is an empty sequence").
Proof.
  intros Hpos Hlt. unfold numberOfBursts.
  assert (burst_candidates nominal n = []) as ->; [|done].
  apply elem_of_nil_inv. intros k [Hk _]%elem_of_burst_candidates.
  assert (n / nominal < 1)%Z by (apply Z.div_lt_upper_bound; lia). lia.
Qed.

Lemma numberOfBursts_prime (nominal n : Z) :
  (1 < nominal < n)%Z → Z.prime n → numberOfBursts nominal n = mret 1%Z.
Proof.
  intros Hn [_ Hprime].
  destruct (numberOfBursts_largest_divisor nominal n) as (d & -> & Hdiv & Hb & _); [lia|].
  f_equal. f_equal.
  assert (n / nominal < n)%Z by (apply Z.div_lt; lia).
  destruct (decide (d = 1%Z)) as [->|Hne]; [done|].
  exfalso. apply (Hprime d); [lia|done].
Qed.

Lemma burst_length_divides (nominal n d : Z) (interval : float) :
  numberOfBursts nominal n = mret d → (d | n)%Z → (1 ≤ d)%Z →
  burst_length nominal interval n = mret (Float.of_Z n / Float.of_Z d * interval)%float.
Proof.
  intros Hnb Hdiv Hd. unfold burst_length. rewrite Hnb. simpl.
  rewrite bool_decide_eq_true_2; [done|]. apply Z.mod_divide; [lia|done].
Qed.

Lemma nominalLinesPerBurst_values (mode : string) (nominal : Z) :
  returns (nominalLinesPerBurst mode) nominal → nominal = 1450%Z ∨ nominal = 1100%Z.
Proof.
  unfold nominalLinesPerBurst.
  destruct (String.eqb mode "IW"); [intros <-%returns_ret; by left|].
  destruct (String.eqb mode "EW"); [intros <-%returns_ret; by right|].
  by intros ?%returns_raise.
Qed.

Lemma prime_1451 : Z.prime 1451.
Proof.
  split; [lia|]. intros n Hn Hd.
  assert (forallb (λ k, negb (1451 mod k =? 0)%Z) (arangeZ 2 1451) = true) as Hall
    by (vm_compute; reflexivity).
  rewrite forallb_forall in Hall. specialize (Hall n).
  rewrite <- list_elem_of_In, elem_of_arangeZ in Hall.
  apply Z.mod_divide in Hd; [|lia]. rewrite Hd in Hall. specialize (Hall ltac:(lia)). done.
Qed.

(** C3, as stated, fails: with 1451 input lines (a prime above the nominal
    1450 of IW) the burst count is 1 and a burst length is returned; no error
    is raised. *)
Lemma C3_prime_lines_counterexample :
  Z.prime 1451 ∧ nominalLinesPerBurst "IW" = mret 1450%Z ∧ (1450 < 1451)%Z
  ∧ numberOfBursts 1450 1451 = mret 1%Z
  ∧ ∃ lengths,
      focusedBurstLengthInTime (demo_image demo_name_S1A 2.9) "VH" = mret lengths
      ∧ lengths !! "IW2" = Some (1451 / 1 * (1 / 1000))%float.
Proof.
  split; [apply prime_1451|]. split; [done|]. split; [lia|]. split; [by vm_compute|].
  eexists. split; [vm_compute; reflexivity|]. vm_compute. reflexivity.
Qed.

(** C3, amended. For the nominal burst size of a mode and [n] input lines:
    a prime [n] above the nominal size gives one burst and the length
    [n / 1 * interval]; whenever [n] is at least the nominal size the burst
    count is the largest divisor of [n] not exceeding [n // nominal] and a
    length is returned; below the nominal size the candidate list is empty
    and [max] raises; the error "number of bursts cannot be determined" is
    never raised. *)
Theorem C3_burst_length (mode : string) (nominal n : Z) (interval : float) :
  returns (nominalLinesPerBurst mode) nominal →
  (Z.prime n → (nominal < n)%Z →
     burst_length nominal interval n = mret (Float.of_Z n / Float.of_Z 1 * interval)%float)
  ∧ ((nominal ≤ n)%Z →
     ∃ d, numberOfBursts nominal n = mret d
          ∧ largest_divisor_upto n (n / nominal) d
          ∧ burst_length nominal interval n
            = mret (Float.of_Z n / Float.of_Z d * interval)%float)
  ∧ ((n < nominal)%Z →
     burst_length nominal interval n = raise (ValueError "max() arg is an empty sequence"))
  ∧ outcome (burst_length nominal interval n)
    ≠ inl (ValueError "number of bursts cannot be determined.").
Proof.
  intros Hmode%nominalLinesPerBurst_values.
  assert (1 < nominal)%Z as Hnom by (destruct Hmode; lia).
  assert ((nominal ≤ n)%Z →
     ∃ d, numberOfBursts nominal n = mret d
          ∧ largest_divisor_upto n (n / nominal) d
          ∧ burst_length nominal interval n
            = mret (Float.of_Z n / Float.of_Z d * interval)%float) as Hgen.
  { intros Hle. destruct (numberOfBursts_largest_divisor nominal n) as (d & Hd & Hl); [lia|].
    exists d. split; [done|]. split; [done|]. destruct Hl as (? & ? & _).
    apply burst_length_divides; [done|done|lia]. }
  assert ((n < nominal)%Z →
     burst_length nominal interval n = raise (ValueError "max() arg is an empty sequence"))
    as Hlow.
  { intros Hlt. unfold burst_length. rewrite numberOfBursts_empty; [done|lia|done]. }
  split; [|split; [done|split; [done|]]].
  - intros Hp Hlt. apply burst_length_divides; [|apply Z.divide_1_l|lia].
    apply numberOfBursts_prime; [lia|done].
  - destruct (Z_lt_le_dec n nominal) as [Hlt|Hle].
    + rewrite (Hlow Hlt). discriminate.
    + destruct (Hgen Hle) as (d & _ & _ & ->). discriminate.
Qed.

Lemma C3_burst_length_witness :
  returns (nominalLinesPerBurst "IW") 1450%Z
  ∧ burst_length 1450 (1 / 1000) 1451 = mret (Float.of_Z 1451 / Float.of_Z 1 * (1 / 1000))%float
  ∧ burst_length 1450 (1 / 1000) 1000 = raise (ValueError "max() arg is an empty sequence").
Proof.
  assert (returns (nominalLinesPerBurst "IW") 1450%Z) as Hm by reflexivity.
  split; [exact Hm|]. split.
  - apply (C3_burst_length "IW" 1450 1451 (1 / 1000) Hm); [apply prime_1451|lia].
  - apply (C3_burst_length "IW" 1450 1000 (1 / 1000) Hm). lia.
Defined.

(** * Denoising coefficients (claims C4, C6, C7) *)



(** A loop whose iterations all return does return. *)
Lemma for_each_returns {A B} (l : list A) (f : B → A → M B) (acc : B) :
  (∀ acc0 x, x ∈ l → ∃ acc', returns (f acc0 x) acc') → ∃ out, returns (for_each l f acc) out.
Proof.
  revert acc. induction l as [|x l IH]; intros acc Hall; simpl.
  - exists acc. by apply returns_ret.
  - destruct (Hall acc x) as (acc' & Hx); [left|].
    destruct (IH acc') as (out & Hout); [intros ???; apply Hall; by right|].
    exists out. apply returns_bind. by exists acc'.
Qed.

(** the value read for a swath from an entry of the table, or the default *)
Definition table_value (entry : option (gmap string json)) (subswathID : string) (dflt : json)
    : json :=
  match entry with
  | Some e => default dflt (e !! subswathID)
  | None => dflt
  end.

Section Coefficient_facts.

Context {lib : Library} (params : gmap string (gmap string json)).

Lemma coefficients_step_returns (s : Sentinel1Image) (base_key : string) (version : float)
    (ns pb es nv : gmap string json) (iSW : nat) :
  returns (coefficients_step params s base_key version false (ns, pb, es, nv) iSW)
    (<[swath_name_of s iSW :=
         table_value (params !! coefficient_key base_key "NS" version)
                     (swath_name_of s iSW) (JNum 1)]> ns,
     <[swath_name_of s iSW :=
         table_value (params !! coefficient_key base_key "PB" version)
                     (swath_name_of s iSW) (JNum 0)]> pb,
     es, nv).
Proof.
  unfold coefficients_step, params_contains, params_getitem, subscript, returns.
  destruct (params !! coefficient_key base_key "NS" version) as [e1|] eqn:E1;
    destruct (params !! coefficient_key base_key "PB" version) as [e2|] eqn:E2;
    simpl; rewrite ?E1, ?E2; reflexivity.
Qed.



End Coefficient_facts.

Lemma ret_bind {A B} (x : A) (f : A → M B) : mret x ≫= f = f x.
Proof. rewrite bind_unfold. unfold mret, M_ret, trace, outcome. simpl. by destruct (f x). Qed.

Lemma getitem_Some {A} (l : list A) (i : nat) (x : A) : l !! i = Some x → getitem l i = mret x.
Proof. unfold getitem. by intros ->. Qed.

Lemma returns_functional {A} (m : M A) (x y : A) : returns m x → returns m y → x = y.
Proof. unfold returns. congruence. Qed.

Lemma string_app_assoc (a b c : string) : (a +:+ b) +:+ c = a +:+ b +:+ c.
Proof.
  induction a as [|x a IH]; [done|].
  change (String x ((a +:+ b) +:+ c) = String x (a +:+ b +:+ c)). by rewrite IH.
Qed.

(** the tokens of the product name that the lookup uses *)
Definition name_parts (s : Sentinel1Image) (platform mode resolution tok : string) : Prop :=
  let parts := split_on "_" (basename (filename s)) in
  parts !! 0%nat = Some platform ∧ parts !! 1%nat = Some mode
  ∧ parts !! 2%nat = Some resolution ∧ parts !! 4%nat = Some tok.

(** the key of the specification:
    [{platform}_{mode}_{resolution}_{pol}_{kind}_{IPF:.1f}] *)
Definition spec_key (platform mode resolution pol kind : string) (version : float) : string :=
  platform +:+ "_" +:+ mode +:+ "_" +:+ resolution +:+ "_" +:+ pol +:+ "_" +:+ kind +:+ "_"
  +:+ Float.format_f 1 version.

Lemma coefficient_key_spec (platform mode resolution pol kind : string) (version : float) :
  coefficient_key (platform +:+ "_" +:+ mode +:+ "_" +:+ resolution +:+ "_" +:+ pol) kind version
  = spec_key platform mode resolution pol kind version.
Proof. unfold coefficient_key, spec_key. by rewrite !string_app_assoc. Qed.

Section Import_facts.

Context {lib : Library} (params : gmap string (gmap string json)).

Lemma import_unfold (s : Sentinel1Image) (pol platform mode resolution tok : string)
    (d : datetime) (load : bool) :
  name_parts s platform mode resolution tok → strptime tok = inr d →
  import_denoisingCoefficients params s pol load
  = for_each (swath_ids s)
      (coefficients_step params s
         (platform +:+ "_" +:+ mode +:+ "_" +:+ resolution +:+ "_" +:+ pol)
         (lookup_IPFversion platform (IPFversion s) d) load)
      (∅, ∅, ∅, ∅).
Proof.
  intros (H0 & H1 & H2 & H4) Hd. unfold import_denoisingCoefficients.
  rewrite (getitem_Some _ _ _ H0), ret_bind, (getitem_Some _ _ _ H1), ret_bind.
  rewrite (getitem_Some _ _ _ H2), ret_bind, (getitem_Some _ _ _ H4), ret_bind.
  rewrite Hd. change (lift (inr d)) with (mret (M := M) d). by rewrite ret_bind.
Qed.

(** With [load_extra_scaling=False] the import returns. *)
Lemma import_returns (s : Sentinel1Image) (pol platform mode resolution tok : string)
    (d : datetime) :
  name_parts s platform mode resolution tok → strptime tok = inr d →
  ∃ c, returns (import_denoisingCoefficients params s pol false) c.
Proof.
  intros Hn Hd. rewrite (import_unfold _ _ _ _ _ _ _ _ Hn Hd).
  apply for_each_returns. intros [[[ns pb] es] nv] iSW _. eexists.
  apply coefficients_step_returns.
Qed.

(** What the import returns for every swath of the product. *)
Lemma import_values (s : Sentinel1Image) (pol platform mode resolution tok : string)
    (d : datetime) (ns pb es nv : gmap string json) (iSW : nat) :
  name_parts s platform mode resolution tok → strptime tok = inr d →
  returns (import_denoisingCoefficients params s pol false) (ns, pb, es, nv) →
  iSW ∈ swath_ids s →
  let version := lookup_IPFversion platform (IPFversion s) d in
  ns !! swath_name_of s iSW
  = Some (table_value (params !! spec_key platform mode resolution pol "NS" version)
                      (swath_name_of s iSW) (JNum 1))
  ∧ pb !! swath_name_of s iSW
    = Some (table_value (params !! spec_key platform mode resolution pol "PB" version)
                        (swath_name_of s iSW) (JNum 0)).
Proof.
  intros Hn Hd Hret Hin version. rewrite (import_unfold _ _ _ _ _ _ _ _ Hn Hd) in Hret.
  rewrite <- !coefficient_key_spec. fold version in Hret.
  set (base := platform +:+ "_" +:+ mode +:+ "_" +:+ resolution +:+ "_" +:+ pol) in *.
  set (sw := swath_name_of s iSW).
  set (vn := table_value (params !! coefficient_key base "NS" version) sw (JNum 1)).
  set (vp := table_value (params !! coefficient_key base "PB" version) sw (JNum 0)).
  pose (P := λ c : coefficients, c.1.1.1 !! sw = Some vn ∧ c.1.1.2 !! sw = Some vp).
  change (P (ns, pb, es, nv)).
  eapply (for_each_establish (λ _, True) P); [exact Hin|done|done| | |exact Hret].
  - intros [[[ns0 pb0] es0] nv0] acc' _ Hstep.
    rewrite (returns_functional _ _ _ Hstep (coefficients_step_returns _ _ _ _ _ _ _ _ _)).
    unfold P; simpl. by rewrite !lookup_insert_eq.
  - intros [[[ns0 pb0] es0] nv0] y acc' _ _ [Hns Hpb] Hstep.
    rewrite (returns_functional _ _ _ Hstep (coefficients_step_returns _ _ _ _ _ _ _ _ _)).
    unfold P in *; simpl in *.
    destruct (decide (swath_name_of s y = sw)) as [->|Hne].
    + by rewrite !lookup_insert_eq.
    + by rewrite !lookup_insert_ne.
Qed.


End Import_facts.

(** a coefficient table for the concrete runs: scaling and balancing entries
    of IPF 2.7 and 2.8 for S1B, and a total-gain entry for S1A *)
Definition demo_params : gmap string (gmap string json) :=
  {[ "S1B_IW_GRDH_VH_NS_2.8" := {[ "IW1" := JNum 1.5; "IW2" := JNum 1.25; "IW3" := JNum 1.125 ]};
     "S1B_IW_GRDH_VH_PB_2.8" := {[ "IW1" := JNum 0; "IW2" := JNum 0.25; "IW3" := JNum 0.5 ]};
     "S1B_IW_GRDH_VH_NS_2.7" := {[ "IW1" := JNum 9; "IW2" := JNum 9; "IW3" := JNum 9 ]};
     "S1B_IW_GRDH_VH_PB_2.7" := {[ "IW1" := JNum 7; "IW2" := JNum 7; "IW3" := JNum 7 ]};
     "S1A_IW_GRDH_1SDV_APG_2.90" :=
       {[ "B" := JList [1; 2; 3; 4; 5; 6; 7; 8; 9; 10]%float;
          "Y_SCALE" := JNum 2; "A_SCALE" := JNum 4 ]} ]}.


Lemma demo_name_parts_S1B (version : float) :
  name_parts (demo_image demo_name_S1B version) "S1B" "IW" "GRDH" "20170120T000000".
Proof. by vm_compute. Qed.



Lemma lookup_IPFversion_S1B (version : float) (d : datetime) :
  (version =? 2.72)%float = true → datetime_leb (Datetime 2017 1 16 13 42 34) d = true →
  lookup_IPFversion "S1B" version d = 2.8%float.
Proof. unfold lookup_IPFversion. by intros -> ->. Qed.

Lemma lookup_IPFversion_other (platform : string) (version : float) (d : datetime) :
  ¬ (platform = "S1B" ∧ (version =? 2.72)%float = true
     ∧ datetime_leb (Datetime 2017 1 16 13 42 34) d = true) →
  lookup_IPFversion platform version d = version.
Proof.
  unfold lookup_IPFversion. intros Hn.
  destruct (String.eqb platform "S1B") eqn:Hp; [|done].
  apply String.eqb_eq in Hp.
  destruct (version =? 2.72)%float; [|done].
  destruct (datetime_leb _ d); [|done]. by destruct Hn.
Qed.

Lemma spec_key_2_8 (platform mode resolution pol kind : string) :
  spec_key platform mode resolution pol kind 2.8
  = platform +:+ "_" +:+ mode +:+ "_" +:+ resolution +:+ "_" +:+ pol +:+ "_" +:+ kind +:+ "_2.8".
Proof.
  unfold spec_key. replace (Float.format_f 1 2.8) with "2.8" by (vm_compute; reflexivity).
  reflexivity.
Qed.

(** C6. For an S1B product with IPF version 2.72 sensed at or after
    2017-01-16 13:42:34 the scaling and balancing coefficients of every swath
    are read from the entries of IPF 2.8; for every other product they are read
    from the entries of its own IPF version. *)
Theorem C6_S1B_uses_IPF_2_8 {lib : Library} (params : gmap string (gmap string json))
    (s : Sentinel1Image) (pol platform mode resolution tok : string) (d : datetime)
    (ns pb es nv : gmap string json) (iSW : nat) :
  name_parts s platform mode resolution tok → strptime tok = inr d →
  returns (import_denoisingCoefficients params s pol false) (ns, pb, es, nv) →
  iSW ∈ swath_ids s →
  let sw := swath_name_of s iSW in
  let special := platform = "S1B" ∧ (IPFversion s =? 2.72)%float = true
                 ∧ datetime_leb (Datetime 2017 1 16 13 42 34) d = true in
  (special →
     ns !! sw = Some (table_value
                        (params !! (platform +:+ "_" +:+ mode +:+ "_" +:+ resolution +:+ "_"
                                    +:+ pol +:+ "_" +:+ "NS" +:+ "_2.8")) sw (JNum 1))
     ∧ pb !! sw = Some (table_value
                          (params !! (platform +:+ "_" +:+ mode +:+ "_" +:+ resolution +:+ "_"
                                      +:+ pol +:+ "_" +:+ "PB" +:+ "_2.8")) sw (JNum 0)))
  ∧ (¬ special →
     ns !! sw = Some (table_value
                        (params !! spec_key platform mode resolution pol "NS" (IPFversion s))
                        sw (JNum 1))
     ∧ pb !! sw = Some (table_value
                          (params !! spec_key platform mode resolution pol "PB" (IPFversion s))
                          sw (JNum 0))).
Proof.
  intros Hn Hd Hret Hin sw special.
  pose proof (import_values params s pol _ _ _ _ _ ns pb es nv iSW Hn Hd Hret Hin) as Hv.
  simpl in Hv. fold sw in Hv. split.
  - intros (-> & Hv272 & Hdate). rewrite (lookup_IPFversion_S1B _ _ Hv272 Hdate) in Hv.
    by rewrite !spec_key_2_8 in Hv.
  - intros Hns. by rewrite (lookup_IPFversion_other _ _ _ Hns) in Hv.
Qed.

Definition demo_name_S1B_early : string :=
  "S1B_IW_GRDH_1SDV_20170110T000000_20170110T000025_003800_006A00_ABCD.SAFE".

Lemma demo_name_parts_S1B_early (version : float) :
  name_parts (demo_image demo_name_S1B_early version) "S1B" "IW" "GRDH" "20170110T000000".
Proof. by vm_compute. Qed.

Lemma C6_S1B_uses_IPF_2_8_witness :
  (∃ ns pb es nv,
     returns (import_denoisingCoefficients (lib := demo_library) demo_params
                (demo_image demo_name_S1B 2.72) "VH" false) (ns, pb, es, nv)
     ∧ ns !! "IW1" = Some (JNum 1.5) ∧ pb !! "IW1" = Some (JNum 0))
  ∧ (∃ ns pb es nv,
       returns (import_denoisingCoefficients (lib := demo_library) demo_params
                  (demo_image demo_name_S1B_early 2.72) "VH" false) (ns, pb, es, nv)
       ∧ ns !! "IW1" = Some (JNum 9) ∧ pb !! "IW1" = Some (JNum 7)).
Proof.
  assert (∀ name, 1%nat ∈ swath_ids (demo_image name 2.72)) as H1
    by (intros name; simpl; set_solver).
  split.
  - destruct (import_returns (lib := demo_library) demo_params (demo_image demo_name_S1B 2.72)
                "VH" _ _ _ _ (Datetime 2017 1 20 0 0 0) (demo_name_parts_S1B 2.72) eq_refl)
      as ([[[ns pb] es] nv] & Hret).
    exists ns, pb, es, nv. split; [exact Hret|].
    exact (proj1 (C6_S1B_uses_IPF_2_8 (lib := demo_library) demo_params
                    (demo_image demo_name_S1B 2.72) "VH" "S1B" "IW" "GRDH" "20170120T000000"
                    (Datetime 2017 1 20 0 0 0) ns pb es nv 1%nat
                    (demo_name_parts_S1B 2.72) eq_refl Hret (H1 _))
                 (conj eq_refl (conj eq_refl eq_refl))).
  - destruct (import_returns (lib := demo_library) demo_params
                (demo_image demo_name_S1B_early 2.72)
                "VH" _ _ _ _ (Datetime 2017 1 10 0 0 0) (demo_name_parts_S1B_early 2.72) eq_refl)
      as ([[[ns pb] es] nv] & Hret).
    exists ns, pb, es, nv. split; [exact Hret|].
    refine (proj2 (C6_S1B_uses_IPF_2_8 (lib := demo_library) demo_params
                    (demo_image demo_name_S1B_early 2.72) "VH" "S1B" "IW" "GRDH"
                    "20170110T000000"
                    (Datetime 2017 1 10 0 0 0) ns pb es nv 1%nat
                    (demo_name_parts_S1B_early 2.72) eq_refl Hret (H1 _))
                 _).
    intros (_ & _ & Hdate). vm_compute in Hdate. discriminate.
Defined.

(** ** Keys of the coefficient table (claim C7) *)

Lemma trace_py_truediv (a b : float) (ev : event) : ev ∉ trace (py_truediv a b).
Proof. unfold py_truediv. destruct (b =? 0)%float; [apply trace_raise|apply trace_ret]. Qed.

Lemma trace_as_num (j : json) (ev : event) : ev ∉ trace (as_num j).
Proof. destruct j; [apply trace_ret|apply trace_raise]. Qed.

Lemma trace_as_list (j : json) (ev : event) : ev ∉ trace (as_list j).
Proof. destruct j; [apply trace_raise|apply trace_ret]. Qed.


(** Closes a goal with a hypothesis [H] that an event occurs in the trace of a
    computation emitting none. *)
Ltac no_event H :=
  lazymatch type of H with
  | _ ∈ trace (_ ≫= _) => apply trace_bind in H as [H|(? & _ & H)]; no_event H
  | _ ∈ trace (let '(_, _) := ?p in _) => destruct p; no_event H
  | _ ∈ trace (if ?b then _ else _) => destruct b; no_event H
  | _ =>
      exfalso; revert H;
      first [ apply trace_ret | apply trace_raise | apply trace_lift | apply trace_getitem
            | apply trace_subscript | apply trace_dict_get | apply trace_py_truediv
            | apply trace_as_num | apply trace_as_list ]
  end.









(** * Elevation antenna pattern (claim C8) *)

(** the samples read as interleaved (real, imaginary) pairs *)
Fixpoint pairs {A} (l : list A) : list (A * A) :=
  match l with
  | re :: im :: l' => (re, im) :: pairs l'
  | _ => []
  end.

Lemma stride2_pairs {A} (l : list A) :
  zip (stride2 (removelast l)) (stride2 (tail l)) = pairs l.
Proof.
  cut (zip (stride2 (removelast l)) (stride2 (tail l)) = pairs l
       ∧ ∀ x, zip (stride2 (removelast (x :: l))) (stride2 (tail (x :: l))) = pairs (x :: l)).
  { by intros [? _]. }
  induction l as [|y l [IH1 IH2]]; [done|]. split; [apply IH2|].
  intros x. destruct l as [|z l]; [done|].
  change (removelast (x :: y :: z :: l)) with (x :: y :: removelast (z :: l)).
  simpl tail. simpl stride2. simpl pairs. simpl zip. f_equal. exact IH1.
Qed.

Section EAP.

Context {lib : Library}.

(** the amplitude in the words of the specification *)
Definition spec_amplitude (a : AuxCalibrationParams) : list float :=
  let N := length (elevationAntennaPattern a) in
  if bool_decide (elevationAntennaPatternCount a = Z.of_nat N) then
    (λ x, np_power 10 (x / 10)) <$> elevationAntennaPattern a
  else
    (λ p, PrimFloat.sqrt (p.1 * p.1 + p.2 * p.2)) <$> pairs (elevationAntennaPattern a).

(** the angle axis in the words of the specification: [(i - N/2) * increment]
    with [N] the number of stored samples (the division read as the integer
    one), on as many points as the amplitude has *)
Definition spec_angle_axis (a : AuxCalibrationParams) : list float :=
  let N := Z.of_nat (length (elevationAntennaPattern a)) in
  (λ i, Float.of_Z (Z.of_nat i - N / 2) * elevationAngleIncrement a)%float
    <$> seq 0 (length (spec_amplitude a)).

(** the angle axis of the code: [(i - count//2) * increment] for
    [i = 0 .. 2 * (count//2)], with [count] the annotated count *)
Definition count_angle_axis (a : AuxCalibrationParams) : list float :=
  let c := elevationAntennaPatternCount a in
  (λ i, Float.of_Z (Z.of_nat i - c / 2) * elevationAngleIncrement a)%float
    <$> seq 0 (Z.to_nat (2 * (c / 2) + 1)).

Lemma eap_amplitudeLUT_spec (a : AuxCalibrationParams) : eap_amplitudeLUT a = spec_amplitude a.
Proof.
  unfold eap_amplitudeLUT, spec_amplitude.
  destruct (Z.eqb_spec (elevationAntennaPatternCount a)
              (Z.of_nat (length (elevationAntennaPattern a)))) as [Heq|Hne].
  - by rewrite bool_decide_eq_true_2.
  - rewrite bool_decide_eq_false_2 by done.
    rewrite zip_with_zip, stride2_pairs. apply list_fmap_ext. by intros _ [re im] _.
Qed.

Lemma eap_angleLUT_count (a : AuxCalibrationParams) : eap_angleLUT a = count_angle_axis a.
Proof.
  unfold eap_angleLUT, count_angle_axis, arangeZ.
  replace (elevationAntennaPatternCount a / 2 + 1 - - (elevationAntennaPatternCount a / 2))%Z
    with (2 * (elevationAntennaPatternCount a / 2) + 1)%Z by lia.
  rewrite <- list_fmap_compose. apply list_fmap_ext. intros _ i _. simpl.
  do 2 f_equal. lia.
Qed.

Lemma length_count_angle_axis (a : AuxCalibrationParams) :
  length (count_angle_axis a) = Z.to_nat (2 * (elevationAntennaPatternCount a / 2) + 1).
Proof. unfold count_angle_axis. by rewrite length_fmap, length_seq. Qed.

Lemma length_spec_amplitude_dB (a : AuxCalibrationParams) :
  elevationAntennaPatternCount a = Z.of_nat (length (elevationAntennaPattern a)) →
  length (spec_amplitude a) = length (elevationAntennaPattern a).
Proof.
  intros Heq. unfold spec_amplitude. rewrite bool_decide_eq_true_2 by done.
  by rewrite length_fmap.
Qed.

(** C8, amended. The interpolator is the degree-3 spline of the square root of
    the amplitude against the angle axis; the amplitude is [10^(x/10)] per
    sample when the count equals the number of samples and
    [sqrt(re^2 + im^2)] per interleaved pair otherwise; the angle axis is
    [(i - count//2) * increment] on [2 * (count//2) + 1] points, where [count]
    is the annotated count. With the count equal to the number [N] of samples
    and odd, this is the axis [(i - N/2) * increment] on as many points as the
    amplitude has; with an even count it has one point more than the
    amplitude. *)
Theorem C8_eap_interpolator (s : Sentinel1Image) (subswathID pol : string)
    (a : AuxCalibrationParams) :
  aux_params s pol subswathID = mret a →
  let c := elevationAntennaPatternCount a in
  let N := Z.of_nat (length (elevationAntennaPattern a)) in
  get_eap_interpolator s subswathID pol
  = lift (InterpolatedUnivariateSpline (count_angle_axis a)
            (PrimFloat.sqrt <$> spec_amplitude a) 3)
  ∧ length (count_angle_axis a) = Z.to_nat (2 * (c / 2) + 1)
  ∧ (c = N → Z.odd c = true →
       count_angle_axis a = spec_angle_axis a
       ∧ length (count_angle_axis a) = length (spec_amplitude a))
  ∧ (c = N → Z.even c = true →
       length (count_angle_axis a) = S (length (spec_amplitude a))).
Proof.
  intros Ha c N. split; [|split; [apply length_count_angle_axis|split]].
  - unfold get_eap_interpolator. rewrite Ha, ret_bind.
    by rewrite eap_angleLUT_count, eap_amplitudeLUT_spec.
  - intros Hc Hodd.
    assert (Z.to_nat (2 * (c / 2) + 1) = length (elevationAntennaPattern a)) as Hlen.
    { rewrite (Zdiv2_odd_eqn c), Hodd in Hc. rewrite <- Z.div2_div. subst N. lia. }
    unfold spec_angle_axis, count_angle_axis.
    rewrite (length_spec_amplitude_dB a Hc). fold c N. rewrite Hlen, Hc.
    split; [done|]. by rewrite length_fmap, length_seq.
  - intros Hc Heven. rewrite length_count_angle_axis, (length_spec_amplitude_dB a Hc).
    fold c. rewrite (Zdiv2_odd_eqn c), <- Z.negb_even, Heven in Hc. simpl in Hc.
    rewrite <- Z.div2_div. subst N. lia.
Qed.

End EAP.

Lemma C8_eap_interpolator_witness :
  aux_params (demo_image demo_name_S1A 2.9) "VH" "IW1" = mret demo_aux
  ∧ get_eap_interpolator (lib := demo_library) (demo_image demo_name_S1A 2.9) "IW1" "VH"
    = lift (first_sample_spline [-1; -0.5; 0; 0.5; 1]%float
              (PrimFloat.sqrt <$> [10; 10; 10; 10; 10]%float) 3).
Proof.
  assert (aux_params (demo_image demo_name_S1A 2.9) "VH" "IW1" = mret demo_aux) as Ha
    by (vm_compute; reflexivity).
  split; [exact Ha|].
  exact (proj1 (C8_eap_interpolator (lib := demo_library) (demo_image demo_name_S1A 2.9)
                  "IW1" "VH" demo_aux Ha)).
Defined.

(** samples stored as three complex pairs, and four samples in dB *)
Definition complex_aux : AuxCalibrationParams := {|
  elevationAntennaPattern := [3; 4; 6; 8; 5; 12]%float;
  elevationAntennaPatternCount := 3;
  elevationAngleIncrement := 0.5%float |}.
Definition even_dB_aux : AuxCalibrationParams := {|
  elevationAntennaPattern := [0; 0; 0; 0]%float;
  elevationAntennaPatternCount := 4;
  elevationAngleIncrement := 0.5%float |}.

(** C8, as stated, fails. With three complex pairs (N = 6 samples, count 3) the
    angle axis of the code is centred with the count, not with N/2; with four
    samples in dB the axis has five points for four amplitudes. *)
Lemma C8_angle_axis_counterexample :
  eap_amplitudeLUT (lib := demo_library) complex_aux = [5; 10; 13]%float
  ∧ eap_angleLUT complex_aux = [-0.5; 0; 0.5]%float
  ∧ spec_angle_axis (lib := demo_library) complex_aux = [-1.5; -1; -0.5]%float
  ∧ eap_angleLUT complex_aux ≠ spec_angle_axis (lib := demo_library) complex_aux
  ∧ length (eap_angleLUT even_dB_aux) = 5%nat
  ∧ length (eap_amplitudeLUT (lib := demo_library) even_dB_aux) = 4%nat.
Proof.
  repeat split; try (vm_compute; reflexivity).
  intros Heq. vm_compute in Heq. discriminate.
Qed.

(** * Texture noise removal and the stored IPF version (claim C9) *)

(** C9, as stated, fails: on a product with IPF version 3.2 the call returns a
    raster and leaves 3.1 as the stored version, which a later operation on the
    object (here the key of the total-gain lookup) observes. *)
Lemma C9_IPF_version_counterexample :
  let s := demo_image demo_name_S1A 3.2 in
  let '(s', result) :=
    remove_texture_noise (lib := demo_library) demo_params s "VH" 3 0.1 0 true "ESA" 0 in
  (∃ sigma0, returns result sigma0)
  ∧ IPFversion s = 3.2%float ∧ IPFversion s' = 3.1%float ∧ IPFversion s' ≠ IPFversion s
  ∧ apg_key s = "S1A_IW_GRDH_1SDV_APG_3.20" ∧ apg_key s' = "S1A_IW_GRDH_1SDV_APG_3.10".
Proof.
  vm_compute. split; [eexists; reflexivity|]. repeat split. discriminate.
Qed.

(** C9, amended. [remove_texture_noise] stores 3.1 as the IPF version of a
    product whose version is 3.2, and the object keeps it after the call; the
    version of any other product and every other field of the object are
    unchanged. *)
Theorem C9_texture_noise_stored_version {lib : Library}
    (params : gmap string (gmap string json)) (s : Sentinel1Image) (pol : string)
    (window weight s0_min : float) (remove_negative : bool) (algorithm : string) (min_dn : Z) :
  let s' := (remove_texture_noise params s pol window weight s0_min remove_negative
               algorithm min_dn).1 in
  IPFversion s' = (if (IPFversion s =? 3.2)%float then 3.1%float else IPFversion s)
  ∧ s' = set_IPFversion (IPFversion s') s
  ∧ filename s' = filename s ∧ obsMode s' = obsMode s ∧ crosspol s' = crosspol s
  ∧ pols s' = pols s ∧ swath_ids s' = swath_ids s ∧ xml s' = xml s
  ∧ measurements s' = measurements s
  ∧ aux_calibration_params s' = aux_calibration_params s.
Proof.
  unfold remove_texture_noise. simpl.
  destruct (IPFversion s =? 3.2)%float; simpl; [done|]. by destruct s.
Qed.

(** * Index arrays *)

(** the value of a list of vectors at vector [i], position [k] *)
Definition cell {A} (a : list (list A)) (i k : nat) : option A := a !! i ≫= (.!! k).

Lemma elem_of_np_where {A} (P : A → bool) (l : list A) (k : nat) :
  k ∈ np_where P l ↔ ∃ x, l !! k = Some x ∧ P x = true.
Proof.
  unfold np_where. rewrite list_elem_of_fmap. split.
  - intros ([i x] & -> & [HP Hin]%list_elem_of_filter).
    apply elem_of_lookup_imap in Hin as (j & y & [= -> ->] & Hl). by exists y.
  - intros (x & Hl & HP). exists (k, x). split; [done|].
    apply list_elem_of_filter. split; [done|]. apply elem_of_lookup_imap. by exists k, x.
Qed.

Lemma elem_of_valid_pixels (b : block) (pix : list nat) (z : list float) (k : nat) :
  k ∈ valid_pixels b pix z
  ↔ ∃ p x, pix !! k = Some p ∧ z !! k = Some x
           ∧ pixel_in b p = true ∧ Float.isfinite x = true.
Proof.
  unfold valid_pixels. rewrite elem_of_np_where. split.
  - intros ([p x] & [Hp Hx]%lookup_zip_Some & [? ?]%andb_true_iff). by exists p, x.
  - intros (p & x & Hp & Hx & ? & ?). exists (p, x).
    split; [by apply lookup_zip_Some|]. by apply andb_true_iff.
Qed.

Lemma take_indices_loop {A} (a : list A) (idx : list nat) (acc out : list A) :
  returns (for_each idx (λ acc i, x ← getitem a i; mret (acc ++ [x])) acc) out →
  ∃ xs, out = acc ++ xs ∧ Forall2 (λ i x, a !! i = Some x) idx xs.
Proof.
  revert acc. induction idx as [|i idx IH]; intros acc; simpl.
  - intros <-%returns_ret. exists []. by rewrite app_nil_r.
  - intros (acc' & (x & Hx%returns_getitem & <-%returns_ret)%returns_bind & Hrest)%returns_bind.
    destruct (IH _ Hrest) as (xs & -> & Hall). exists (x :: xs).
    split; [by rewrite <- app_assoc|by constructor].
Qed.

Lemma returns_take_indices {A} (a : list A) (idx : list nat) (xs : list A) :
  returns (take_indices a idx) xs → Forall2 (λ i x, a !! i = Some x) idx xs.
Proof. intros (ys & -> & H)%take_indices_loop. done. Qed.

Lemma trace_take_indices {A} (a : list A) (idx : list nat) (ev : event) :
  ev ∉ trace (take_indices a idx).
Proof.
  unfold take_indices. intros (i & acc & _ & H)%trace_for_each. no_event H.
Qed.

Lemma take_indices_elem_of {A} (a : list A) (idx : list nat) (xs : list A) (x : A) :
  returns (take_indices a idx) xs → x ∈ xs → x ∈ a.
Proof.
  intros H%returns_take_indices Hx. apply list_elem_of_lookup in Hx as (j & Hj).
  destruct (Forall2_lookup_r _ _ _ _ _ H Hj) as (i & _ & Hi). by eapply list_elem_of_lookup_2.
Qed.

(** Positions outside the index array keep their value. *)
Lemma put_indices_frame {A} (row : list A) (idx : list nat) (vals : list A) (k : nat) :
  k ∉ idx → put_indices row idx vals !! k = row !! k.
Proof.
  unfold put_indices. revert row vals.
  induction idx as [|i idx IH]; intros row vals Hk; [done|].
  destruct vals as [|v vals]; [done|]. simpl.
  rewrite IH by (intros ?; apply Hk; by right).
  apply list_lookup_insert_ne. intros ->. apply Hk. by left.
Qed.

Lemma length_put_indices {A} (row : list A) (idx : list nat) (vals : list A) :
  length (put_indices row idx vals) = length row.
Proof.
  unfold put_indices. revert row vals. induction idx as [|i idx IH]; intros row vals; [done|].
  destruct vals as [|v vals]; [done|]. simpl. by rewrite IH, length_insert.
Qed.

(** Writing at every index the value that [g] has there leaves [g] at the
    written positions. *)
Lemma put_indices_lookup {A} (g row : list A) (idx : list nat) (vals : list A) (k : nat) :
  Forall2 (λ i v, g !! i = Some v) idx vals → k ∈ idx → (k < length row)%nat →
  put_indices row idx vals !! k = g !! k.
Proof.
  intros Hall. revert row.
  induction Hall as [|i v idx vals Hv Hall IH]; intros row Hk Hlen; [by apply elem_of_nil in Hk|].
  change (put_indices row (i :: idx) (v :: vals)) with (put_indices (<[i:=v]> row) idx vals).
  destruct (decide (k ∈ idx)) as [Hin|Hnin].
  - apply IH; [done|by rewrite length_insert].
  - apply elem_of_cons in Hk as [->|?]; [|done].
    rewrite (put_indices_frame (<[i:=v]> row) idx vals i Hnin).
    by rewrite list_lookup_insert_eq.
Qed.

(** * Shifted noise vectors (claims C5 and C10) *)

Lemma returns_same_length {A B} (a : list A) (b : list B) (u : unit) :
  returns (same_length a b) u → length a = length b.
Proof.
  unfold same_length. destruct (Nat.eqb_spec (length a) (length b)); [done|].
  by intros ?%returns_raise.
Qed.

Lemma trace_same_length {A B} (a : list A) (b : list B) (ev : event) :
  ev ∉ trace (same_length a b).
Proof. unfold same_length. destruct (_ =? _)%nat; [apply trace_ret|apply trace_raise]. Qed.

Lemma written_pixels_valid (b : block) (pix : list nat) (nz : list float) (w : list nat)
    (k : nat) :
  returns (written_pixels b pix nz) w → k ∈ w → k ∈ valid_pixels b pix nz.
Proof.
  unfold written_pixels. intros (vp & _ & Hw)%returns_bind Hk.
  by eapply take_indices_elem_of.
Qed.

Lemma trace_written_pixels (b : block) (pix : list nat) (nz : list float) (ev : event) :
  ev ∉ trace (written_pixels b pix nz).
Proof.
  unfold written_pixels. intros [H|(vp & _ & H)]%trace_bind; by apply trace_take_indices in H.
Qed.

Section Shift_facts.

Context {lib : Library}.
Context (swath_name : string) (b : block) (eap : float → float) (ba rsp : float → float → float).
Context (line : list nat) (pixel : list (list nat)) (noise : list (list float)).
Context (skip min_valid_size : nat).

Abbreviation step := (shift_vector swath_name b eap ba rsp line pixel noise skip min_valid_size).

(** What one iteration does when it returns: nothing below [min_valid_size]
    valid pixels; otherwise it writes the row of the vector at the written
    pixels, with the input values when they are all close to the first. *)
Lemma shift_vector_inv (noise_shifted noise_shifted' : list (list float)) (v1 : nat) :
  returns (step noise_shifted v1) noise_shifted' →
  ∃ l pix nz,
    line !! v1 = Some l ∧ pixel !! v1 = Some pix ∧ noise !! v1 = Some nz
    ∧ ((length (valid_pixels b pix nz) < min_valid_size)%nat ∧ noise_shifted' = noise_shifted
       ∨ (min_valid_size ≤ length (valid_pixels b pix nz))%nat
         ∧ ∃ w vals first row out_vals,
             returns (written_pixels b pix nz) w ∧ returns (take_indices nz w) vals
             ∧ vals !! 0%nat = Some first ∧ noise_shifted !! v1 = Some row
             ∧ noise_shifted' = <[v1 := put_indices row w out_vals]> noise_shifted
             ∧ (allclose vals first = true → out_vals = vals)).
Proof.
  unfold shift_vector.
  intros (l & Hl%returns_getitem & H)%returns_bind.
  apply returns_bind in H as (pix & Hpix%returns_getitem & H).
  apply returns_bind in H as (nz & Hnz%returns_getitem & H).
  apply returns_bind in H as (u & _ & H).
  exists l, pix, nz. split; [done|]. split; [done|]. split; [done|].
  destruct (Nat.leb_spec min_valid_size (length (valid_pixels b pix nz))) as [Hge|Hlt].
  - right. split; [done|].
    apply returns_bind in H as (vp & _ & H).
    apply returns_bind in H as (w & Hw & H).
    apply returns_bind in H as (vals & Hvals & H).
    apply returns_bind in H as (first & Hfirst%returns_getitem & H).
    apply returns_bind in H as (row & Hrow%returns_getitem & H).
    destruct (allclose vals first) eqn:Hclose.
    + apply returns_ret in H as <-. exists w, vals, first, row, vals. by repeat split.
    + apply returns_bind in H as (f & _ & H).
      apply returns_bind in H as (u' & _ & <-%returns_ret).
      eexists w, vals, first, row, _. repeat split; try done. congruence.
  - left. split; [lia|]. by apply returns_ret in H as <-.
Qed.

(** An iteration changes only written pixels of its own vector, and only with
    at least [min_valid_size] valid pixels. *)
Lemma shift_vector_frame (noise_shifted noise_shifted' : list (list float)) (v1' v1 k : nat) :
  returns (step noise_shifted v1') noise_shifted' →
  ¬ (v1 = v1' ∧ ∃ pix nz, pixel !! v1' = Some pix ∧ noise !! v1' = Some nz
                          ∧ (min_valid_size ≤ length (valid_pixels b pix nz))%nat
                          ∧ k ∈ valid_pixels b pix nz) →
  cell noise_shifted' v1 k = cell noise_shifted v1 k.
Proof.
  intros (l & pix & nz & Hl & Hpix & Hnz & [[_ ->]|[Hge H]])%shift_vector_inv Hnot; [done|].
  destruct H as (w & vals & first & row & out_vals & Hw & _ & _ & Hrow & -> & _).
  unfold cell. destruct (decide (v1 = v1')) as [->|Hne].
  - rewrite list_lookup_insert_eq by (by eapply lookup_lt_Some). rewrite Hrow. simpl.
    apply put_indices_frame. intros Hk. apply Hnot. split; [done|].
    exists pix, nz. repeat split; [done|done|done|]. by eapply written_pixels_valid.
  - by rewrite list_lookup_insert_ne.
Qed.

(** With all valid values close to the first, an iteration leaves the input
    noise at the written pixels. *)
Lemma shift_vector_constant (noise_shifted noise_shifted' : list (list float)) (v1 k : nat)
    (pix : list nat) (nz : list float) (w : list nat) (vals : list float) (first : float) :
  returns (step noise_shifted v1) noise_shifted' →
  pixel !! v1 = Some pix → noise !! v1 = Some nz →
  (min_valid_size ≤ length (valid_pixels b pix nz))%nat →
  returns (written_pixels b pix nz) w → returns (take_indices nz w) vals →
  vals !! 0%nat = Some first → allclose vals first = true →
  length <$> noise_shifted = length <$> pixel →
  k ∈ w → cell noise_shifted' v1 k = nz !! k.
Proof.
  intros (l & pix' & nz' & Hl & Hpix & Hnz & H)%shift_vector_inv Hpix' Hnz' Hge Hw Hvals
         Hfirst Hclose Hshape Hk.
  rewrite Hpix in Hpix'. rewrite Hnz in Hnz'. injection Hpix' as ->. injection Hnz' as ->.
  destruct H as [[Hlt _]|[_ H]]; [lia|].
  destruct H as (w' & vals' & first' & row & out_vals & Hw' & Hvals' & Hfirst' & Hrow & -> & Hout).
  rewrite (returns_functional _ _ _ Hw' Hw) in *.
  rewrite (returns_functional _ _ _ Hvals' Hvals) in *.
  rewrite Hfirst in Hfirst'. injection Hfirst' as <-. rewrite (Hout Hclose).
  unfold cell. rewrite list_lookup_insert_eq by (by eapply lookup_lt_Some). simpl.
  apply put_indices_lookup; [by apply returns_take_indices|done|].
  assert (length row = length pix) as ->.
  { apply (f_equal (.!! v1)) in Hshape. rewrite !list_lookup_fmap, Hrow, Hpix in Hshape.
    by injection Hshape. }
  apply (written_pixels_valid _ _ _ _ _ Hw) in Hk.
  apply elem_of_valid_pixels in Hk as (p & x & Hp%lookup_lt_Some & _). done.
Qed.

(** The optimizer is called only when the valid values are not all close to
    the first. *)
Lemma shift_vector_minimize (noise_shifted : list (list float)) (v1 : nat)
    (sw' : string) (b' : block) (v' : nat) :
  Minimize sw' b' v' ∈ trace (step noise_shifted v1) →
  b' = b ∧ v' = v1
  ∧ ∃ pix nz w vals first,
      pixel !! v1 = Some pix ∧ noise !! v1 = Some nz
      ∧ returns (written_pixels b pix nz) w ∧ returns (take_indices nz w) vals
      ∧ vals !! 0%nat = Some first ∧ allclose vals first = false.
Proof.
  unfold shift_vector. intros H.
  apply trace_bind in H as [H|(l & _ & H)]; [by apply trace_getitem in H|].
  apply trace_bind in H as [H|(pix & Hpix%returns_getitem & H)]; [by apply trace_getitem in H|].
  apply trace_bind in H as [H|(nz & Hnz%returns_getitem & H)]; [by apply trace_getitem in H|].
  apply trace_bind in H as [H|(u & _ & H)]; [by apply trace_same_length in H|].
  destruct (min_valid_size <=? length (valid_pixels b pix nz))%nat; [|by apply trace_ret in H].
  apply trace_bind in H as [H|(vp & _ & H)]; [by apply trace_take_indices in H|].
  apply trace_bind in H as [H|(w & Hw & H)]; [by apply trace_written_pixels in H|].
  apply trace_bind in H as [H|(vals & Hvals & H)]; [by apply trace_take_indices in H|].
  apply trace_bind in H as [H|(first & Hfirst%returns_getitem & H)];
    [by apply trace_getitem in H|].
  apply trace_bind in H as [H|(row & _ & H)]; [by apply trace_getitem in H|].
  destruct (allclose vals first) eqn:Hclose; [by apply trace_ret in H|].
  apply trace_bind in H as [H|(f & _ & H)]; [by apply trace_lift in H|].
  apply trace_bind in H as [H|(u' & _ & H)]; [|by apply trace_ret in H].
  unfold emit, trace in H. simpl in H. apply list_elem_of_singleton in H as [= -> -> ->].
  split; [done|]. split; [done|]. by exists pix, nz, w, vals, first.
Qed.

(** An iteration keeps the shape of the vectors. *)
Lemma shift_vector_shape (noise_shifted noise_shifted' : list (list float)) (v1 : nat) :
  returns (step noise_shifted v1) noise_shifted' →
  length <$> noise_shifted' = length <$> noise_shifted.
Proof.
  intros (l & pix & nz & _ & _ & _ & [[_ ->]|[_ H]])%shift_vector_inv; [done|].
  destruct H as (w & vals & first & row & out_vals & _ & _ & _ & Hrow & -> & _).
  rewrite list_fmap_insert, length_put_indices.
  apply list_insert_id. by rewrite list_lookup_fmap, Hrow.
Qed.

End Shift_facts.

Section Shift_loops.

Context {lib : Library}.
Context (s : Sentinel1Image) (pol : string) (d : PolData).
Context (pixel : list (list nat)) (noise : list (list float)).
Context (skip min_valid_size : nat) (rsl_power : float).

Abbreviation line := (nr_line (noise_range d)).
Abbreviation zeros := ((λ p : list nat, replicate (length p) 0%float) <$> pixel).

(** the loop over the blocks of one swath and over the vectors of each block *)
Definition blocks_loop (swath_name : string) (eap : float → float)
    (ba rsp : float → float → float) (swathBound : list block)
    (noise_shifted : list (list float)) : M (list (list float)) :=
  for_each swathBound
    (λ noise_shifted b,
       for_each (np_where (line_in b) line)
         (shift_vector swath_name b eap ba rsp line pixel noise skip min_valid_size)
         noise_shifted)
    noise_shifted.

(** the iterations of the method: a swath of the product, a block of its
    bounds and a noise vector whose line is in the block *)
Definition iteration (swid : nat) (b : block) (v1 : nat) : Prop :=
  swid ∈ swath_ids s
  ∧ (∃ bounds, returns (dict_get (swath_bounds d) (swath_name_of s swid)) bounds ∧ b ∈ bounds)
  ∧ v1 ∈ np_where (line_in b) line.

Lemma shifted_unfold (Hd : xml s !! pol = Some d) :
  get_shifted_noise_vectors_with s pol pixel noise skip min_valid_size rsl_power
  = for_each (swath_ids s)
      (λ noise_shifted swid,
         let swath_name := swath_name_of s swid in
         swathBound ← dict_get (swath_bounds d) swath_name;
         eap ← get_eap_interpolator s swath_name pol;
         ba ← lift (get_boresight_angle_interpolator s pol);
         rsp ← lift (get_range_spread_loss_interpolator s pol rsl_power);
         blocks_loop swath_name eap ba rsp swathBound noise_shifted)
      zeros.
Proof.
  unfold get_shifted_noise_vectors_with, subscript. rewrite Hd. by rewrite ret_bind.
Qed.

Lemma blocks_loop_invariant (I : list (list float) → Prop) (swid : nat)
    (eap : float → float) (ba rsp : float → float → float) (bounds : list block)
    (acc out : list (list float)) :
  swid ∈ swath_ids s → returns (dict_get (swath_bounds d) (swath_name_of s swid)) bounds →
  (∀ swid b v1 eap ba rsp acc acc',
     iteration swid b v1 → I acc →
     returns (shift_vector (swath_name_of s swid) b eap ba rsp line pixel noise skip
                min_valid_size acc v1) acc' → I acc') →
  I acc → returns (blocks_loop (swath_name_of s swid) eap ba rsp bounds acc) out → I out.
Proof.
  intros Hswid Hbounds Hstep HI Hret.
  eapply (for_each_invariant I); [|exact HI|exact Hret].
  intros acc1 b acc1' Hb HI1 Hret1. cbv beta in Hret1.
  eapply (for_each_invariant I); [|exact HI1|exact Hret1].
  intros acc2 v1 acc2' Hv HI2 Hret2. eapply Hstep; [|exact HI2|exact Hret2].
  split; [done|]. split; [by exists bounds|done].
Qed.

(** An invariant of the iterations holds of the result. *)
Lemma shifted_invariant (I : list (list float) → Prop) (out : list (list float)) :
  xml s !! pol = Some d →
  returns (get_shifted_noise_vectors_with s pol pixel noise skip min_valid_size rsl_power) out →
  I zeros →
  (∀ swid b v1 eap ba rsp acc acc',
     iteration swid b v1 → I acc →
     returns (shift_vector (swath_name_of s swid) b eap ba rsp line pixel noise skip
                min_valid_size acc v1) acc' → I acc') →
  I out.
Proof.
  intros Hd Hret H0 Hstep. rewrite (shifted_unfold Hd) in Hret.
  eapply (for_each_invariant I); [|exact H0|exact Hret].
  intros acc swid acc' Hswid HI Hbody. cbv beta zeta in Hbody.
  apply returns_bind in Hbody as (bounds & Hbounds & Hbody).
  apply returns_bind in Hbody as (eap & _ & Hbody).
  apply returns_bind in Hbody as (ba & _ & Hbody).
  apply returns_bind in Hbody as (rsp & _ & Hbody).
  by eapply blocks_loop_invariant.
Qed.

(** A property established by one iteration under the invariant [I] and kept
    by every iteration holds of the result. *)
Lemma shifted_establish (I P : list (list float) → Prop) (out : list (list float))
    (swid0 : nat) (b0 : block) (v0 : nat) :
  xml s !! pol = Some d →
  returns (get_shifted_noise_vectors_with s pol pixel noise skip min_valid_size rsl_power) out →
  iteration swid0 b0 v0 →
  I zeros →
  (∀ swid b v1 eap ba rsp acc acc',
     iteration swid b v1 → I acc →
     returns (shift_vector (swath_name_of s swid) b eap ba rsp line pixel noise skip
                min_valid_size acc v1) acc' → I acc') →
  (∀ eap ba rsp acc acc',
     I acc →
     returns (shift_vector (swath_name_of s swid0) b0 eap ba rsp line pixel noise skip
                min_valid_size acc v0) acc' → P acc') →
  (∀ swid b v1 eap ba rsp acc acc',
     iteration swid b v1 → I acc → P acc →
     returns (shift_vector (swath_name_of s swid) b eap ba rsp line pixel noise skip
                min_valid_size acc v1) acc' → P acc') →
  P out.
Proof.
  intros Hd Hret (Hswid0 & (bounds0 & Hbounds0 & Hb0) & Hv0) H0 Hinv Hest Hkeep.
  rewrite (shifted_unfold Hd) in Hret.
  assert (∀ swid b v1 eap ba rsp acc acc',
     iteration swid b v1 → I acc ∧ P acc →
     returns (shift_vector (swath_name_of s swid) b eap ba rsp line pixel noise skip
                min_valid_size acc v1) acc' → I acc' ∧ P acc') as Hboth.
  { intros ???????? Hit [??] Hstep. split; [by eapply Hinv|by eapply Hkeep]. }
  eapply (for_each_establish I P); [exact Hswid0|exact H0| | | |exact Hret].
  - intros acc swid acc' Hswid HI Hbody. cbv beta zeta in Hbody.
    apply returns_bind in Hbody as (bounds & Hbounds & Hbody).
    apply returns_bind in Hbody as (eap & _ & Hbody).
    apply returns_bind in Hbody as (ba & _ & Hbody).
    apply returns_bind in Hbody as (rsp & _ & Hbody).
    by eapply blocks_loop_invariant.
  - intros acc acc' HI Hbody. cbv beta zeta in Hbody.
    apply returns_bind in Hbody as (bounds & Hbounds & Hbody).
    rewrite (returns_functional _ _ _ Hbounds Hbounds0) in Hbody.
    apply returns_bind in Hbody as (eap & _ & Hbody).
    apply returns_bind in Hbody as (ba & _ & Hbody).
    apply returns_bind in Hbody as (rsp & _ & Hbody).
    eapply (for_each_establish I P); [exact Hb0|exact HI| | | |exact Hbody].
    + intros acc1 b acc1' Hb HI1 Hret1. cbv beta in Hret1.
      eapply (for_each_invariant I); [|exact HI1|exact Hret1].
      intros acc2 v1 acc2' Hv HI2 Hret2. eapply Hinv; [|exact HI2|exact Hret2].
      split; [done|]. split; [by exists bounds0|done].
    + intros acc1 acc1' HI1 Hret1. cbv beta in Hret1.
      eapply (for_each_establish I P); [exact Hv0|exact HI1| | | |exact Hret1].
      * intros acc2 v1 acc2' Hv HI2 Hret2. eapply Hinv; [|exact HI2|exact Hret2].
        split; [done|]. split; [by exists bounds0|done].
      * intros acc2 acc2' HI2 Hret2. by eapply Hest.
      * intros acc2 v1 acc2' Hv HI2 HP2 Hret2. eapply Hkeep; [|exact HI2|exact HP2|exact Hret2].
        split; [done|]. split; [by exists bounds0|done].
    + intros acc1 b acc1' Hb HI1 HP1 Hret1. cbv beta in Hret1.
      assert (I acc1' ∧ P acc1') as [_ ?]; [|done].
      eapply (for_each_invariant (λ c, I c ∧ P c)); [|split; [exact HI1|exact HP1]|exact Hret1].
      intros acc2 v1 acc2' Hv HIP Hret2. eapply Hboth; [|exact HIP|exact Hret2].
      split; [done|]. split; [by exists bounds0|done].
  - intros acc swid acc' Hswid HI HP Hbody. cbv beta zeta in Hbody.
    apply returns_bind in Hbody as (bounds & Hbounds & Hbody).
    apply returns_bind in Hbody as (eap & _ & Hbody).
    apply returns_bind in Hbody as (ba & _ & Hbody).
    apply returns_bind in Hbody as (rsp & _ & Hbody).
    assert (I acc' ∧ P acc') as [_ ?]; [|done].
    eapply (blocks_loop_invariant (λ c, I c ∧ P c)); [exact Hswid|exact Hbounds| | |exact Hbody].
    + exact Hboth.
    + by split.
Qed.

(** Every call of the optimizer is made by an iteration. *)
Lemma shifted_minimize (sw' : string) (b' : block) (v' : nat) :
  xml s !! pol = Some d →
  Minimize sw' b' v'
  ∈ trace (get_shifted_noise_vectors_with s pol pixel noise skip min_valid_size rsl_power) →
  ∃ swid eap ba rsp acc,
    Minimize sw' b' v'
    ∈ trace (shift_vector (swath_name_of s swid) b' eap ba rsp line pixel noise skip
               min_valid_size acc v').
Proof.
  intros Hd. rewrite (shifted_unfold Hd).
  intros (swid & acc & _ & H)%trace_for_each. cbv beta zeta in H.
  apply trace_bind in H as [H|(bounds & _ & H)]; [by apply trace_dict_get in H|].
  apply trace_bind in H as [H|(eap & _ & H)].
  { unfold get_eap_interpolator, aux_params in H. no_event H. }
  apply trace_bind in H as [H|(ba & _ & H)]; [by apply trace_lift in H|].
  apply trace_bind in H as [H|(rsp & _ & H)]; [by apply trace_lift in H|].
  apply trace_for_each in H as (b & acc1 & _ & H).
  apply trace_for_each in H as (v1 & acc2 & _ & H).
  pose proof (shift_vector_minimize _ _ _ _ _ _ _ _ _ _ _ _ _ _ _ H) as (-> & -> & _).
  by exists swid, eap, ba, rsp, acc2.
Qed.

End Shift_loops.

#[global] Instance block_eq_dec : EqDecision block.
Proof. solve_decision. Defined.

(** [b] is a block of the swath bounds of the polarisation *)
Definition swath_block (d : PolData) (b : block) : Prop :=
  ∃ name bounds, (name, bounds) ∈ swath_bounds d ∧ b ∈ bounds.

(** the valid values of a vector in a block are all close to the first, the
    test [np.allclose(noise_valid, noise_valid[0])] of the method *)
Definition close_to_first (b : block) (pix : list nat) (nz : list float) : Prop :=
  ∃ w vals first,
    returns (written_pixels b pix nz) w ∧ returns (take_indices nz w) vals
    ∧ vals !! 0%nat = Some first ∧ allclose vals first = true.

(** [k] is a written pixel of the vector in the block *)
Definition written (b : block) (pix : list nat) (nz : list float) (k : nat) : Prop :=
  ∃ w, returns (written_pixels b pix nz) w ∧ k ∈ w.

Lemma iteration_swath_block {lib : Library} (s : Sentinel1Image) (d : PolData)
    (swid : nat) (b : block) (v1 : nat) :
  iteration s d swid b v1 → swath_block d b.
Proof.
  intros (_ & (bounds & Hb%returns_dict_get & Hin) & _).
  by exists (swath_name_of s swid), bounds.
Qed.

Lemma iteration_line {lib : Library} (s : Sentinel1Image) (d : PolData)
    (swid : nat) (b : block) (v1 : nat) :
  iteration s d swid b v1 → ∃ l, nr_line (noise_range d) !! v1 = Some l ∧ line_in b l = true.
Proof. intros (_ & _ & Hv). by apply elem_of_np_where in Hv. Qed.

Lemma zeros_shape (pixel : list (list nat)) :
  length <$> ((λ p : list nat, replicate (length p) 0%float) <$> pixel) = length <$> pixel.
Proof.
  rewrite <- list_fmap_compose. apply list_fmap_ext. intros _ p _. simpl.
  apply length_replicate.
Qed.

(** C10. The shifted noise is 0 at every position which, for every block of
    the swath bounds, lies outside the block or belongs to a vector with fewer
    than [min_valid_size] valid pixels in the block. *)
Theorem C10_unwritten_pixels_are_zero {lib : Library} (s : Sentinel1Image) (pol : string)
    (d : PolData) (pixel : list (list nat)) (noise : list (list float))
    (skip min_valid_size : nat) (rsl_power : float) (out : list (list float))
    (v1 k : nat) (pix : list nat) :
  xml s !! pol = Some d →
  returns (get_shifted_noise_vectors_with s pol pixel noise skip min_valid_size rsl_power) out →
  pixel !! v1 = Some pix → (k < length pix)%nat →
  (∀ b, swath_block d b →
     ∀ l p nz, nr_line (noise_range d) !! v1 = Some l → pix !! k = Some p →
               noise !! v1 = Some nz →
               in_block b l p = false ∨ (length (valid_pixels b pix nz) < min_valid_size)%nat) →
  cell out v1 k = Some 0%float.
Proof.
  intros Hd Hret Hpix Hk Hblocks.
  eapply (shifted_invariant s pol d pixel noise skip min_valid_size rsl_power
            (λ ns, cell ns v1 k = Some 0%float)); [exact Hd|exact Hret| |].
  - unfold cell. rewrite list_lookup_fmap, Hpix. simpl. by apply lookup_replicate_2.
  - intros swid b v1' eap ba rsp acc acc' Hit Hacc Hstep.
    rewrite (shift_vector_frame _ _ _ _ _ _ _ _ _ _ _ _ _ v1 k Hstep); [exact Hacc|].
    intros (-> & pix' & nz & Hpix' & Hnz & Hge & Hvalid).
    rewrite Hpix in Hpix'. injection Hpix' as <-.
    destruct (iteration_line _ _ _ _ _ Hit) as (l & Hl & Hline).
    apply elem_of_valid_pixels in Hvalid as (p & x & Hp & _ & Hin & _).
    destruct (Hblocks b (iteration_swath_block _ _ _ _ _ Hit) l p nz Hl Hp Hnz) as [Hout|Hlt];
      [|lia].
    unfold in_block in Hout. rewrite Hline, Hin in Hout. discriminate.
Qed.

(** C5, amended. For a block of a swath of the product and a noise vector of
    the block with at least [min_valid_size] valid pixels whose values are all
    close to the first, the shifted noise equals the input noise at every
    written pixel that no other block contains, and the optimizer is not called
    for that block and vector. *)
Theorem C5_constant_lut_unchanged {lib : Library} (s : Sentinel1Image) (pol : string)
    (d : PolData) (pixel : list (list nat)) (noise : list (list float))
    (skip min_valid_size : nat) (rsl_power : float) (out : list (list float))
    (swid : nat) (b : block) (v1 k : nat) (pix : list nat) (nz : list float) :
  xml s !! pol = Some d →
  returns (get_shifted_noise_vectors_with s pol pixel noise skip min_valid_size rsl_power) out →
  iteration s d swid b v1 →
  pixel !! v1 = Some pix → noise !! v1 = Some nz →
  (min_valid_size ≤ length (valid_pixels b pix nz))%nat →
  close_to_first b pix nz →
  written b pix nz k →
  (∀ b', swath_block d b' → b' ≠ b →
     ∀ l p, nr_line (noise_range d) !! v1 = Some l → pix !! k = Some p →
            in_block b' l p = false) →
  cell out v1 k = nz !! k
  ∧ ∀ swath_name,
      Minimize swath_name b v1
      ∉ trace (get_shifted_noise_vectors_with s pol pixel noise skip min_valid_size rsl_power).
Proof.
  intros Hd Hret Hit Hpix Hnz Hge (w & vals & first & Hw & Hvals & Hfirst & Hclose)
         (w' & Hw' & Hk) Hother.
  rewrite (returns_functional _ _ _ Hw' Hw) in Hk. clear w' Hw'. split.
  - eapply (shifted_establish s pol d pixel noise skip min_valid_size rsl_power
              (λ ns, length <$> ns = length <$> pixel) (λ ns, cell ns v1 k = nz !! k));
      [exact Hd|exact Hret|exact Hit|apply zeros_shape| | |].
    + intros swid' b' v1' eap ba rsp acc acc' _ Hacc Hstep.
      by rewrite (shift_vector_shape _ _ _ _ _ _ _ _ _ _ _ _ _ Hstep).
    + intros eap ba rsp acc acc' Hacc Hstep.
      by eapply shift_vector_constant.
    + intros swid' b' v1' eap ba rsp acc acc' Hit' Hshape Hacc Hstep.
      destruct (decide (b' = b)) as [->|Hb].
      * destruct (decide (v1' = v1)) as [->|Hv]; [by eapply shift_vector_constant|].
        rewrite (shift_vector_frame _ _ _ _ _ _ _ _ _ _ _ _ _ v1 k Hstep); [exact Hacc|].
        by intros [-> _].
      * rewrite (shift_vector_frame _ _ _ _ _ _ _ _ _ _ _ _ _ v1 k Hstep); [exact Hacc|].
        intros (-> & pix' & nz' & Hpix' & _ & _ & Hvalid).
        rewrite Hpix in Hpix'. injection Hpix' as <-.
        destruct (iteration_line _ _ _ _ _ Hit') as (l & Hl & Hline).
        apply elem_of_valid_pixels in Hvalid as (p & x & Hp & _ & Hin & _).
        pose proof (Hother b' (iteration_swath_block _ _ _ _ _ Hit') Hb l p Hl Hp) as Hout.
        unfold in_block in Hout. rewrite Hline, Hin in Hout. discriminate.
  - intros swath_name Hmin.
    apply (shifted_minimize s pol d pixel noise skip min_valid_size rsl_power _ _ _ Hd) in Hmin
      as (swid' & eap & ba & rsp & acc & Hmin).
    apply shift_vector_minimize in Hmin
      as (_ & _ & pix' & nz' & w' & vals' & first' & Hpix' & Hnz' & Hw' & Hvals' & Hfirst' & Hfar).
    rewrite Hpix in Hpix'. injection Hpix' as <-. rewrite Hnz in Hnz'. injection Hnz' as <-.
    rewrite (returns_functional _ _ _ Hw' Hw) in Hvals'.
    rewrite (returns_functional _ _ _ Hvals' Hvals) in *.
    rewrite Hfirst in Hfirst'. injection Hfirst' as <-. congruence.
Qed.

(** the shifted noise of the small product *)
Definition demo_shifted : list (list float) := [replicate 12 5%float ++ replicate 12 0%float].

Lemma demo_shifted_returns (version : float) :
  returns (get_shifted_noise_vectors_with (lib := demo_library) (demo_image demo_name_S1A version)
             "VH" [seq 0 24] [replicate 24 5%float] 4 10 (3 / 2)) demo_shifted.
Proof. vm_compute. reflexivity. Qed.

Lemma demo_swath_block (b : block) :
  swath_block demo_pol b → b = Block 0 1 0 11 ∨ b = Block 0 1 12 16 ∨ b = Block 0 1 17 21.
Proof.
  intros (name & bounds & Hin & Hb). unfold demo_pol, demo_bounds in Hin. simpl in Hin.
  rewrite !elem_of_cons, elem_of_nil in Hin.
  destruct Hin as [[= -> ->]|[[= -> ->]|[[= -> ->]|[]]]];
    apply list_elem_of_singleton in Hb; auto.
Qed.

Lemma C10_unwritten_pixels_are_zero_witness :
  cell demo_shifted 0 12 = Some 0%float ∧ cell demo_shifted 0 23 = Some 0%float.
Proof.
  split.
  - apply (C10_unwritten_pixels_are_zero (lib := demo_library) (demo_image demo_name_S1A 2.9)
             "VH" demo_pol [seq 0 24] [replicate 24 5%float] 4 10 (3 / 2) demo_shifted
             0 12 (seq 0 24)); [reflexivity|apply demo_shifted_returns|reflexivity|simpl; lia|].
    intros b Hb l p nz Hl Hp Hnz.
    injection Hl as <-. injection Hp as <-. injection Hnz as <-.
    destruct (demo_swath_block b Hb) as [-> | [-> | -> ] ]; vm_compute; auto; right; lia.
  - apply (C10_unwritten_pixels_are_zero (lib := demo_library) (demo_image demo_name_S1A 2.9)
             "VH" demo_pol [seq 0 24] [replicate 24 5%float] 4 10 (3 / 2) demo_shifted
             0 23 (seq 0 24)); [reflexivity|apply demo_shifted_returns|reflexivity|simpl; lia|].
    intros b Hb l p nz Hl Hp Hnz.
    injection Hl as <-. injection Hp as <-. injection Hnz as <-.
    destruct (demo_swath_block b Hb) as [-> | [-> | -> ] ]; vm_compute; auto.
Defined.

Lemma demo_iteration (version : float) (swid : nat) (b : block) :
  (swid, b) ∈ [(1%nat, Block 0 1 0 11); (2%nat, Block 0 1 12 16); (3%nat, Block 0 1 17 21)] →
  iteration (demo_image demo_name_S1A version) demo_pol swid b 0.
Proof.
  rewrite !elem_of_cons, elem_of_nil. intros [[= -> ->]|[[= -> ->]|[[= -> ->]|[]]]];
    (split; [vm_compute; set_solver|]); (split; [|vm_compute; set_solver]);
    (eexists; split; [vm_compute; reflexivity|set_solver]).
Qed.

(** C5, as stated, fails: the vector of the small product is constant (5) over
    the five valid pixels 12..16 of the block of IW2, fewer than the ten that
    the method requires, and the shifted noise there is 0, not 5. *)
Lemma C5_few_valid_pixels_counterexample :
  let b := Block 0 1 12 16 in
  let pix := seq 0 24 in
  let nz := replicate 24 5%float in
  iteration (demo_image demo_name_S1A 2.9) demo_pol 2 b 0
  ∧ valid_pixels b pix nz = [12; 13; 14; 15; 16]%nat
  ∧ close_to_first b pix nz
  ∧ written b pix nz 12
  ∧ returns (get_shifted_noise_vectors (lib := demo_library) (demo_image demo_name_S1A 2.9) "VH")
      demo_shifted
  ∧ nz !! 12%nat = Some 5%float
  ∧ cell demo_shifted 0 12 = Some 0%float
  ∧ cell demo_shifted 0 12 ≠ nz !! 12%nat.
Proof.
  intros b pix nz. split; [apply demo_iteration; set_solver|]. split; [reflexivity|].
  split.
  { exists [12; 13; 14; 15; 16]%nat, (replicate 5 5%float), 5%float.
    repeat split; vm_compute; reflexivity. }
  split.
  { exists [12; 13; 14; 15; 16]%nat. split; [vm_compute; reflexivity|set_solver]. }
  split; [vm_compute; reflexivity|]. split; [reflexivity|]. split; [reflexivity|].
  vm_compute. discriminate.
Qed.

Lemma C5_constant_lut_unchanged_witness :
  cell demo_shifted 0 3 = Some 5%float
  ∧ ∀ swath_name,
      Minimize swath_name (Block 0 1 0 11) 0
      ∉ trace (get_shifted_noise_vectors_with (lib := demo_library)
                 (demo_image demo_name_S1A 2.9) "VH" [seq 0 24] [replicate 24 5%float]
                 4 10 (3 / 2)).
Proof.
  apply (C5_constant_lut_unchanged (lib := demo_library) (demo_image demo_name_S1A 2.9)
           "VH" demo_pol [seq 0 24] [replicate 24 5%float] 4 10 (3 / 2) demo_shifted
           1 (Block 0 1 0 11) 0 3 (seq 0 24) (replicate 24 5%float));
    [reflexivity|apply demo_shifted_returns|apply demo_iteration; set_solver
    |reflexivity|reflexivity|vm_compute; lia| | |].
  - exists (seq 0 12), (replicate 12 5%float), 5%float. repeat split; vm_compute; reflexivity.
  - exists (seq 0 12). split; [vm_compute; reflexivity|vm_compute; set_solver].
  - intros b' Hb' Hne l p Hl Hp. injection Hl as <-. injection Hp as <-.
    destruct (demo_swath_block b' Hb') as [-> | [-> | -> ] ]; [done|reflexivity|reflexivity].
Defined.

(** * Rasters: values outside the swath blocks *)

(** ** NaN in arithmetic *)

Lemma Prim2SF_nan : Prim2SF Float.nan = S754_nan.
Proof. reflexivity. Qed.

Lemma div_nan_r (x : float) : (x / Float.nan)%float = Float.nan.
Proof.
  apply Prim2SF_inj. rewrite FloatAxioms.div_spec, Prim2SF_nan. by destruct (Prim2SF x).
Qed.

Lemma sub_nan_l (y : float) : (Float.nan - y)%float = Float.nan.
Proof. apply Prim2SF_inj. by rewrite FloatAxioms.sub_spec, Prim2SF_nan. Qed.

Lemma mul_nan_l (y : float) : (Float.nan * y)%float = Float.nan.
Proof. apply Prim2SF_inj. by rewrite FloatAxioms.mul_spec, Prim2SF_nan. Qed.

Lemma mul_nan_r (x : float) : (x * Float.nan)%float = Float.nan.
Proof.
  apply Prim2SF_inj. rewrite FloatAxioms.mul_spec, Prim2SF_nan. by destruct (Prim2SF x).
Qed.

Lemma add_nan_l (y : float) : (Float.nan + y)%float = Float.nan.
Proof. apply Prim2SF_inj. by rewrite FloatAxioms.add_spec, Prim2SF_nan. Qed.

Lemma leb_nan_l (y : float) : (Float.nan <=? y)%float = false.
Proof. by rewrite FloatAxioms.leb_spec, Prim2SF_nan. Qed.

(** ** Assignment of a block *)

Lemma cell_imap2 {A} (f : nat → nat → A → A) (a : list (list A)) (l p : nat) :
  cell (imap (λ l row, imap (f l) row) a) l p = f l p <$> cell a l p.
Proof.
  unfold cell. rewrite list_lookup_imap. destruct (a !! l) as [row|]; [|done]. simpl.
  by rewrite list_lookup_imap.
Qed.

Lemma shape_imap2 {A} (f : nat → nat → A → A) (a : list (list A)) :
  length <$> imap (λ l row, imap (f l) row) a = length <$> a.
Proof.
  apply list_eq. intros i. rewrite !list_lookup_fmap, list_lookup_imap.
  destruct (a !! i) as [row|]; [|done]. simpl. by rewrite length_imap.
Qed.

(** A block assignment that returns writes the cells of the block and keeps
    the others. *)
Lemma setitem_block_cell (z_fs z_fs' : raster) (b : block) (v : nat → nat → float) (l p : nat) :
  returns (setitem_block z_fs b v) z_fs' →
  cell z_fs' l p = (λ x, if in_block b l p then v l p else x) <$> cell z_fs l p.
Proof.
  unfold setitem_block. destruct (_ && _); [|by intros ?%returns_raise].
  intros <-%returns_ret. apply (cell_imap2 (λ l p x, if in_block b l p then v l p else x)).
Qed.

Lemma setitem_block_shape (z_fs z_fs' : raster) (b : block) (v : nat → nat → float) :
  returns (setitem_block z_fs b v) z_fs' → length <$> z_fs' = length <$> z_fs.
Proof.
  unfold setitem_block. destruct (_ && _); [|by intros ?%returns_raise].
  intros <-%returns_ret. apply (shape_imap2 (λ l p x, if in_block b l p then v l p else x)).
Qed.

(** A block that does not fit in the raster is refused. *)
Lemma setitem_block_too_long (z_fs : raster) (b : block) (v : nat → nat → float) :
  (firstAzimuthLine b < lastAzimuthLine b)%nat → (length z_fs ≤ lastAzimuthLine b)%nat →
  setitem_block z_fs b v = raise (ValueError "could not broadcast input array").
Proof.
  intros Hlt Hlen. unfold setitem_block.
  assert (fits (firstAzimuthLine b) (lastAzimuthLine b) (length z_fs) = false) as ->; [|done].
  unfold fits, slice_len. apply orb_false_iff. split; apply Nat.eqb_neq; lia.
Qed.

Section Raster_facts.

Context {lib : Library}.

Lemma get_swath_interpolator_coords (s : Sentinel1Image) (pol swath_name : string)
    (line : list nat) (pixel : list (list nat)) (z : list (list float)) (d : PolData)
    (f : float → float → float) (coords : list block) :
  xml s !! pol = Some d →
  returns (get_swath_interpolator s pol swath_name line pixel z) (f, coords) →
  (swath_name, coords) ∈ swath_bounds d.
Proof.
  intros Hd. unfold get_swath_interpolator, subscript. rewrite Hd, ret_bind.
  intros (bounds & Hbounds%returns_dict_get & H)%returns_bind.
  apply returns_bind in H as (lo & _ & H). apply returns_bind in H as (hi & _ & H).
  apply returns_bind in H as ([z_vecs swath_lines] & _ & H).
  apply returns_bind in H as (g & _ & H). apply returns_ret in H. by injection H as _ <-.
Qed.

(** the values of the lifted raster outside every block of the swath bounds
    are those of the initial raster *)
Lemma interp_nrv_full_size_cell (s : Sentinel1Image) (z : list (list float)) (line : list nat)
    (pixel : list (list nat)) (pol : string) (power : nat) (d : PolData) (z_fs : raster)
    (l p : nat) :
  xml s !! pol = Some d →
  returns (interp_nrv_full_size s z line pixel pol power) z_fs →
  (∀ b, swath_block d b → in_block b l p = false) →
  cell z_fs l p = cell (replicate (shape d).1 (replicate (shape d).2 Float.nan)) l p.
Proof.
  intros Hd Hret Hout. unfold interp_nrv_full_size, subscript in Hret.
  rewrite Hd, ret_bind in Hret.
  set (z0 := replicate (shape d).1 (replicate (shape d).2 Float.nan)) in *.
  eapply (for_each_invariant (λ a, cell a l p = cell z0 l p)); [|done|exact Hret].
  intros acc name acc' _ Hacc Hbody. cbv beta in Hbody.
  apply returns_bind in Hbody as ([f coords] & Hcoords & Hbody).
  pose proof (get_swath_interpolator_coords _ _ _ _ _ _ _ _ _ Hd Hcoords) as Hin.
  eapply (for_each_invariant (λ a, cell a l p = cell z0 l p)); [|exact Hacc|exact Hbody].
  intros acc1 b acc1' Hb Hacc1 Hset. cbv beta in Hset.
  rewrite (setitem_block_cell _ _ _ _ l p Hset), (Hout b); [|by exists name, coords].
  rewrite Hacc1. by destruct (cell z0 l p).
Qed.

Lemma interp_nrv_full_size_shape (s : Sentinel1Image) (z : list (list float)) (line : list nat)
    (pixel : list (list nat)) (pol : string) (power : nat) (d : PolData) (z_fs : raster) :
  xml s !! pol = Some d →
  returns (interp_nrv_full_size s z line pixel pol power) z_fs →
  length <$> z_fs = replicate (shape d).1 (shape d).2.
Proof.
  intros Hd Hret. unfold interp_nrv_full_size, subscript in Hret.
  rewrite Hd, ret_bind in Hret.
  eapply (for_each_invariant (λ a, length <$> a = replicate (shape d).1 (shape d).2));
    [| |exact Hret].
  - intros acc name acc' _ Hacc Hbody. cbv beta in Hbody.
    apply returns_bind in Hbody as ([f coords] & _ & Hbody).
    eapply (for_each_invariant (λ a, length <$> a = replicate (shape d).1 (shape d).2));
      [|exact Hacc|exact Hbody].
    intros acc1 b acc1' _ Hacc1 Hset. cbv beta in Hset.
    by rewrite (setitem_block_shape _ _ _ _ Hset).
  - by rewrite fmap_replicate, length_replicate.
Qed.

Lemma cell_nan_raster (rows cols l p : nat) :
  (l < rows)%nat → (p < cols)%nat →
  cell (replicate rows (replicate cols Float.nan)) l p = Some Float.nan.
Proof.
  intros Hl Hp. unfold cell. rewrite (lookup_replicate_2 _ _ _ Hl). simpl.
  by apply lookup_replicate_2.
Qed.

End Raster_facts.

(** ** Element-wise operations *)

Lemma cell_zip_with {A B C} (f : A → B → C) (a : list (list A)) (b : list (list B))
    (l p : nat) :
  cell (zip_with (zip_with f) a b) l p = (x ← cell a l p; y ← cell b l p; Some (f x y)).
Proof.
  unfold cell. rewrite lookup_zip_with.
  destruct (a !! l) as [ra|]; [|done]. simpl. destruct (b !! l) as [rb|]; simpl.
  - by rewrite lookup_zip_with.
  - by destruct (ra !! p).
Qed.

Lemma cell_is_Some {A} (a : list (list A)) (rows cols l p : nat) :
  length <$> a = replicate rows cols → (l < rows)%nat → (p < cols)%nat → is_Some (cell a l p).
Proof.
  intros Hshape Hl Hp. apply (f_equal (.!! l)) in Hshape.
  rewrite list_lookup_fmap, (lookup_replicate_2 _ _ _ Hl) in Hshape. unfold cell.
  destruct (a !! l) as [row|]; [|done]. simpl in *. injection Hshape as Hlen.
  apply lookup_lt_is_Some. lia.
Qed.

Lemma returns_same_shape {A B} (a : list (list A)) (b : list (list B)) (u : unit) :
  returns (same_shape a b) u → length <$> a = length <$> b.
Proof.
  unfold same_shape. destruct (bool_decide_reflect (length <$> a = length <$> b)); [done|].
  by intros ?%returns_raise.
Qed.

Lemma returns_raster_zip {A B C} (f : A → B → C) (a : list (list A)) (b : list (list B))
    (c : list (list C)) :
  returns (raster_zip f a b) c →
  length <$> a = length <$> b ∧ c = zip_with (zip_with f) a b.
Proof.
  unfold raster_zip. intros (u & Hs%returns_same_shape & <-%returns_ret)%returns_bind. done.
Qed.

Lemma shape_zip_with {A B C} (f : A → B → C) (a : list (list A)) (b : list (list B)) :
  length <$> a = length <$> b → length <$> zip_with (zip_with f) a b = length <$> a.
Proof.
  intros Hs. apply list_eq. intros i. apply (f_equal (.!! i)) in Hs.
  rewrite !list_lookup_fmap in Hs. rewrite !list_lookup_fmap, lookup_zip_with.
  destruct (a !! i) as [ra|], (b !! i) as [rb|]; simpl in *; try done.
  injection Hs as Hs. rewrite length_zip_with. f_equal. lia.
Qed.

Lemma subscript_Some {A} (m : gmap string A) (k : string) (x : A) :
  m !! k = Some x → subscript m k = mret x.
Proof. unfold subscript. by intros ->. Qed.

(** the library's gap filling replaces masked cells only *)
Definition fill_gaps_keeps_unmasked {lib : Library} : Prop :=
  ∀ (a : raster) (mask : list (list bool)) (l p : nat),
    cell mask l p = Some false → cell (fill_gaps a mask) l p = cell a l p.

Lemma demo_fill_gaps_keeps_unmasked : fill_gaps_keeps_unmasked (lib := demo_library).
Proof.
  intros a mask l p Hm. simpl. rewrite cell_zip_with, Hm. by destruct (cell a l p).
Qed.

Section Pipeline_facts.

Context {lib : Library} (params : gmap string (gmap string json)).
Context (s : Sentinel1Image) (pol : string) (d : PolData).
Context (Hd : xml s !! pol = Some d).
Context (l p : nat).

(** the position is in the annotated raster and outside every block *)
Definition outside_blocks : Prop :=
  (l < (shape d).1)%nat ∧ (p < (shape d).2)%nat ∧ ∀ b, swath_block d b → in_block b l p = false.

Lemma interp_nrv_full_size_nan (z : list (list float)) (line : list nat)
    (pixel : list (list nat)) (power : nat) (z_fs : raster) :
  returns (interp_nrv_full_size s z line pixel pol power) z_fs → outside_blocks →
  cell z_fs l p = Some Float.nan.
Proof.
  intros Hret (Hl & Hp & Hout).
  rewrite (interp_nrv_full_size_cell _ _ _ _ _ _ _ _ _ _ Hd Hret Hout).
  by apply cell_nan_raster.
Qed.

Lemma get_raw_sigma0_full_size_nan (min_dn : Z) (sigma0 : raster) :
  returns (get_raw_sigma0_full_size s pol min_dn) sigma0 → outside_blocks →
  cell sigma0 l p = Some Float.nan
  ∧ length <$> sigma0 = replicate (shape d).1 (shape d).2.
Proof.
  unfold get_raw_sigma0_full_size, subscript. intros Hret Hout.
  apply returns_bind in Hret as (dn & _ & Hret). rewrite Hd, ret_bind in Hret.
  apply returns_bind in Hret as (cal & Hcal & Hret).
  apply returns_bind in Hret as (sigma0_fs & [Hshape ->]%returns_raster_zip & <-%returns_ret).
  pose proof (interp_nrv_full_size_shape _ _ _ _ _ _ _ _ Hd Hcal) as Hcs.
  pose proof (interp_nrv_full_size_nan _ _ _ _ _ Hcal Hout) as Hnan.
  destruct Hout as (Hl & Hp & _).
  assert (length <$> dn = replicate (shape d).1 (shape d).2) as Hdn by congruence.
  destruct (cell_is_Some dn _ _ l p Hdn Hl Hp) as [n Hn]. split.
  - rewrite !cell_zip_with, Hn, Hnan. simpl. rewrite div_nan_r. by destruct (_ <=? _)%Z.
  - rewrite shape_zip_with; [done|]. by rewrite shape_zip_with.
Qed.

Lemma get_corrected_nesz_full_size_cell (nesz out : raster) :
  returns (get_corrected_nesz_full_size params s pol nesz) out →
  (∀ b, swath_block d b → in_block b l p = false) →
  cell out l p = cell nesz l p ∧ length <$> out = length <$> nesz.
Proof.
  unfold get_corrected_nesz_full_size. intros Hret Hout.
  apply returns_bind in Hret as ([[[ns pb] es] nv] & _ & Hret).
  eapply (for_each_invariant
            (λ a, cell a l p = cell nesz l p ∧ length <$> a = length <$> nesz));
    [|done|exact Hret].
  intros acc swid acc' _ Hacc Hbody. cbv beta zeta in Hbody.
  destruct (ns !! swath_name_of s swid); [|by apply returns_ret in Hbody as <-].
  rewrite (subscript_Some _ _ _ Hd), ret_bind in Hbody.
  apply returns_bind in Hbody as (bounds & Hbounds%returns_dict_get & Hbody).
  eapply (for_each_invariant
            (λ a, cell a l p = cell nesz l p ∧ length <$> a = length <$> nesz));
    [|exact Hacc|exact Hbody].
  intros acc1 b acc1' Hb [Hc Hs] Hstep. cbv beta zeta in Hstep.
  apply returns_bind in Hstep as (n & _ & Hstep).
  apply returns_bind in Hstep as (o & _ & <-%returns_ret).
  assert (in_block b l p = false) as Hb' by (apply Hout; by eexists _, bounds).
  split.
  - rewrite (cell_imap2 (λ l p x, if in_block b l p then (x + o)%float else x)).
    rewrite (cell_imap2 (λ l p x, if in_block b l p then (x * n)%float else x)).
    rewrite Hb', Hc. by destruct (cell nesz l p).
  - rewrite (shape_imap2 (λ l p x, if in_block b l p then (x + o)%float else x)).
    by rewrite (shape_imap2 (λ l p x, if in_block b l p then (x * n)%float else x)).
Qed.

Lemma get_nesz_full_size_nan (algorithm : string) (nesz_fs : raster) :
  returns (get_nesz_full_size params s pol algorithm) nesz_fs → outside_blocks →
  cell nesz_fs l p = Some Float.nan
  ∧ length <$> nesz_fs = replicate (shape d).1 (shape d).2.
Proof.
  unfold get_nesz_full_size. intros Hret Hout.
  apply returns_bind in Hret as (noise & _ & Hret).
  apply returns_bind in Hret as (cal_s0 & _ & Hret).
  apply returns_bind in Hret as (nesz & _ & Hret).
  rewrite (subscript_Some _ _ _ Hd), ret_bind in Hret.
  apply returns_bind in Hret as (fs & Hfs & Hret).
  apply returns_bind in Hret as (scall & _ & Hret).
  apply returns_bind in Hret as (fs' & [Hshape ->]%returns_raster_zip & Hret).
  pose proof (interp_nrv_full_size_shape _ _ _ _ _ _ _ _ Hd Hfs) as Hfss.
  pose proof (interp_nrv_full_size_nan _ _ _ _ _ Hfs Hout) as Hnan.
  assert (cell (zip_with (zip_with PrimFloat.mul) fs scall) l p = Some Float.nan
          ∧ length <$> zip_with (zip_with PrimFloat.mul) fs scall
            = replicate (shape d).1 (shape d).2) as [Hc Hs].
  { destruct Hout as (Hl & Hp & _).
    assert (length <$> scall = replicate (shape d).1 (shape d).2) as Hsc by congruence.
    destruct (cell_is_Some scall _ _ l p Hsc Hl Hp) as [y Hy].
    rewrite cell_zip_with, Hnan, Hy. simpl. rewrite mul_nan_l.
    split; [done|]. by rewrite shape_zip_with. }
  destruct (String.eqb algorithm "NERSC").
  - destruct (get_corrected_nesz_full_size_cell _ _ Hret) as [-> ->]; [|done].
    by destruct Hout as (_ & _ & ?).
  - by apply returns_ret in Hret as <-.
Qed.

End Pipeline_facts.

(** X1. A raster lifted by [interp_nrv_full_size] has the annotated shape and
    is NaN at every position of the raster outside every block of the swath
    bounds. *)
Theorem interp_nrv_full_size_outside_blocks {lib : Library} (s : Sentinel1Image)
    (z : list (list float)) (line : list nat) (pixel : list (list nat)) (pol : string)
    (power : nat) (d : PolData) (z_fs : raster) (l p : nat) :
  xml s !! pol = Some d →
  returns (interp_nrv_full_size s z line pixel pol power) z_fs →
  length <$> z_fs = replicate (shape d).1 (shape d).2
  ∧ (outside_blocks d l p → cell z_fs l p = Some Float.nan).
Proof.
  intros Hd Hret. split; [by eapply interp_nrv_full_size_shape|].
  by eapply interp_nrv_full_size_nan.
Qed.

Lemma demo_outside_blocks (l : nat) : (l < 2)%nat → outside_blocks demo_pol l 22.
Proof.
  intros Hl. split; [exact Hl|]. split; [simpl; lia|].
  intros b Hb. destruct (demo_swath_block b Hb) as [-> | [-> | -> ] ];
    unfold in_block, pixel_in; simpl; by rewrite andb_false_r.
Qed.

Lemma interp_nrv_full_size_outside_blocks_witness :
  ∃ z_fs,
    returns (interp_nrv_full_size (lib := demo_library) (demo_image demo_name_S1A 2.9)
               [replicate 24 5%float] [0%nat] [seq 0 24] "VH" 1) z_fs
    ∧ length <$> z_fs = [24; 24]%nat ∧ cell z_fs 1 22 = Some Float.nan.
Proof.
  eexists. split; [vm_compute; reflexivity|].
  match goal with |- length <$> ?z = _ ∧ _ =>
    destruct (interp_nrv_full_size_outside_blocks (lib := demo_library)
                (demo_image demo_name_S1A 2.9) [replicate 24 5%float] [0%nat] [seq 0 24] "VH" 1
                demo_pol z 1 22 eq_refl ltac:(vm_compute; reflexivity)) as [Hs Hc]
  end.
  split; [exact Hs|]. apply Hc, demo_outside_blocks. lia.
Defined.

(** X2. The calibrated sigma0 raster of [get_raw_sigma0_full_size] has the
    annotated shape and is NaN at every position outside every block of the
    swath bounds. *)
Theorem get_raw_sigma0_full_size_outside_blocks {lib : Library} (s : Sentinel1Image)
    (pol : string) (d : PolData) (min_dn : Z) (sigma0 : raster) (l p : nat) :
  xml s !! pol = Some d →
  returns (get_raw_sigma0_full_size s pol min_dn) sigma0 →
  outside_blocks d l p →
  cell sigma0 l p = Some Float.nan
  ∧ length <$> sigma0 = replicate (shape d).1 (shape d).2.
Proof. intros Hd Hret Hout. by eapply get_raw_sigma0_full_size_nan. Qed.

Lemma get_raw_sigma0_full_size_outside_blocks_witness :
  ∃ sigma0,
    returns (get_raw_sigma0_full_size (lib := demo_library) (demo_image demo_name_S1A 2.9)
               "VH" 0) sigma0
    ∧ cell sigma0 0 22 = Some Float.nan ∧ cell sigma0 0 3 = Some 4%float.
Proof.
  eexists. split; [vm_compute; reflexivity|]. split; [|reflexivity].
  match goal with |- cell ?z _ _ = _ =>
    apply (get_raw_sigma0_full_size_outside_blocks (lib := demo_library)
             (demo_image demo_name_S1A 2.9) "VH" demo_pol 0 z 0 22 eq_refl
             ltac:(vm_compute; reflexivity))
  end.
  apply demo_outside_blocks. lia.
Defined.

(** X3. The NESZ raster of [get_nesz_full_size] has, for every algorithm, the
    annotated shape and is NaN at every position outside every block of the
    swath bounds: neither the scalloping factor nor the scaling and offset of
    the NERSC correction reach those positions. *)
Theorem get_nesz_full_size_outside_blocks {lib : Library}
    (params : gmap string (gmap string json)) (s : Sentinel1Image) (pol : string)
    (d : PolData) (algorithm : string) (nesz_fs : raster) (l p : nat) :
  xml s !! pol = Some d →
  returns (get_nesz_full_size params s pol algorithm) nesz_fs →
  outside_blocks d l p →
  cell nesz_fs l p = Some Float.nan
  ∧ length <$> nesz_fs = replicate (shape d).1 (shape d).2.
Proof. intros Hd Hret Hout. by eapply get_nesz_full_size_nan. Qed.

Lemma get_nesz_full_size_outside_blocks_witness :
  ∃ nesz_fs,
    returns (get_nesz_full_size (lib := demo_library) demo_params
               (demo_image demo_name_S1A 2.9) "VH" "NERSC") nesz_fs
    ∧ cell nesz_fs 1 22 = Some Float.nan ∧ cell nesz_fs 1 3 = Some 1.25%float.
Proof.
  eexists. split; [vm_compute; reflexivity|]. split; [|reflexivity].
  match goal with |- cell ?z _ _ = _ =>
    apply (get_nesz_full_size_outside_blocks (lib := demo_library) demo_params
             (demo_image demo_name_S1A 2.9) "VH" demo_pol "NERSC" z 1 22 eq_refl
             ltac:(vm_compute; reflexivity))
  end.
  apply demo_outside_blocks. lia.
Defined.

(** X4. The raster returned by [remove_thermal_noise] is NaN at every position
    outside every block of the swath bounds, for every algorithm; with
    [remove_negative] this holds when the gap filling of the library replaces
    masked cells only. *)
Theorem remove_thermal_noise_outside_blocks {lib : Library}
    (params : gmap string (gmap string json)) (s : Sentinel1Image) (pol : string)
    (d : PolData) (algorithm : string) (remove_negative : bool) (min_dn : Z)
    (out : raster) (l p : nat) :
  xml s !! pol = Some d →
  returns (remove_thermal_noise params s pol algorithm remove_negative min_dn) out →
  outside_blocks d l p →
  (remove_negative = true → fill_gaps_keeps_unmasked) →
  cell out l p = Some Float.nan.
Proof.
  intros Hd Hret Hout Hfill. unfold remove_thermal_noise in Hret.
  apply returns_bind in Hret as (nesz_fs & Hnesz & Hret).
  apply returns_bind in Hret as (sigma0 & Hsigma0 & Hret).
  apply returns_bind in Hret as (diff & [Hshape ->]%returns_raster_zip & Hret).
  destruct (get_nesz_full_size_nan _ _ _ _ Hd _ _ _ _ Hnesz Hout) as [Hn _].
  destruct (get_raw_sigma0_full_size_nan _ _ _ Hd _ _ _ _ Hsigma0 Hout) as [Hs _].
  assert (cell (zip_with (zip_with PrimFloat.sub) sigma0 nesz_fs) l p = Some Float.nan) as Hc.
  { rewrite cell_zip_with, Hs, Hn. reflexivity. }
  destruct remove_negative; apply returns_ret in Hret as <-; [|done].
  rewrite (Hfill eq_refl); [done|].
  unfold cell in *. rewrite list_lookup_fmap.
  destruct (zip_with (zip_with PrimFloat.sub) sigma0 nesz_fs !! l) as [row|]; [|done].
  simpl in *. rewrite list_lookup_fmap, Hc. reflexivity.
Qed.

Lemma remove_thermal_noise_outside_blocks_witness :
  fill_gaps_keeps_unmasked (lib := demo_library)
  ∧ ∃ out,
      returns (remove_thermal_noise (lib := demo_library) demo_params
                 (demo_image demo_name_S1A 2.9) "VH" "NERSC" true 0) out
      ∧ cell out 0 22 = Some Float.nan ∧ cell out 0 3 = Some 2.75%float.
Proof.
  split; [apply demo_fill_gaps_keeps_unmasked|].
  eexists. split; [vm_compute; reflexivity|]. split; [|reflexivity].
  match goal with |- cell ?z _ _ = _ =>
    apply (remove_thermal_noise_outside_blocks (lib := demo_library) demo_params
             (demo_image demo_name_S1A 2.9) "VH" demo_pol "NERSC" true 0 z 0 22 eq_refl
             ltac:(vm_compute; reflexivity))
  end.
  - apply demo_outside_blocks. lia.
  - intros _. apply demo_fill_gaps_keeps_unmasked.
Defined.

(** * Construction and the coefficient import *)

Lemma outcome_bind_raise {A B} (m : M A) (f : A → M B) (e : exn) :
  outcome m = inl e → outcome (m ≫= f) = inl e.
Proof.
  rewrite bind_unfold. unfold outcome. destruct m as [t [e'|x]]; simpl; [|discriminate].
  by intros [= ->].
Qed.

Lemma outcome_bind_returns {A B} (m : M A) (f : A → M B) (x : A) :
  returns m x → outcome (m ≫= f) = outcome (f x).
Proof.
  rewrite bind_unfold. unfold returns. destruct m as [t [e'|y]]; simpl; [discriminate|].
  by intros [= ->].
Qed.

Lemma not_returns_raises {A} (m : M A) : (∀ x, ¬ returns m x) → ∃ e, outcome m = inl e.
Proof.
  intros Hn. destruct (outcome m) as [e|x] eqn:Ho; [by exists e|]. by destruct (Hn x).
Qed.

Section Extra_scaling.

Context {lib : Library} (params : gmap string (gmap string json)).

(** With [load_extra_scaling] a step returns only without the PB entry. *)
Lemma coefficients_step_extra_returns (s : Sentinel1Image) (base_key : string)
    (version : float) (acc acc' : coefficients) (iSW : nat) :
  returns (coefficients_step params s base_key version true acc iSW) acc' →
  params !! coefficient_key base_key "PB" version = None.
Proof.
  destruct acc as [[[ns pb] es] nv].
  unfold coefficients_step, params_contains, params_getitem, subscript, returns.
  generalize (coefficient_key base_key "NS" version) (coefficient_key base_key "PB" version)
             (coefficient_key base_key "ES" version) (coefficient_key base_key "NV" version).
  intros k1 k2 k3 k4.
  destruct (params !! k2) as [e2|] eqn:E2; [|done].
  destruct (params !! k1) as [e1|] eqn:E1; simpl; rewrite ?E1, ?E2; simpl;
    (destruct (params !! k3) as [e3|] eqn:E3; simpl; rewrite ?E3; simpl);
    try (destruct (e3 !! swath_name_of s iSW); simpl);
    try (destruct (e3 !! "SNNR"); simpl);
    rewrite ?E2; simpl;
    try (destruct (params !! k4) as [e4|] eqn:E4; simpl; rewrite ?E4; simpl);
    discriminate.
Qed.

(** X7. With [load_extra_scaling=True] the import raises for every product
    with at least one swath whenever the table has the PB entry of the product:
    the noise-variance branch tests the PB key and then assigns into a
    string. *)
Theorem import_extra_scaling_raises (s : Sentinel1Image)
    (pol platform mode resolution tok : string) (d : datetime) :
  name_parts s platform mode resolution tok → strptime tok = inr d →
  swath_ids s ≠ [] →
  is_Some (params !! spec_key platform mode resolution pol "PB"
                       (lookup_IPFversion platform (IPFversion s) d)) →
  ∃ e, outcome (import_denoisingCoefficients params s pol true) = inl e.
Proof.
  intros Hn Hd Hids [e He]. apply not_returns_raises. intros c Hret.
  rewrite (import_unfold _ _ _ _ _ _ _ _ _ Hn Hd) in Hret.
  destruct (swath_ids s) as [|iSW ids]; [done|]. cbn [for_each] in Hret.
  apply returns_bind in Hret as (acc' & Hstep%coefficients_step_extra_returns & _).
  rewrite coefficient_key_spec in Hstep. congruence.
Qed.

End Extra_scaling.

Lemma import_extra_scaling_raises_witness :
  outcome (import_denoisingCoefficients (lib := demo_library) demo_params
             (demo_image demo_name_S1B 2.72) "VH" true)
  = inl (KeyError "S1B_IW_GRDH_VH_NV_2.8")
  ∧ ∃ e, outcome (import_denoisingCoefficients (lib := demo_library) demo_params
                    (demo_image demo_name_S1B 2.72) "VH" true) = inl e.
Proof.
  split; [vm_compute; reflexivity|].
  apply (import_extra_scaling_raises (lib := demo_library) demo_params
           (demo_image demo_name_S1B 2.72) "VH" "S1B" "IW" "GRDH" "20170120T000000"
           (Datetime 2017 1 20 0 0 0) (demo_name_parts_S1B 2.72) eq_refl).
  - discriminate.
  - vm_compute. eexists. reflexivity.
Defined.

(** the message of [__init__] for an IPF version *)
Definition ipf_messages (version : float) : list event :=
  if (version <? 2.43)%float then [Print ERROR_IPF_lower_than_2_43]
  else if (2.43 <=? version)%float && (version <? 2.53)%float
       then [Print WARNING_IPF_lower_than_2_53]
       else [].

Lemma trace_nil {A} (m : M A) : (∀ ev, ev ∉ trace m) → trace m = [].
Proof. apply elem_of_nil_inv. Qed.

Section Init_facts.

Context {lib : Library}.
Context (fname : string) (x : gmap string PolData) (meas : gmap string (list (list nat))).
Context (auxp : gmap string (gmap string AuxCalibrationParams)).

(** what a construction that returns has checked *)
Definition accepted_name (cross : string) (ps : list string) (n : nat) : Prop :=
  let base := basename fname in
  slice 4 16 base ∈ supported_products
  ∧ (∃ pol_mode, split_on "_" base !! 3%nat = Some pol_mode
                 ∧ returns (pol_mode_table pol_mode) (cross, ps))
  ∧ returns (swath_count (slice 4 6 base)) n
  ∧ (∃ tok d, split_on "_" base !! 4%nat = Some tok ∧ strptime tok = inr d)
  ∧ (∃ tok d, split_on "_" base !! 5%nat = Some tok ∧ strptime tok = inr d).

Lemma init_accepted (version : float) (cross : string) (ps : list string) (n : nat) :
  accepted_name cross ps n →
  init fname version x meas auxp
  = (ipf_messages version,
     inr {| filename := fname; obsMode := slice 4 6 (basename fname); crosspol := cross;
            pols := ps; swath_ids := seq 1 n; IPFversion := version; xml := x;
            measurements := meas; aux_calibration_params := auxp |}).
Proof.
  intros (Hsup & (pm & Hpm & Htab) & Hn & (t4 & d4 & Ht4 & Hd4) & (t5 & d5 & Ht5 & Hd5)).
  unfold init. rewrite bool_decide_eq_true_2 by done. simpl negb. cbv iota.
  rewrite (getitem_Some _ _ _ Hpm), ret_bind.
  assert (pol_mode_table pm = mret (cross, ps)) as ->.
  { revert Htab. unfold pol_mode_table.
    repeat (destruct (String.eqb pm _); [by intros [= <- <-]%returns_ret|]).
    by intros ?%returns_raise. }
  rewrite ret_bind.
  assert (swath_count (slice 4 6 (basename fname)) = mret n) as ->.
  { revert Hn. unfold swath_count.
    repeat (destruct (String.eqb _ _); [by intros <-%returns_ret|]).
    by intros ?%returns_raise. }
  rewrite ret_bind, (getitem_Some _ _ _ Ht4), ret_bind, Hd4.
  change (lift (inr d4)) with (mret (M := M) d4). rewrite ret_bind.
  rewrite (getitem_Some _ _ _ Ht5), ret_bind, Hd5.
  change (lift (inr d5)) with (mret (M := M) d5). rewrite ret_bind.
  unfold ipf_messages. destruct (version <? 2.43)%float; [reflexivity|].
  destruct ((2.43 <=? version)%float && (version <? 2.53)%float); reflexivity.
Qed.

Lemma init_returns_accepted (version : float) (s : Sentinel1Image) :
  returns (init fname version x meas auxp) s →
  accepted_name (crosspol s) (pols s) (length (swath_ids s)).
Proof.
  unfold init. destruct (bool_decide_reflect (slice 4 16 (basename fname) ∈ supported_products))
    as [Hsup|Hsup]; simpl negb; cbv iota; [|by intros ?%returns_raise].
  intros (pm & Hpm%returns_getitem & H)%returns_bind.
  apply returns_bind in H as ([cross ps] & Htab & H).
  apply returns_bind in H as (n & Hn & H).
  apply returns_bind in H as (t4 & Ht4%returns_getitem & H).
  apply returns_bind in H as (d4 & Hd4%returns_lift & H).
  apply returns_bind in H as (t5 & Ht5%returns_getitem & H).
  apply returns_bind in H as (d5 & Hd5%returns_lift & H).
  apply returns_bind in H as (u & _ & <-%returns_ret). simpl. rewrite length_seq.
  split; [done|]. split; [by exists pm|]. split; [done|]. split; by eexists _, _.
Qed.

End Init_facts.







(** * Swath identifiers of the noise vector pixels *)

Lemma put_indices_const {A} (row : list A) (idx : list nat) (c : A) (k : nat) :
  k ∈ idx → (k < length row)%nat →
  put_indices row idx (replicate (length idx) c) !! k = Some c.
Proof.
  revert row. induction idx as [|i idx IH]; intros row Hk Hlen; [by apply elem_of_nil in Hk|].
  change (put_indices row (i :: idx) (replicate (length (i :: idx)) c))
    with (put_indices (<[i:=c]> row) idx (replicate (length idx) c)).
  destruct (decide (k ∈ idx)) as [Hin|Hnin].
  - apply IH; [done|by rewrite length_insert].
  - apply elem_of_cons in Hk as [->|?]; [|done].
    rewrite (put_indices_frame (<[i:=c]> row) idx _ i Hnin).
    by apply list_lookup_insert_eq.
Qed.

Lemma replicate_shape {A B} (c : B) (pixel : list (list A)) :
  length <$> ((λ p : list A, replicate (length p) c) <$> pixel) = length <$> pixel.
Proof.
  rewrite <- list_fmap_compose. apply list_fmap_ext. intros _ p _. simpl.
  apply length_replicate.
Qed.

Section Swath_id_facts.

Context (line : list nat) (pixel : list (list nat)).

(** the body of the loop over the noise vectors of one block *)
Definition swath_id_step (iswath : nat) (b : block) (swath_indices : list (list nat))
    (v1 : nat) : M (list (list nat)) :=
  pix ← getitem pixel v1;
  row ← getitem swath_indices v1;
  let valid2 := np_where (pixel_in b) pix in
  mret (<[v1 := put_indices row valid2 (replicate (length valid2) (iswath + 1)%nat)]>
          swath_indices).

Definition same_shape_as (ids : list (list nat)) : Prop := length <$> ids = length <$> pixel.

Lemma same_shape_as_cell (ids : list (list nat)) (v k p : nat) :
  same_shape_as ids → cell pixel v k = Some p → is_Some (cell ids v k).
Proof.
  unfold same_shape_as, cell. intros Hs Hp.
  destruct (pixel !! v) as [pix|] eqn:Hpix; [|done]. simpl in Hp.
  assert ((length <$> ids) !! v = Some (length pix)) as Hl
    by (by rewrite Hs, list_lookup_fmap, Hpix).
  rewrite list_lookup_fmap in Hl. destruct (ids !! v) as [row|]; [|done].
  injection Hl as Hl. simpl. apply lookup_lt_is_Some. rewrite Hl. by eapply lookup_lt_Some.
Qed.

(** One iteration keeps the shape and writes [iswath + 1] at the pixels of
    vector [v1] that are in the range of the block, and nothing else. *)
Lemma swath_id_step_inv (iswath : nat) (b : block) (ids ids' : list (list nat)) (v1 : nat) :
  same_shape_as ids → returns (swath_id_step iswath b ids v1) ids' →
  same_shape_as ids'
  ∧ ∀ v k p, cell pixel v k = Some p →
      cell ids' v k = if bool_decide (v = v1) && pixel_in b p then Some (iswath + 1)%nat
                      else cell ids v k.
Proof.
  intros Hs (pix & Hpix%returns_getitem & H)%returns_bind.
  apply returns_bind in H as (row & Hrow%returns_getitem & <-%returns_ret).
  assert (length row = length pix) as Hlen.
  { assert ((length <$> ids) !! v1 = Some (length pix)) as Hl
      by (by rewrite Hs, list_lookup_fmap, Hpix).
    rewrite list_lookup_fmap, Hrow in Hl. by injection Hl. }
  split.
  - unfold same_shape_as. rewrite list_fmap_insert, length_put_indices.
    rewrite <- Hs. apply list_insert_id. by rewrite list_lookup_fmap, Hrow.
  - intros v k p Hp. unfold cell. destruct (decide (v = v1)) as [->|Hne].
    + rewrite bool_decide_eq_true_2 by done. simpl andb.
      rewrite list_lookup_insert_eq by (by eapply lookup_lt_Some). simpl.
      unfold cell in Hp. rewrite Hpix in Hp. simpl in Hp.
      destruct (pixel_in b p) eqn:Hin.
      * apply put_indices_const; [|rewrite Hlen; by eapply lookup_lt_Some].
        apply elem_of_np_where. by exists p.
      * rewrite put_indices_frame; [by rewrite Hrow|].
        intros (p' & Hp' & Hin')%elem_of_np_where. congruence.
    + rewrite bool_decide_eq_false_2 by done. simpl andb.
      by rewrite list_lookup_insert_ne.
Qed.

Context (bounds : list (string * list block)).

(** the three nested loops of [get_swath_id_vectors] *)
Definition swath_id_block (iswath : nat) (ids : list (list nat)) (b : block) :=
  for_each (np_where (line_in b) line) (swath_id_step iswath b) ids.
Definition swath_id_swath (ids : list (list nat)) (entry : nat * (string * list block)) :=
  for_each entry.2.2 (swath_id_block entry.1) ids.

(** a block of the swath at position [i] holds line [l], pixel [p] *)
Definition covered_by (i l p : nat) : Prop :=
  ∃ name blocks b, bounds !! i = Some (name, blocks) ∧ b ∈ blocks ∧ in_block b l p = true.

(** every value is 0 or the 1-based position of a swath that covers the pixel *)
Definition swath_ids_sound (ids : list (list nat)) : Prop :=
  same_shape_as ids
  ∧ ∀ v k p n, cell pixel v k = Some p → cell ids v k = Some n →
      n = 0%nat ∨ ∃ l i, line !! v = Some l ∧ n = S i ∧ covered_by i l p.

Lemma swath_id_block_sound (i : nat) (name : string) (blocks : list block) (b : block)
    (ids ids' : list (list nat)) :
  bounds !! i = Some (name, blocks) → b ∈ blocks →
  swath_ids_sound ids → returns (swath_id_block i ids b) ids' → swath_ids_sound ids'.
Proof.
  intros Hi Hb. unfold swath_id_block. apply for_each_invariant.
  intros acc v1 acc' Hv1 [Hs Hval] Hstep.
  destruct (swath_id_step_inv _ _ _ _ _ Hs Hstep) as [Hs' Hcell]. split; [done|].
  intros v k p n Hp. rewrite (Hcell v k p Hp).
  destruct (bool_decide_reflect (v = v1)) as [->|]; simpl andb; [|by apply Hval].
  destruct (pixel_in b p) eqn:Hin; [|by apply Hval].
  intros [= <-]. right. apply elem_of_np_where in Hv1 as (l & Hl & Hline).
  exists l, i. split; [done|]. split; [lia|]. exists name, blocks, b.
  split; [done|]. split; [done|]. unfold in_block. by rewrite Hline, Hin.
Qed.

Lemma swath_id_swath_sound (entry : nat * (string * list block)) (ids ids' : list (list nat)) :
  entry ∈ imap pair bounds →
  swath_ids_sound ids → returns (swath_id_swath ids entry) ids' → swath_ids_sound ids'.
Proof.
  intros (i & [name blocks] & -> & Hi)%elem_of_lookup_imap. unfold swath_id_swath. simpl.
  apply for_each_invariant. intros acc b acc' Hb. by apply (swath_id_block_sound i name blocks).
Qed.

(** a pixel that holds a swath number keeps holding one *)
Definition marked (v k : nat) (ids : list (list nat)) : Prop :=
  ∃ n, cell ids v k = Some (S n).

Lemma swath_id_step_marked (i : nat) (b : block) (ids ids' : list (list nat))
    (v1 v k p : nat) :
  cell pixel v k = Some p → same_shape_as ids →
  returns (swath_id_step i b ids v1) ids' →
  (marked v k ids ∨ (v = v1 ∧ pixel_in b p = true)) → marked v k ids'.
Proof.
  intros Hp Hs Hstep Hor. destruct (swath_id_step_inv _ _ _ _ _ Hs Hstep) as [_ Hcell].
  unfold marked. rewrite (Hcell v k p Hp).
  destruct (bool_decide_reflect (v = v1)) as [->|Hne]; simpl andb.
  - destruct (pixel_in b p) eqn:Hin; [exists i; f_equal; lia|].
    destruct Hor as [?|[_ ?]]; [done|discriminate].
  - destruct Hor as [?|[? _]]; done.
Qed.

Lemma swath_id_block_shape (i : nat) (b : block) (ids ids' : list (list nat)) :
  same_shape_as ids → returns (swath_id_block i ids b) ids' → same_shape_as ids'.
Proof.
  unfold swath_id_block. apply for_each_invariant. intros acc v1 acc' _ Hs Hstep.
  by destruct (swath_id_step_inv _ _ _ _ _ Hs Hstep).
Qed.

Lemma swath_id_swath_shape (entry : nat * (string * list block)) (ids ids' : list (list nat)) :
  same_shape_as ids → returns (swath_id_swath ids entry) ids' → same_shape_as ids'.
Proof.
  unfold swath_id_swath. apply for_each_invariant. intros acc b acc' _.
  apply swath_id_block_shape.
Qed.

Lemma swath_id_block_keeps (i : nat) (b : block) (ids ids' : list (list nat)) (v k p : nat) :
  cell pixel v k = Some p → same_shape_as ids → marked v k ids →
  returns (swath_id_block i ids b) ids' → marked v k ids'.
Proof.
  intros Hp Hs Hm Hret.
  assert (same_shape_as ids' ∧ marked v k ids') as [_ ?]; [|done].
  revert Hret. unfold swath_id_block.
  apply (for_each_invariant (λ c, same_shape_as c ∧ marked v k c)); [|done].
  intros acc v1 acc' _ [Hs' Hm'] Hstep. split.
  - by destruct (swath_id_step_inv _ _ _ _ _ Hs' Hstep).
  - eapply swath_id_step_marked; [done|done|done|by left].
Qed.

Lemma swath_id_swath_keeps (entry : nat * (string * list block)) (ids ids' : list (list nat))
    (v k p : nat) :
  cell pixel v k = Some p → same_shape_as ids → marked v k ids →
  returns (swath_id_swath ids entry) ids' → marked v k ids'.
Proof.
  intros Hp Hs Hm Hret.
  assert (same_shape_as ids' ∧ marked v k ids') as [_ ?]; [|done].
  revert Hret. unfold swath_id_swath.
  apply (for_each_invariant (λ c, same_shape_as c ∧ marked v k c)); [|done].
  intros acc b acc' _ [Hs' Hm'] Hstep. split.
  - by eapply swath_id_block_shape.
  - by eapply swath_id_block_keeps.
Qed.

Lemma swath_id_block_marks (i : nat) (b : block) (ids ids' : list (list nat)) (v k l p : nat) :
  line !! v = Some l → cell pixel v k = Some p → in_block b l p = true →
  same_shape_as ids → returns (swath_id_block i ids b) ids' → marked v k ids'.
Proof.
  intros Hl Hp [Hline Hpix]%andb_true_iff Hs. unfold swath_id_block.
  apply (for_each_establish same_shape_as (marked v k) _ _ v).
  - apply elem_of_np_where. by exists l.
  - done.
  - intros acc y acc' _ Hs' Hstep. by destruct (swath_id_step_inv _ _ _ _ _ Hs' Hstep).
  - intros acc acc' Hs' Hstep. eapply swath_id_step_marked; [done|done|done|by right].
  - intros acc y acc' _ Hs' Hm Hstep. eapply swath_id_step_marked; [done|done|done|by left].
Qed.

Lemma swath_id_loops (init out : list (list nat)) :
  swath_ids_sound init →
  returns (for_each (imap pair bounds) swath_id_swath init) out →
  swath_ids_sound out
  ∧ ∀ v k l p i, line !! v = Some l → cell pixel v k = Some p → covered_by i l p →
      marked v k out.
Proof.
  intros Hinit Hret. split.
  - revert Hret. apply for_each_invariant; [|done].
    intros acc entry acc' Hentry. by apply swath_id_swath_sound.
  - intros v k l p i Hl Hp (name & blocks & b & Hi & Hb & Hin). revert Hret.
    apply (for_each_establish same_shape_as (marked v k) _ _ (i, (name, blocks))).
    + apply elem_of_lookup_imap. by exists i, (name, blocks).
    + by destruct Hinit.
    + intros acc y acc' _. apply swath_id_swath_shape.
    + intros acc acc' Hs. unfold swath_id_swath. simpl.
      apply (for_each_establish same_shape_as (marked v k) _ _ b); [done|done|..].
      * intros c y c' _. apply swath_id_block_shape.
      * intros c c' Hs'. by eapply swath_id_block_marks.
      * intros c y c' _ Hs' Hm. by eapply swath_id_block_keeps.
    + intros acc y acc' _ Hs Hm. by eapply swath_id_swath_keeps.
Qed.

End Swath_id_facts.

(** X11. The vectors of [get_swath_id_vectors] have the shape of the pixel
    vectors of the noise annotation. A pixel of a noise vector holds 0 exactly
    when no block of the swath bounds contains its line and pixel number;
    otherwise it holds the 1-based position, in the swath bounds, of a swath
    one of whose blocks contains it. *)
Theorem get_swath_id_vectors_values (s : Sentinel1Image) (pol : string) (d : PolData)
    (ids : list (list nat)) :
  xml s !! pol = Some d →
  returns (get_swath_id_vectors s pol) ids →
  length <$> ids = length <$> nr_pixel (noise_range d)
  ∧ ∀ v k l p, nr_line (noise_range d) !! v = Some l →
      cell (nr_pixel (noise_range d)) v k = Some p →
      ∃ n, cell ids v k = Some n
           ∧ (n = 0%nat ↔ ∀ i, ¬ covered_by (swath_bounds d) i l p)
           ∧ (n ≠ 0%nat → covered_by (swath_bounds d) (n - 1) l p).
Proof.
  intros Hd. unfold get_swath_id_vectors. rewrite (subscript_Some _ _ _ Hd), ret_bind.
  intros Hret.
  destruct (swath_id_loops (nr_line (noise_range d)) (nr_pixel (noise_range d))
              (swath_bounds d) ((λ p, replicate (length p) 0%nat) <$> nr_pixel (noise_range d))
              ids) as [[Hs Hval] Hmark]; [|exact Hret|].
  { split.
    - apply replicate_shape.
    - intros v k p n Hp. unfold cell. rewrite list_lookup_fmap.
      destruct (nr_pixel (noise_range d) !! v) as [pix|]; [|done]. simpl.
      intros [-> _]%lookup_replicate. by left. }
  split; [exact Hs|]. intros v k l p Hl Hp.
  destruct (same_shape_as_cell _ _ _ _ _ Hs Hp) as [n Hn]. exists n. split; [done|].
  assert (n ≠ 0%nat → covered_by (swath_bounds d) (n - 1) l p) as Hcov.
  { intros Hne. destruct (Hval v k p n Hp Hn) as [->|(l' & i & Hl' & -> & Hc)]; [done|].
    rewrite Hl in Hl'. injection Hl' as <-. by replace (S i - 1)%nat with i by lia. }
  split; [|done]. split.
  - intros -> i Hc. destruct (Hmark v k l p i Hl Hp Hc) as [m Hm]. congruence.
  - intros Hnone. destruct (decide (n = 0%nat)) as [|Hne]; [done|].
    by destruct (Hnone _ (Hcov Hne)).
Qed.

Lemma get_swath_id_vectors_values_witness :
  ∃ ids, returns (get_swath_id_vectors (demo_image demo_name_S1A 2.9) "VH") ids
         ∧ length <$> ids = [24%nat]
         ∧ cell ids 0 13 = Some 2%nat ∧ cell ids 0 22 = Some 0%nat.
Proof.
  eexists. split; [vm_compute; reflexivity|].
  match goal with |- length <$> ?ids = _ ∧ _ =>
    destruct (get_swath_id_vectors_values (demo_image demo_name_S1A 2.9) "VH" demo_pol ids
                eq_refl ltac:(vm_compute; reflexivity)) as [Hs _]
  end.
  split; [exact Hs|]. split; reflexivity.
Defined.

(** * Calibration on the noise vector pixels *)

Lemma shape_cell_is_Some {A B} (a : list (list A)) (b : list (list B)) (v k : nat) (y : B) :
  length <$> a = length <$> b → cell b v k = Some y → is_Some (cell a v k).
Proof.
  unfold cell. intros Hs Hy. destruct (b !! v) as [rowb|] eqn:Hb; [|done]. simpl in Hy.
  assert ((length <$> a) !! v = Some (length rowb)) as Hl
    by (by rewrite Hs, list_lookup_fmap, Hb).
  rewrite list_lookup_fmap in Hl. destruct (a !! v) as [row|]; [|done].
  injection Hl as Hl. simpl. apply lookup_lt_is_Some. rewrite Hl. by eapply lookup_lt_Some.
Qed.

Section Calibration_facts.

Context {lib : Library}.
Context (s : Sentinel1Image) (pol : string) (d : PolData).
Context (Hd : xml s !! pol = Some d).

Abbreviation cline := (nr_line (noise_range d)).
Abbreviation cpixel := (nr_pixel (noise_range d)).

(** the body of the loop over the noise vectors of one block *)
Definition calibration_step (f : float → float → float) (b : block)
    (sigma0_vecs : list (list float)) (v1 : nat) : M (list (list float)) :=
  pix ← getitem cpixel v1;
  let valid2 := np_where (pixel_in b) pix in
  l ← getitem cline v1;
  ps ← take_indices pix valid2;
  vals ← grid_row f l ps;
  row ← getitem sigma0_vecs v1;
  mret (<[v1 := put_indices row valid2 vals]> sigma0_vecs).

(** One iteration keeps the shape and writes, at the pixels of vector [v1] in
    the range of the block, the interpolator at the line of the vector and the
    pixel number. *)
Lemma calibration_step_inv (f : float → float → float) (b : block)
    (vecs vecs' : list (list float)) (v1 : nat) :
  length <$> vecs = length <$> cpixel → returns (calibration_step f b vecs v1) vecs' →
  length <$> vecs' = length <$> cpixel
  ∧ ∃ l, cline !! v1 = Some l
      ∧ ∀ v k p, cell cpixel v k = Some p →
          cell vecs' v k = if bool_decide (v = v1) && pixel_in b p
                           then Some (f (Float.of_nat l) (Float.of_nat p))
                           else cell vecs v k.
Proof.
  intros Hs (pix & Hpix%returns_getitem & H)%returns_bind.
  apply returns_bind in H as (l & Hl%returns_getitem & H).
  apply returns_bind in H as (ps & Hps%returns_take_indices & H).
  apply returns_bind in H as (vals & Hvals & H).
  apply returns_bind in H as (row & Hrow%returns_getitem & <-%returns_ret).
  assert (vals = (λ p, f (Float.of_nat l) (Float.of_nat p)) <$> ps) as ->.
  { revert Hvals. unfold grid_row. destruct (nondecreasing ps); [by intros <-%returns_ret|].
    by intros ?%returns_raise. }
  assert (length row = length pix) as Hlen.
  { assert ((length <$> vecs) !! v1 = Some (length pix)) as Hl'
      by (by rewrite Hs, list_lookup_fmap, Hpix).
    rewrite list_lookup_fmap, Hrow in Hl'. by injection Hl'. }
  split.
  - rewrite list_fmap_insert, length_put_indices.
    rewrite <- Hs. apply list_insert_id. by rewrite list_lookup_fmap, Hrow.
  - exists l. split; [done|]. intros v k p Hp. unfold cell.
    destruct (decide (v = v1)) as [->|Hne].
    + rewrite bool_decide_eq_true_2 by done. simpl andb.
      rewrite list_lookup_insert_eq by (by eapply lookup_lt_Some). simpl.
      unfold cell in Hp. rewrite Hpix in Hp. simpl in Hp.
      destruct (pixel_in b p) eqn:Hin.
      * rewrite (put_indices_lookup ((λ p, f (Float.of_nat l) (Float.of_nat p)) <$> pix)).
        -- by rewrite list_lookup_fmap, Hp.
        -- apply Forall2_fmap_r. eapply Forall2_impl; [exact Hps|].
           intros i x Hi. simpl. by rewrite list_lookup_fmap, Hi.
        -- apply elem_of_np_where. by exists p.
        -- rewrite Hlen. by eapply lookup_lt_Some.
      * rewrite put_indices_frame; [by rewrite Hrow|].
        intros (p' & Hp' & Hin')%elem_of_np_where. congruence.
    + rewrite bool_decide_eq_false_2 by done. simpl andb.
      by rewrite list_lookup_insert_ne.
Qed.

(** [x] is the calibration interpolator of a swath of the product, one of
    whose blocks contains line [l], pixel [p], evaluated there *)
Definition calibrated_by (l p : nat) (x : float) : Prop :=
  ∃ name f coords b,
    name ∈ swath_name_of s <$> swath_ids s
    ∧ returns (get_swath_interpolator s pol name (cal_line (calibration d))
                 (cal_pixel (calibration d)) (sigmaNought (calibration d))) (f, coords)
    ∧ b ∈ coords ∧ in_block b l p = true
    ∧ x = f (Float.of_nat l) (Float.of_nat p).

Abbreviation swath_interpolator name :=
  (get_swath_interpolator s pol name (cal_line (calibration d)) (cal_pixel (calibration d))
     (sigmaNought (calibration d))).

Context (v k l p : nat).
Context (Hl : cline !! v = Some l) (Hp : cell cpixel v k = Some p).

(** the pixel holds the initial NaN or a calibration value *)
Definition calibration_sound (vecs : list (list float)) : Prop :=
  length <$> vecs = length <$> cpixel
  ∧ ∃ x, cell vecs v k = Some x ∧ (x = Float.nan ∨ calibrated_by l p x).

(** the pixel holds a calibration value *)
Definition calibration_done (vecs : list (list float)) : Prop :=
  length <$> vecs = length <$> cpixel ∧ ∃ x, cell vecs v k = Some x ∧ calibrated_by l p x.

Section One_block.

Context (name : string) (f : float → float → float) (coords : list block) (b : block).
Context (Hname : name ∈ swath_name_of s <$> swath_ids s).
Context (Hf : returns (swath_interpolator name) (f, coords)) (Hb : b ∈ coords).

Lemma calibration_step_facts (vecs vecs' : list (list float)) (v1 : nat) :
  v1 ∈ np_where (line_in b) cline →
  length <$> vecs = length <$> cpixel → returns (calibration_step f b vecs v1) vecs' →
  length <$> vecs' = length <$> cpixel
  ∧ (cell vecs' v k = cell vecs v k ∨ calibration_done vecs')
  ∧ (v = v1 → pixel_in b p = true → calibration_done vecs').
Proof.
  intros (l1 & Hl1 & Hline)%elem_of_np_where Hs Hstep.
  destruct (calibration_step_inv _ _ _ _ _ Hs Hstep) as (Hs' & l' & Hl' & Hcell).
  split; [done|]. specialize (Hcell v k p Hp).
  destruct (bool_decide_reflect (v = v1)) as [<-|Hne]; simpl andb in Hcell.
  - destruct (pixel_in b p) eqn:Hin.
    + assert (calibration_done vecs') as Hdone.
      { split; [done|]. eexists. split; [exact Hcell|].
        exists name, f, coords, b. rewrite Hl in Hl', Hl1.
        injection Hl' as <-. injection Hl1 as <-.
        repeat (split; [done|]). split; [|done]. unfold in_block. by rewrite Hline, Hin. }
      split; [by right|done].
    + split; [by left|done].
  - split; [by left|done].
Qed.

Lemma calibration_block_facts (vecs vecs' : list (list float)) :
  returns (for_each (np_where (line_in b) cline) (calibration_step f b) vecs) vecs' →
  (calibration_sound vecs → calibration_sound vecs')
  ∧ (calibration_done vecs → calibration_done vecs')
  ∧ (length <$> vecs = length <$> cpixel → in_block b l p = true → calibration_done vecs').
Proof.
  intros Hret. split; [|split].
  - intros Hsound. revert Hret. apply for_each_invariant; [|done].
    intros acc v1 acc' Hv1 [Hs (x & Hx & Hor)] Hstep.
    destruct (calibration_step_facts _ _ _ Hv1 Hs Hstep) as (Hs' & [Heq|[_ (y & Hy & Hc)]] & _).
    + split; [done|]. exists x. by rewrite Heq.
    + split; [done|]. exists y. split; [done|by right].
  - intros Hdone. revert Hret. apply for_each_invariant; [|done].
    intros acc v1 acc' Hv1 [Hs (x & Hx & Hc)] Hstep.
    destruct (calibration_step_facts _ _ _ Hv1 Hs Hstep) as (Hs' & [Heq|Hdone'] & _); [|done].
    split; [done|]. exists x. by rewrite Heq.
  - intros Hs [Hline Hpix]%andb_true_iff. revert Hret.
    apply (for_each_establish (λ c, length <$> c = length <$> cpixel) calibration_done _ _ v).
    + apply elem_of_np_where. by exists l.
    + done.
    + intros acc v1 acc' Hv1 Hs' Hstep.
      by destruct (calibration_step_facts _ _ _ Hv1 Hs' Hstep).
    + intros acc acc' Hs' Hstep.
      assert (v ∈ np_where (line_in b) cline) as Hv1
        by (apply elem_of_np_where; by exists l).
      destruct (calibration_step_facts _ _ _ Hv1 Hs' Hstep) as (_ & _ & Hdone). by apply Hdone.
    + intros acc v1 acc' Hv1 Hs' [_ (x & Hx & Hc)] Hstep.
      destruct (calibration_step_facts _ _ _ Hv1 Hs' Hstep) as (Hs'' & [Heq|Hdone'] & _);
        [|done].
      split; [done|]. exists x. by rewrite Heq.
Qed.

End One_block.

(** the body of the loop over the swaths *)
Definition calibration_swath (vecs : list (list float)) (swath_name : string)
    : M (list (list float)) :=
  '(sigma0interp, swath_coords) ← swath_interpolator swath_name;
  for_each swath_coords
    (λ vecs b, for_each (np_where (line_in b) cline) (calibration_step sigma0interp b) vecs)
    vecs.

Lemma calibration_done_shape (vecs : list (list float)) :
  calibration_done vecs → length <$> vecs = length <$> cpixel.
Proof. by intros [? _]. Qed.

Lemma calibration_swath_facts (name : string) (vecs vecs' : list (list float)) :
  name ∈ swath_name_of s <$> swath_ids s →
  returns (calibration_swath vecs name) vecs' →
  (calibration_sound vecs → calibration_sound vecs')
  ∧ (calibration_done vecs → calibration_done vecs')
  ∧ (length <$> vecs = length <$> cpixel →
     ∀ f coords b, returns (swath_interpolator name) (f, coords) → b ∈ coords →
       in_block b l p = true → calibration_done vecs').
Proof.
  intros Hname ([f coords] & Hf & Hret)%returns_bind. cbv beta iota in Hret.
  split; [|split].
  - intros Hsound. revert Hret. apply for_each_invariant; [|done].
    intros acc b acc' Hb Hacc Hblock.
    destruct (calibration_block_facts name f coords b Hname Hf Hb _ _ Hblock) as (H & _).
    by apply H.
  - intros Hdone. revert Hret. apply for_each_invariant; [|done].
    intros acc b acc' Hb Hacc Hblock.
    destruct (calibration_block_facts name f coords b Hname Hf Hb _ _ Hblock)
      as (_ & H & _). by apply H.
  - intros Hs f' coords' b Hf' Hb Hin.
    pose proof (returns_functional _ _ _ Hf Hf') as Heq. injection Heq as <- <-.
    revert Hret.
    apply (for_each_establish (λ c, length <$> c = length <$> cpixel) calibration_done _ _ b);
      [done|done|..].
    + intros acc b' acc' Hb'.
      apply (for_each_invariant (λ c, length <$> c = length <$> cpixel)).
      intros c v1 c' Hv1 Hc Hstep.
      by destruct (calibration_step_facts name f coords b' Hname Hf Hb' _ _ _ Hv1 Hc Hstep).
    + intros acc acc' Hacc Hblock.
      destruct (calibration_block_facts name f coords b Hname Hf Hb _ _ Hblock)
        as (_ & _ & H). by apply H.
    + intros acc b' acc' Hb' _ Hdone Hblock.
      destruct (calibration_block_facts name f coords b' Hname Hf Hb' _ _ Hblock)
        as (_ & H & _). by apply H.
Qed.

Lemma calibration_loops (vecs : list (list float)) :
  returns (for_each (swath_name_of s <$> swath_ids s) calibration_swath
             ((λ p_vec : list nat, replicate (length p_vec) Float.nan) <$> cpixel)) vecs →
  calibration_sound vecs ∧ ((∃ y, calibrated_by l p y) → calibration_done vecs).
Proof.
  intros Hret.
  assert (length <$> ((λ p_vec : list nat, replicate (length p_vec) Float.nan) <$> cpixel)
          = length <$> cpixel) as Hs0 by apply replicate_shape.
  split.
  - revert Hret. apply for_each_invariant.
    + intros acc name acc' Hname Hacc Hswath.
      destruct (calibration_swath_facts _ _ _ Hname Hswath) as (H & _). by apply H.
    + split; [done|]. destruct (shape_cell_is_Some _ _ _ _ _ Hs0 Hp) as [x Hx].
      exists x. split; [done|]. left. revert Hx. unfold cell. rewrite list_lookup_fmap.
      destruct (cpixel !! v) as [pix|]; [|done]. simpl.
      by intros [-> _]%lookup_replicate.
  - intros (y & name & f & coords & b & Hname & Hf & Hb & Hin & _). revert Hret.
    apply (for_each_establish (λ c, length <$> c = length <$> cpixel) calibration_done _ _ name);
      [done|done|..].
    + intros acc name' acc' Hname' Hacc ([f' coords'] & Hf' & Hret)%returns_bind.
      cbv beta iota in Hret. revert Hret.
      apply (for_each_invariant (λ c, length <$> c = length <$> cpixel)); [|done].
      intros c b' c' Hb'.
      apply (for_each_invariant (λ c, length <$> c = length <$> cpixel)).
      intros c1 v1 c1' Hv1 Hc1 Hstep.
      by destruct (calibration_step_facts name' f' coords' b' Hname' Hf' Hb' _ _ _ Hv1 Hc1 Hstep).
    + intros acc acc' Hacc Hswath.
      destruct (calibration_swath_facts _ _ _ Hname Hswath) as (_ & _ & H). by eapply H.
    + intros acc name' acc' Hname' _ Hdone Hswath.
      destruct (calibration_swath_facts _ _ _ Hname' Hswath) as (_ & H & _). by apply H.
Qed.

End Calibration_facts.

(** X12. The vectors of [get_calibration_vectors] have the shape of the pixel
    vectors of the noise annotation. A pixel that a block of a swath of the
    product contains holds the calibration interpolator of such a swath,
    evaluated at the line of the vector and the pixel number; every other
    pixel holds NaN, in particular every pixel outside every block of the
    swath bounds. *)
Theorem get_calibration_vectors_values {lib : Library} (s : Sentinel1Image) (pol : string)
    (d : PolData) (vecs : list (list float)) :
  xml s !! pol = Some d →
  returns (get_calibration_vectors s pol) vecs →
  length <$> vecs = length <$> nr_pixel (noise_range d)
  ∧ ∀ v k l p, nr_line (noise_range d) !! v = Some l →
      cell (nr_pixel (noise_range d)) v k = Some p →
      ∃ x, cell vecs v k = Some x
           ∧ ((∃ y, calibrated_by s pol d l p y) → calibrated_by s pol d l p x)
           ∧ (¬ (∃ y, calibrated_by s pol d l p y) → x = Float.nan)
           ∧ ((∀ b, swath_block d b → in_block b l p = false) → x = Float.nan).
Proof.
  intros Hd. unfold get_calibration_vectors. rewrite (subscript_Some _ _ _ Hd), ret_bind.
  intros Hret.
  assert (∀ v k l p, nr_line (noise_range d) !! v = Some l →
            cell (nr_pixel (noise_range d)) v k = Some p →
            calibration_sound s pol d v k l p vecs
            ∧ ((∃ y, calibrated_by s pol d l p y) → calibration_done s pol d v k l p vecs))
    as Hall.
  { intros v k l p Hl Hp. by apply (calibration_loops s pol d v k l p Hl Hp). }
  split.
  - revert Hret.
    apply (for_each_invariant (λ c, length <$> c = length <$> nr_pixel (noise_range d)));
      [|apply replicate_shape].
    intros acc name acc' _ Hacc ([f coords] & _ & Hloop)%returns_bind. revert Hloop.
    apply (for_each_invariant (λ c, length <$> c = length <$> nr_pixel (noise_range d)));
      [|done].
    intros c b c' _.
    apply (for_each_invariant (λ c, length <$> c = length <$> nr_pixel (noise_range d))).
    intros c1 v1 c1' _ Hc1 Hstep. eapply calibration_step_inv in Hstep as [? _]; done.
  - intros v k l p Hl Hp. destruct (Hall v k l p Hl Hp) as [[Hs (x & Hx & Hor)] Hdone].
    exists x. split; [done|]. split; [|split].
    + intros Hy. destruct (Hdone Hy) as [_ (x' & Hx' & Hc)]. congruence.
    + intros Hno. destruct Hor as [->|Hc]; [done|]. destruct Hno. by exists x.
    + intros Hout. destruct Hor as [->|(name & f & coords & b & _ & Hf & Hb & Hin & _)]; [done|].
      rewrite (Hout b) in Hin; [done|]. exists name, coords. split; [|done].
      by eapply get_swath_interpolator_coords.
Qed.

Lemma get_calibration_vectors_values_witness :
  ∃ vecs, returns (get_calibration_vectors (lib := demo_library)
                     (demo_image demo_name_S1A 2.9) "VH") vecs
          ∧ length <$> vecs = [24%nat] ∧ cell vecs 0 22 = Some Float.nan.
Proof.
  eexists. split; [vm_compute; reflexivity|].
  match goal with |- length <$> ?vecs = _ ∧ _ =>
    destruct (get_calibration_vectors_values (lib := demo_library)
                (demo_image demo_name_S1A 2.9) "VH" demo_pol vecs
                eq_refl ltac:(vm_compute; reflexivity)) as [Hs Hc]
  end.
  split; [exact Hs|].
  destruct (Hc 0 22 0 22 eq_refl eq_refl)%nat as (x & Hx & _ & _ & Hnan).
  rewrite Hx. f_equal. apply Hnan. apply (demo_outside_blocks 0). lia.
Defined.

(** * The focused burst length of every swath *)

Section Burst_facts.

Context (nominal : Z) (interval : float).
Context (Hnominal : (0 < nominal)%Z).

(** the body of the loop over [inputDimensions] *)
Definition burst_step (acc : gmap string float) (dims : string * Z) : M (gmap string float) :=
  t ← burst_length nominal interval dims.2;
  mret (<[dims.1 := t]> acc).

(** [t] is the burst length of a swath with [n] input lines *)
Definition burst_length_of (n : Z) (t : float) : Prop :=
  ∃ b, largest_divisor_upto n (n / nominal) b
       ∧ t = (Float.of_Z n / Float.of_Z b * interval)%float.

Lemma burst_step_returns (acc : gmap string float) (dims : string * Z) :
  (nominal ≤ dims.2)%Z →
  ∃ t, burst_length_of dims.2 t ∧ burst_step acc dims = mret (<[dims.1 := t]> acc).
Proof.
  intros Hle. destruct (numberOfBursts_largest_divisor nominal dims.2) as (b & Hb & Hl); [lia|].
  exists (Float.of_Z dims.2 / Float.of_Z b * interval)%float. split; [by exists b|].
  unfold burst_step. destruct Hl as (? & ? & ?).
  by rewrite (burst_length_divides nominal dims.2 b interval Hb), ret_bind by (done || lia).
Qed.

Lemma burst_step_raises (acc : gmap string float) (dims : string * Z) :
  (dims.2 < nominal)%Z →
  outcome (burst_step acc dims) = inl (ValueError "max() arg is an empty sequence").
Proof.
  intros Hlt. unfold burst_step, burst_length.
  by rewrite numberOfBursts_empty by done.
Qed.

Lemma burst_loop_returns (l : list (string * Z)) (acc : gmap string float) :
  Forall (λ dims, (nominal ≤ dims.2)%Z) l →
  ∃ r, returns (for_each l burst_step acc) r
       ∧ (∀ swath, is_Some (r !! swath) ↔ is_Some (acc !! swath) ∨ swath ∈ l.*1)
       ∧ (∀ swath t, r !! swath = Some t →
            acc !! swath = Some t ∨ ∃ n, (swath, n) ∈ l ∧ burst_length_of n t).
Proof.
  intros Hall. revert acc. induction Hall as [|[swath0 n0] l Hle Hall IH]; intros acc.
  - exists acc. split; [by apply returns_ret|]. split.
    + intros swath. rewrite fmap_nil, elem_of_nil. tauto.
    + intros swath t Ht. by left.
  - destruct (burst_step_returns acc (swath0, n0) Hle) as (t0 & Ht0 & Hstep).
    destruct (IH (<[swath0 := t0]> acc)) as (r & Hr & Hdom & Hval).
    exists r. split; [|split].
    + cbn [for_each]. by rewrite Hstep, ret_bind.
    + intros swath. rewrite Hdom, fmap_cons, elem_of_cons. simpl.
      destruct (decide (swath = swath0)) as [->|Hne].
      * rewrite lookup_insert_eq. split; [by right; left|by left].
      * rewrite lookup_insert_ne by done. tauto.
    + intros swath t Ht. destruct (Hval swath t Ht) as [Hins|(n & Hin & Hn)].
      * destruct (decide (swath = swath0)) as [->|Hne].
        -- rewrite lookup_insert_eq in Hins. injection Hins as <-.
           right. exists n0. split; [by left|done].
        -- rewrite lookup_insert_ne in Hins by done. by left.
      * right. exists n. split; [by right|done].
Qed.

Lemma burst_loop_raises (l : list (string * Z)) (acc : gmap string float) :
  Exists (λ dims, (dims.2 < nominal)%Z) l →
  outcome (for_each l burst_step acc) = inl (ValueError "max() arg is an empty sequence").
Proof.
  revert acc. induction l as [|dims l IH]; intros acc Hex; [by apply Exists_nil in Hex|].
  cbn [for_each]. destruct (decide (dims.2 < nominal)%Z) as [Hlt|Hge].
  - by apply outcome_bind_raise, burst_step_raises.
  - destruct (burst_step_returns acc dims) as (t & _ & ->); [lia|]. rewrite ret_bind.
    apply IH. by apply Exists_cons in Hex as [?|?].
Qed.

End Burst_facts.

(** X13. [focusedBurstLengthInTime] with a nonzero azimuth frequency: when
    every swath has at least the nominal number of input lines (1450 for IW,
    1100 for EW) it returns a dictionary with exactly the swaths of
    [inputDimensions], each value the input lines of an entry of that swath
    divided by their largest divisor not above [lines // nominal], times
    [1 / azimuthFrequency]; when some swath has fewer lines it raises the
    [ValueError] of [max] on an empty list. A zero azimuth frequency raises
    [ZeroDivisionError]. *)
Theorem focusedBurstLengthInTime_outcome (s : Sentinel1Image) (pol : string) (d : PolData)
    (nominal : Z) :
  xml s !! pol = Some d →
  returns (nominalLinesPerBurst (obsMode s)) nominal →
  ((azimuthFrequency d =? 0)%float = true →
     outcome (focusedBurstLengthInTime s pol) = inl ZeroDivisionError)
  ∧ ((azimuthFrequency d =? 0)%float = false →
     (Forall (λ dims, (nominal ≤ dims.2)%Z) (inputDimensions d) →
        ∃ r, returns (focusedBurstLengthInTime s pol) r
             ∧ (∀ swath, is_Some (r !! swath) ↔ swath ∈ (inputDimensions d).*1)
             ∧ (∀ swath t, r !! swath = Some t →
                  ∃ n, (swath, n) ∈ inputDimensions d
                       ∧ burst_length_of nominal (1 / azimuthFrequency d)%float n t))
     ∧ (Exists (λ dims, (dims.2 < nominal)%Z) (inputDimensions d) →
        outcome (focusedBurstLengthInTime s pol)
        = inl (ValueError "max() arg is an empty sequence"))).
Proof.
  intros Hd Hmode. pose proof (nominalLinesPerBurst_values _ _ Hmode) as Hnom.
  assert (0 < nominal)%Z as Hpos by (destruct Hnom; lia).
  unfold focusedBurstLengthInTime. rewrite (subscript_Some _ _ _ Hd), ret_bind.
  unfold py_truediv. split.
  - by intros ->.
  - intros ->. rewrite ret_bind.
    assert (nominalLinesPerBurst (obsMode s) = mret nominal) as ->.
    { revert Hmode. unfold nominalLinesPerBurst.
      repeat (destruct (String.eqb _ _); [by intros <-%returns_ret|]).
      by intros ?%returns_raise. }
    rewrite ret_bind. split.
    + intros Hall.
      destruct (burst_loop_returns nominal (1 / azimuthFrequency d)%float Hpos
                  (inputDimensions d) ∅ Hall) as (r & Hr & Hdom & Hval).
      exists r. split; [exact Hr|]. split.
      * intros swath. rewrite Hdom, lookup_empty. split; [intros [[? [=]]|?]; done|by right].
      * intros swath t Ht. destruct (Hval swath t Ht) as [Hemp|?]; [|done].
        by rewrite lookup_empty in Hemp.
    + intros Hex. by apply (burst_loop_raises nominal (1 / azimuthFrequency d)%float Hpos).
Qed.

Lemma focusedBurstLengthInTime_outcome_witness :
  (∃ r, returns (focusedBurstLengthInTime (demo_image demo_name_S1A 2.9) "VH") r
        ∧ ∀ swath, is_Some (r !! swath) ↔ swath ∈ ["IW1"; "IW2"; "IW3"]).
Proof.
  destruct (focusedBurstLengthInTime_outcome (demo_image demo_name_S1A 2.9) "VH" demo_pol 1450
              eq_refl eq_refl) as [_ Hnz].
  destruct (Hnz eq_refl) as [Hret _].
  destruct Hret as (r & Hr & Hdom & _).
  - repeat constructor; simpl; lia.
  - exists r. split; [exact Hr|exact Hdom].
Defined.

(** * The total gain algorithm and the coefficient file *)

Section Total_gain_facts.

Context {lib : Library} (params : gmap string (gmap string json)).
Context (s : Sentinel1Image) (pol : string) (d : PolData).
Context (Hd : xml s !! pol = Some d).

Lemma get_tg_scales_offsets_missing :
  params !! apg_key s = None →
  outcome (get_tg_scales_offsets params s) = inl (KeyError (apg_key s)).
Proof.
  intros Hnone. unfold get_tg_scales_offsets, params_getitem, subscript. by rewrite Hnone.
Qed.

Lemma get_noise_tg_vectors_missing :
  params !! apg_key s = None →
  outcome (get_noise_tg_vectors params s pol) = inl (KeyError (apg_key s)).
Proof.
  intros Hnone. unfold get_noise_tg_vectors. rewrite (subscript_Some _ _ _ Hd), ret_bind.
  by apply outcome_bind_raise, get_tg_scales_offsets_missing.
Qed.

Lemma get_nesz_full_size_TG_missing :
  params !! apg_key s = None →
  outcome (get_nesz_full_size params s pol "NERSC_TG") = inl (KeyError (apg_key s)).
Proof.
  intros Hnone. unfold get_nesz_full_size. apply outcome_bind_raise.
  unfold select_noise. rewrite (subscript_Some _ _ _ Hd), ret_bind. simpl.
  by apply outcome_bind_raise, get_noise_tg_vectors_missing.
Qed.

End Total_gain_facts.

(** X14. With the algorithm [NERSC_TG], a coefficient file without the entry
    [<first 16 characters of the product name>_APG_<IPF version with two
    decimals>] makes [get_noise_tg_vectors], [get_nesz_full_size] and
    [remove_thermal_noise] raise [KeyError] with that key. *)
Theorem total_gain_requires_APG_entry {lib : Library} (params : gmap string (gmap string json))
    (s : Sentinel1Image) (pol : string) (remove_negative : bool) (min_dn : Z) :
  is_Some (xml s !! pol) →
  params !! apg_key s = None →
  outcome (get_noise_tg_vectors params s pol) = inl (KeyError (apg_key s))
  ∧ outcome (get_nesz_full_size params s pol "NERSC_TG") = inl (KeyError (apg_key s))
  ∧ outcome (remove_thermal_noise params s pol "NERSC_TG" remove_negative min_dn)
    = inl (KeyError (apg_key s)).
Proof.
  intros [d Hd] Hnone. split; [by eapply get_noise_tg_vectors_missing|].
  split; [by eapply get_nesz_full_size_TG_missing|].
  unfold remove_thermal_noise. apply outcome_bind_raise.
  by eapply get_nesz_full_size_TG_missing.
Qed.

Lemma total_gain_requires_APG_entry_witness :
  outcome (remove_thermal_noise (lib := demo_library) ∅ (demo_image demo_name_S1A 2.9) "VH"
             "NERSC_TG" true 0)
  = inl (KeyError "S1A_IW_GRDH_1SDV_APG_2.90").
Proof.
  destruct (total_gain_requires_APG_entry (lib := demo_library) ∅
              (demo_image demo_name_S1A 2.9) "VH" true 0) as (_ & _ & H).
  - by eexists.
  - apply lookup_empty.
  - exact H.
Defined.

(** * The swath number of every pixel of the raster *)

Section Index_map_facts.

Context (s : Sentinel1Image) (d : PolData) (l p : nat).

(** a block of the swath with number [iSW] contains line [l], sample [p] *)
Definition covers (iSW : nat) : Prop :=
  ∃ coords b, returns (dict_get (swath_bounds d) (swath_name_of s iSW)) coords
              ∧ b ∈ coords ∧ in_block b l p = true.

Lemma fill_blocks_cell (coords : list block) (c : nat) (m out : list (list nat)) :
  returns (for_each coords (λ m b, mret (fill_block m b c)) m) out →
  length <$> out = length <$> m
  ∧ cell out l p
    = (λ x, if bool_decide (Exists (λ b, in_block b l p = true) coords) then c else x)
      <$> cell m l p.
Proof.
  revert m. induction coords as [|b coords IH]; intros m.
  - intros <-%returns_ret. split; [done|].
    rewrite bool_decide_eq_false_2 by (by intros ?%Exists_nil). by destruct (cell m l p).
  - cbn [for_each]. rewrite ret_bind. intros [Hs Hc]%IH. unfold fill_block in Hs, Hc.
    rewrite (shape_imap2 (λ l p x, if in_block b l p then c else x)) in Hs.
    rewrite (cell_imap2 (λ l p x, if in_block b l p then c else x)) in Hc.
    split; [done|]. rewrite Hc. destruct (cell m l p) as [x|]; [|done]. simpl. f_equal.
    destruct (in_block b l p) eqn:Hin.
    + rewrite (bool_decide_eq_true_2 (Exists _ (b :: coords))) by (by left).
      by destruct (bool_decide _).
    + destruct (bool_decide_reflect (Exists (λ b, in_block b l p = true) coords)) as [He|He].
      * by rewrite bool_decide_eq_true_2 by (by right).
      * rewrite bool_decide_eq_false_2; [done|].
        intros [?|?]%Exists_cons; [congruence|done].
Qed.

Abbreviation index_step :=
  (λ (m : list (list nat)) (iSW : nat),
     swathBound ← dict_get (swath_bounds d) (swath_name_of s iSW);
     for_each swathBound (λ m b, mret (fill_block m b iSW)) m).

(** After the swaths [start .. start + k - 1], a cell holds the largest of
    these numbers whose swath covers it, or its initial value. *)
Lemma index_map_loop (k start : nat) (m out : list (list nat)) (x : nat) :
  returns (for_each (seq start k) index_step m) out →
  cell m l p = Some x →
  ∃ n, cell out l p = Some n
       ∧ ((n = x ∧ ∀ i, (start ≤ i < start + k)%nat → ¬ covers i)
          ∨ ((start ≤ n < start + k)%nat ∧ covers n
             ∧ ∀ i, (n < i < start + k)%nat → ¬ covers i)).
Proof.
  revert start m x. induction k as [|k IH]; intros start m x.
  - intros <-%returns_ret Hx. exists x. split; [done|]. left. split; [done|]. lia.
  - cbn [seq for_each]. intros (m1 & Hstep & Hrest)%returns_bind Hx.
    apply returns_bind in Hstep as (coords & Hcoords & Hfill).
    destruct (fill_blocks_cell _ _ _ _ Hfill) as [_ Hc]. rewrite Hx in Hc. simpl in Hc.
    destruct (IH _ _ _ Hrest Hc) as (n & Hn & Hor). exists n. split; [done|].
    destruct Hor as [[-> Hnone]|(Hrange & Hcov & Hnone)].
    + destruct (bool_decide_reflect (Exists (λ b, in_block b l p = true) coords)) as [He|He].
      * right. split; [lia|]. split; [|intros i Hi; apply Hnone; lia].
        apply Exists_exists in He as (b & Hb & Hin). by exists coords, b.
      * left. split; [done|]. intros i Hi.
        destruct (decide (i = start)) as [->|Hne]; [|apply Hnone; lia].
        intros (coords' & b & Hcoords' & Hb & Hin).
        pose proof (returns_functional _ _ _ Hcoords Hcoords') as <-.
        apply He, Exists_exists. by exists b.
    + right. split; [lia|]. split; [done|]. intros i Hi. apply Hnone. lia.
Qed.

Lemma index_map_shape (k start : nat) (m out : list (list nat)) :
  returns (for_each (seq start k) index_step m) out → length <$> out = length <$> m.
Proof.
  apply (for_each_invariant (λ c, length <$> c = length <$> m)); [|done].
  intros acc iSW acc' _ Hacc (coords & _ & Hfill)%returns_bind.
  destruct (fill_blocks_cell _ _ _ _ Hfill) as [-> _]. done.
Qed.

End Index_map_facts.

(** X15. [subswathIndexMap] returns a raster of the annotated shape; a cell
    holds the largest number of a swath of the mode (1 to 3 for IW, 1 to 5 for
    EW) one of whose blocks contains the cell, and 0 when there is none: of
    overlapping blocks the swath with the highest number wins. *)
Theorem subswathIndexMap_values (s : Sentinel1Image) (pol : string) (d : PolData)
    (m : list (list nat)) :
  xml s !! pol = Some d →
  returns (subswathIndexMap s pol) m →
  ∃ count, returns (swath_count (obsMode s)) count
    ∧ length <$> m = replicate (shape d).1 (shape d).2
    ∧ ∀ l p, (l < (shape d).1)%nat → (p < (shape d).2)%nat →
        ∃ n, cell m l p = Some n ∧ (n ≤ count)%nat
             ∧ (n ≠ 0%nat → covers s d l p n)
             ∧ (∀ i, (n < i ≤ count)%nat → ¬ covers s d l p i).
Proof.
  intros Hd. unfold subswathIndexMap. rewrite (subscript_Some _ _ _ Hd), ret_bind.
  intros (count & Hcount & Hret)%returns_bind. exists count. split; [done|]. split.
  - rewrite (index_map_shape s d 0 0 _ _ _ _ Hret).
    by rewrite fmap_replicate, length_replicate.
  - intros l p Hl Hp.
    assert (cell (replicate (shape d).1 (replicate (shape d).2 0%nat)) l p = Some 0%nat) as Hx.
    { unfold cell. rewrite (lookup_replicate_2 _ _ _ Hl). simpl. by apply lookup_replicate_2. }
    destruct (index_map_loop s d l p _ _ _ _ _ Hret Hx) as (n & Hn & Hor).
    exists n. split; [done|]. destruct Hor as [[-> Hnone]|(Hrange & Hcov & Hnone)].
    + split; [lia|]. split; [done|]. intros i Hi. apply Hnone. lia.
    + split; [lia|]. split; [done|]. intros i Hi. apply Hnone. lia.
Qed.

Lemma subswathIndexMap_values_witness :
  ∃ m, returns (subswathIndexMap (demo_image demo_name_S1A 2.9) "VH") m
       ∧ length <$> m = [24; 24]%nat
       ∧ cell m 1 13 = Some 2%nat ∧ cell m 1 22 = Some 0%nat.
Proof.
  eexists. split; [vm_compute; reflexivity|].
  match goal with |- length <$> ?m = _ ∧ _ =>
    destruct (subswathIndexMap_values (demo_image demo_name_S1A 2.9) "VH" demo_pol m
                eq_refl ltac:(vm_compute; reflexivity)) as (count & _ & Hs & _)
  end.
  split; [exact Hs|]. split; reflexivity.
Defined.

(** * Noise vectors corrected by the coefficients *)

Lemma put_indices_map_lookup {A B} (f : A → B) (g : list A) (row : list B) (idx : list nat)
    (vals : list A) (k : nat) :
  Forall2 (λ i x, g !! i = Some x) idx vals → k ∈ idx → (k < length row)%nat →
  put_indices row idx (f <$> vals) !! k = f <$> g !! k.
Proof.
  intros Hall Hk Hlen. rewrite (put_indices_lookup (f <$> g)); [|..|done|done].
  - by rewrite list_lookup_fmap.
  - apply Forall2_fmap_r. eapply Forall2_impl; [exact Hall|].
    intros i x Hi. simpl. by rewrite list_lookup_fmap, Hi.
Qed.

Section Corrected_facts.

Context (s : Sentinel1Image) (d : PolData).
Context (nesz : list (list float)) (pixel : list (list nat)) (add_pb : bool).
Context (ns pb : gmap string json).

Abbreviation nline := (nr_line (noise_range d)).

(** the value written for an input [x0] with scaling [n] and offset [o] *)
Definition corrected (n o x0 : float) : float :=
  if add_pb then (x0 * n + o)%float else (x0 * n)%float.

(** the body of the loop over the noise vectors of one block *)
Definition corrected_step (swath_name : string) (b : block)
    (nesz_corrected : list (list float)) (v1 : nat) : M (list (list float)) :=
  pix ← getitem pixel v1;
  let valid2 := np_where (pixel_in b) pix in
  nz ← getitem nesz v1;
  vals ← take_indices nz valid2;
  n ← subscript ns swath_name ≫= as_num;
  row ← getitem nesz_corrected v1;
  let row := put_indices row valid2 ((λ x, x * n)%float <$> vals) in
  if add_pb then
    cur ← take_indices row valid2;
    o ← subscript pb swath_name ≫= as_num;
    mret (<[v1 := put_indices row valid2 ((λ x, x + o)%float <$> cur)]> nesz_corrected)
  else mret (<[v1 := row]> nesz_corrected).

(** the coefficients of a swath, as the loop reads them *)
Definition swath_coefficients (swath_name : string) (n o : float) : Prop :=
  ns !! swath_name = Some (JNum n) ∧ (add_pb = true → pb !! swath_name = Some (JNum o)).

Lemma returns_subscript_num (m : gmap string json) (key : string) (x : float) :
  returns (subscript m key ≫= as_num) x → m !! key = Some (JNum x).
Proof.
  intros (j & Hj%returns_subscript & Hx)%returns_bind. rewrite Hj.
  destruct j as [y|ys]; [by apply returns_ret in Hx as ->|by apply returns_raise in Hx].
Qed.

Lemma corrected_step_inv (swath_name : string) (b : block) (vecs vecs' : list (list float))
    (v1 : nat) :
  length <$> vecs = length <$> pixel → returns (corrected_step swath_name b vecs v1) vecs' →
  length <$> vecs' = length <$> pixel
  ∧ ∃ n o, swath_coefficients swath_name n o
      ∧ ∀ v k p, cell pixel v k = Some p →
          if bool_decide (v = v1) && pixel_in b p
          then ∃ x0, cell nesz v k = Some x0 ∧ cell vecs' v k = Some (corrected n o x0)
          else cell vecs' v k = cell vecs v k.
Proof.
  intros Hs (pix & Hpix%returns_getitem & H)%returns_bind.
  apply returns_bind in H as (nz & Hnz%returns_getitem & H).
  apply returns_bind in H as (vals & Hvals%returns_take_indices & H).
  apply returns_bind in H as (n & Hn%returns_subscript_num & H).
  apply returns_bind in H as (row & Hrow%returns_getitem & H).
  assert (length row = length pix) as Hlen.
  { assert ((length <$> vecs) !! v1 = Some (length pix)) as Hl'
      by (by rewrite Hs, list_lookup_fmap, Hpix).
    rewrite list_lookup_fmap, Hrow in Hl'. by injection Hl'. }
  set (valid2 := np_where (pixel_in b) pix) in *.
  set (row1 := put_indices row valid2 ((λ x, x * n)%float <$> vals)) in *.
  assert (∃ o row2, swath_coefficients swath_name n o
            ∧ vecs' = <[v1 := row2]> vecs ∧ length row2 = length row
            ∧ (∀ k, k ∉ valid2 → row2 !! k = row !! k)
            ∧ (∀ k, k ∈ valid2 → ∃ x0, nz !! k = Some x0 ∧ row2 !! k = Some (corrected n o x0)))
    as (o & row2 & Hco & -> & Hlen2 & Hframe & Hwritten).
  { assert (∀ k, k ∈ valid2 → ∃ x0, nz !! k = Some x0 ∧ row1 !! k = Some (x0 * n)%float)
      as Hrow1.
    { intros k Hk. pose proof Hk as (p & Hp & _)%elem_of_np_where.
      apply list_elem_of_lookup in Hk as (j & Hj).
      destruct (Forall2_lookup_l _ _ _ _ _ Hvals Hj) as (x0 & _ & Hx0).
      exists x0. split; [done|]. unfold row1.
      rewrite (put_indices_map_lookup _ nz _ _ _ _ Hvals).
      - by rewrite Hx0.
      - by eapply list_elem_of_lookup_2.
      - rewrite Hlen. by eapply lookup_lt_Some. }
    unfold corrected, swath_coefficients. destruct add_pb eqn:Hadd.
    - apply returns_bind in H as (cur & Hcur%returns_take_indices & H).
      apply returns_bind in H as (o & Ho%returns_subscript_num & <-%returns_ret).
      exists o, (put_indices row1 valid2 ((λ x, x + o)%float <$> cur)).
      split; [by split|]. split; [done|].
      split; [unfold row1; by rewrite !length_put_indices|]. split.
      + intros k Hk. unfold row1. by rewrite !put_indices_frame by done.
      + intros k Hk. destruct (Hrow1 k Hk) as (x0 & Hx0 & Hk1). exists x0. split; [done|].
        rewrite (put_indices_map_lookup _ row1 _ _ _ _ Hcur Hk).
        * by rewrite Hk1.
        * by eapply lookup_lt_Some.
    - apply returns_ret in H as <-. exists 0%float, row1.
      split; [by split|]. split; [done|]. split; [by apply length_put_indices|]. split.
      + intros k Hk. by apply put_indices_frame.
      + done. }
  split.
  - rewrite list_fmap_insert, Hlen2.
    rewrite <- Hs. apply list_insert_id. by rewrite list_lookup_fmap, Hrow.
  - exists n, o. split; [done|]. intros v k p Hp. unfold cell.
    destruct (decide (v = v1)) as [->|Hne].
    + rewrite bool_decide_eq_true_2 by done. simpl andb.
      rewrite list_lookup_insert_eq by (by eapply lookup_lt_Some). simpl.
      unfold cell in Hp. rewrite Hpix in Hp. simpl in Hp. rewrite Hnz. simpl.
      destruct (pixel_in b p) eqn:Hin.
      * apply Hwritten, elem_of_np_where. by exists p.
      * rewrite Hframe; [by rewrite Hrow|].
        intros (p' & Hp' & Hin')%elem_of_np_where. congruence.
    + rewrite bool_decide_eq_false_2 by done. simpl andb.
      by rewrite list_lookup_insert_ne.
Qed.

Context (v k l p : nat).
Context (Hl : nline !! v = Some l) (Hp : cell pixel v k = Some p).

(** [x] is the input at the pixel, scaled and offset with the coefficients of a
    swath of the product one of whose blocks contains line [l], pixel [p] *)
Definition corrected_by (x : float) : Prop :=
  ∃ iSW coords b n o x0,
    iSW ∈ swath_ids s
    ∧ returns (dict_get (swath_bounds d) (swath_name_of s iSW)) coords
    ∧ b ∈ coords ∧ in_block b l p = true
    ∧ swath_coefficients (swath_name_of s iSW) n o
    ∧ cell nesz v k = Some x0 ∧ x = corrected n o x0.

(** a block of a swath of the product contains line [l], pixel [p] *)
Definition in_product_block : Prop :=
  ∃ iSW coords b,
    iSW ∈ swath_ids s
    ∧ returns (dict_get (swath_bounds d) (swath_name_of s iSW)) coords
    ∧ b ∈ coords ∧ in_block b l p = true.

Definition corrected_sound (vecs : list (list float)) : Prop :=
  length <$> vecs = length <$> pixel
  ∧ ∃ x, cell vecs v k = Some x ∧ (x = Float.nan ∨ corrected_by x).

Definition corrected_done (vecs : list (list float)) : Prop :=
  length <$> vecs = length <$> pixel ∧ ∃ x, cell vecs v k = Some x ∧ corrected_by x.

Section One_block.

Context (iSW : nat) (coords : list block) (b : block).
Context (HiSW : iSW ∈ swath_ids s).
Context (Hcoords : returns (dict_get (swath_bounds d) (swath_name_of s iSW)) coords).
Context (Hb : b ∈ coords).

Lemma corrected_step_facts (vecs vecs' : list (list float)) (v1 : nat) :
  v1 ∈ np_where (line_in b) nline →
  length <$> vecs = length <$> pixel →
  returns (corrected_step (swath_name_of s iSW) b vecs v1) vecs' →
  length <$> vecs' = length <$> pixel
  ∧ (cell vecs' v k = cell vecs v k ∨ corrected_done vecs')
  ∧ (v = v1 → pixel_in b p = true → corrected_done vecs').
Proof.
  intros (l1 & Hl1 & Hline)%elem_of_np_where Hs Hstep.
  destruct (corrected_step_inv _ _ _ _ _ Hs Hstep) as (Hs' & n & o & Hco & Hcell).
  split; [done|]. specialize (Hcell v k p Hp).
  destruct (bool_decide_reflect (v = v1)) as [<-|Hne]; simpl andb in Hcell.
  - destruct (pixel_in b p) eqn:Hin.
    + assert (corrected_done vecs') as Hdone.
      { destruct Hcell as (x0 & Hx0 & Hx). split; [done|]. eexists. split; [exact Hx|].
        exists iSW, coords, b, n, o, x0. rewrite Hl in Hl1. injection Hl1 as <-.
        repeat (split; [done|]). split; [|done]. unfold in_block. by rewrite Hline, Hin. }
      split; [by right|done].
    + split; [by left|done].
  - split; [by left|done].
Qed.

Lemma corrected_block_facts (vecs vecs' : list (list float)) :
  returns (for_each (np_where (line_in b) nline) (corrected_step (swath_name_of s iSW) b) vecs)
    vecs' →
  (corrected_sound vecs → corrected_sound vecs')
  ∧ (corrected_done vecs → corrected_done vecs')
  ∧ (length <$> vecs = length <$> pixel → in_block b l p = true → corrected_done vecs').
Proof.
  intros Hret. split; [|split].
  - intros Hsound. revert Hret. apply for_each_invariant; [|done].
    intros acc v1 acc' Hv1 [Hs (x & Hx & Hor)] Hstep.
    destruct (corrected_step_facts _ _ _ Hv1 Hs Hstep) as (Hs' & [Heq|[_ (y & Hy & Hc)]] & _).
    + split; [done|]. exists x. by rewrite Heq.
    + split; [done|]. exists y. split; [done|by right].
  - intros Hdone. revert Hret. apply for_each_invariant; [|done].
    intros acc v1 acc' Hv1 [Hs (x & Hx & Hc)] Hstep.
    destruct (corrected_step_facts _ _ _ Hv1 Hs Hstep) as (Hs' & [Heq|Hdone'] & _); [|done].
    split; [done|]. exists x. by rewrite Heq.
  - intros Hs [Hline Hpix]%andb_true_iff. revert Hret.
    apply (for_each_establish (λ c, length <$> c = length <$> pixel) corrected_done _ _ v).
    + apply elem_of_np_where. by exists l.
    + done.
    + intros acc v1 acc' Hv1 Hs' Hstep.
      by destruct (corrected_step_facts _ _ _ Hv1 Hs' Hstep).
    + intros acc acc' Hs' Hstep.
      assert (v ∈ np_where (line_in b) nline) as Hv1
        by (apply elem_of_np_where; by exists l).
      destruct (corrected_step_facts _ _ _ Hv1 Hs' Hstep) as (_ & _ & Hdone). by apply Hdone.
    + intros acc v1 acc' Hv1 Hs' [_ (x & Hx & Hc)] Hstep.
      destruct (corrected_step_facts _ _ _ Hv1 Hs' Hstep) as (Hs'' & [Heq|Hdone'] & _);
        [|done].
      split; [done|]. exists x. by rewrite Heq.
Qed.

End One_block.

(** the body of the loop over the swaths *)
Definition corrected_swath (vecs : list (list float)) (swid : nat) : M (list (list float)) :=
  swathBound ← dict_get (swath_bounds d) (swath_name_of s swid);
  for_each swathBound
    (λ vecs b,
       for_each (np_where (line_in b) nline) (corrected_step (swath_name_of s swid) b) vecs)
    vecs.

Lemma corrected_swath_facts (iSW : nat) (vecs vecs' : list (list float)) :
  iSW ∈ swath_ids s →
  returns (corrected_swath vecs iSW) vecs' →
  (length <$> vecs = length <$> pixel → length <$> vecs' = length <$> pixel)
  ∧ (corrected_sound vecs → corrected_sound vecs')
  ∧ (corrected_done vecs → corrected_done vecs')
  ∧ (length <$> vecs = length <$> pixel →
     ∀ coords b, returns (dict_get (swath_bounds d) (swath_name_of s iSW)) coords → b ∈ coords →
       in_block b l p = true → corrected_done vecs').
Proof.
  intros HiSW (coords & Hcoords & Hret)%returns_bind.
  assert (∀ acc b' acc', b' ∈ coords → length <$> acc = length <$> pixel →
            returns (for_each (np_where (line_in b') nline)
                       (corrected_step (swath_name_of s iSW) b') acc) acc' →
            length <$> acc' = length <$> pixel) as Hshape.
  { intros acc b' acc' Hb'.
    apply (for_each_invariant (λ c, length <$> c = length <$> pixel)).
    intros c v1 c' Hv1 Hc Hstep.
    by destruct (corrected_step_facts iSW coords b' HiSW Hcoords Hb' _ _ _ Hv1 Hc Hstep). }
  split; [|split; [|split]].
  - intros Hs. revert Hret.
    apply (for_each_invariant (λ c, length <$> c = length <$> pixel)); [|done].
    intros acc b acc' Hb. by apply Hshape.
  - intros Hsound. revert Hret. apply for_each_invariant; [|done].
    intros acc b acc' Hb Hacc Hblock.
    destruct (corrected_block_facts iSW coords b HiSW Hcoords Hb _ _ Hblock) as (H & _).
    by apply H.
  - intros Hdone. revert Hret. apply for_each_invariant; [|done].
    intros acc b acc' Hb Hacc Hblock.
    destruct (corrected_block_facts iSW coords b HiSW Hcoords Hb _ _ Hblock)
      as (_ & H & _). by apply H.
  - intros Hs coords' b Hcoords' Hb Hin.
    pose proof (returns_functional _ _ _ Hcoords Hcoords') as <-.
    revert Hret.
    apply (for_each_establish (λ c, length <$> c = length <$> pixel) corrected_done _ _ b);
      [done|done|..].
    + intros acc b' acc' Hb'. by apply Hshape.
    + intros acc acc' Hacc Hblock.
      destruct (corrected_block_facts iSW coords b HiSW Hcoords Hb _ _ Hblock)
        as (_ & _ & H). by apply H.
    + intros acc b' acc' Hb' _ Hdone Hblock.
      destruct (corrected_block_facts iSW coords b' HiSW Hcoords Hb' _ _ Hblock)
        as (_ & H & _). by apply H.
Qed.

Lemma corrected_loops (vecs : list (list float)) :
  returns (for_each (swath_ids s) corrected_swath
             ((λ p_vec : list nat, replicate (length p_vec) Float.nan) <$> pixel)) vecs →
  corrected_sound vecs ∧ (in_product_block → corrected_done vecs).
Proof.
  intros Hret.
  assert (length <$> ((λ p_vec : list nat, replicate (length p_vec) Float.nan) <$> pixel)
          = length <$> pixel) as Hs0 by apply replicate_shape.
  split.
  - revert Hret. apply for_each_invariant.
    + intros acc iSW acc' HiSW Hacc Hswath.
      destruct (corrected_swath_facts _ _ _ HiSW Hswath) as (_ & H & _). by apply H.
    + split; [done|]. destruct (shape_cell_is_Some _ _ _ _ _ Hs0 Hp) as [x Hx].
      exists x. split; [done|]. left. revert Hx. unfold cell. rewrite list_lookup_fmap.
      destruct (pixel !! v) as [pix|]; [|done]. simpl.
      by intros [-> _]%lookup_replicate.
  - intros (iSW & coords & b & HiSW & Hcoords & Hb & Hin). revert Hret.
    apply (for_each_establish (λ c, length <$> c = length <$> pixel) corrected_done _ _ iSW);
      [done|done|..].
    + intros acc iSW' acc' HiSW' Hacc Hswath.
      destruct (corrected_swath_facts _ _ _ HiSW' Hswath) as (H & _). by apply H.
    + intros acc acc' Hacc Hswath.
      destruct (corrected_swath_facts _ _ _ HiSW Hswath) as (_ & _ & _ & H). by eapply H.
    + intros acc iSW' acc' HiSW' _ Hdone Hswath.
      destruct (corrected_swath_facts _ _ _ HiSW' Hswath) as (_ & _ & H & _). by apply H.
Qed.

End Corrected_facts.

(** X16. The vectors of [get_corrected_noise_vectors] have the shape of the
    pixel vectors. A pixel inside a block of a swath of the product holds the
    input value at that pixel times the noise scaling of such a swath, plus its
    power balancing when [add_pb] is set, with the coefficients that
    [import_denoisingCoefficients] returns; every other pixel holds NaN. *)
Theorem get_corrected_noise_vectors_values {lib : Library}
    (params : gmap string (gmap string json)) (s : Sentinel1Image) (pol : string) (d : PolData)
    (nesz : list (list float)) (pixel : option (list (list nat))) (add_pb : bool)
    (out : list (list float)) :
  xml s !! pol = Some d →
  returns (get_corrected_noise_vectors params s pol nesz pixel add_pb) out →
  ∃ ns pb es nv,
    returns (import_denoisingCoefficients params s pol false) (ns, pb, es, nv)
    ∧ length <$> out = length <$> default (nr_pixel (noise_range d)) pixel
    ∧ ∀ v k l p, nr_line (noise_range d) !! v = Some l →
        cell (default (nr_pixel (noise_range d)) pixel) v k = Some p →
        ∃ x, cell out v k = Some x
             ∧ (in_product_block s d l p → corrected_by s d nesz add_pb ns pb v k l p x)
             ∧ (¬ in_product_block s d l p → x = Float.nan).
Proof.
  intros Hd. unfold get_corrected_noise_vectors. rewrite (subscript_Some _ _ _ Hd), ret_bind.
  intros ([[[ns pb] es] nv] & Himp & Hret)%returns_bind.
  exists ns, pb, es, nv. split; [done|].
  set (pix := default (nr_pixel (noise_range d)) pixel) in *.
  assert (∀ v k l p, nr_line (noise_range d) !! v = Some l → cell pix v k = Some p →
            corrected_sound s d nesz pix add_pb ns pb v k l p out
            ∧ (in_product_block s d l p → corrected_done s d nesz pix add_pb ns pb v k l p out))
    as Hall.
  { intros v k l p Hl Hp. by apply (corrected_loops s d nesz pix add_pb ns pb v k l p Hl Hp). }
  split.
  - revert Hret.
    apply (for_each_invariant (λ c, length <$> c = length <$> pix)); [|apply replicate_shape].
    intros acc iSW acc' _ Hacc (coords & _ & Hloop)%returns_bind. revert Hloop.
    apply (for_each_invariant (λ c, length <$> c = length <$> pix)); [|done].
    intros c b c' _.
    apply (for_each_invariant (λ c, length <$> c = length <$> pix)).
    intros c1 v1 c1' _ Hc1 Hstep. eapply corrected_step_inv in Hstep as [? _]; done.
  - intros v k l p Hl Hp. destruct (Hall v k l p Hl Hp) as [[Hs (x & Hx & Hor)] Hdone].
    exists x. split; [done|]. split.
    + intros Hin. destruct (Hdone Hin) as [_ (x' & Hx' & Hc)]. congruence.
    + intros Hno. destruct Hor as [->|Hc]; [done|]. destruct Hno.
      destruct Hc as (iSW & coords & b & _ & _ & _ & ? & ? & ? & ? & _).
      by exists iSW, coords, b.
Qed.

Lemma get_corrected_noise_vectors_values_witness :
  ∃ out, returns (get_corrected_noise_vectors (lib := demo_library) ∅
                    (demo_image demo_name_S1A 2.9) "VH" [replicate 24 5%float] None true) out
         ∧ length <$> out = [24%nat]
         ∧ cell out 0 13 = Some (5 * 1 + 0)%float ∧ cell out 0 22 = Some Float.nan.
Proof.
  assert (returns (get_corrected_noise_vectors (lib := demo_library) ∅
                     (demo_image demo_name_S1A 2.9) "VH" [replicate 24 5%float] None true)
            [replicate 22 5%float ++ [Float.nan; Float.nan]]) as Hret
    by (vm_compute; reflexivity).
  eexists. split; [exact Hret|].
  pose proof (get_corrected_noise_vectors_values (lib := demo_library) ∅
                (demo_image demo_name_S1A 2.9) "VH" demo_pol [replicate 24 5%float] None true
                _ eq_refl Hret) as (ns & pb & es & nv & _ & Hs & _).
  split; [exact Hs|]. split; reflexivity.
Defined.

(** * Texture noise removal outside the swath blocks *)

Lemma add_nan_r (x : float) : (x + Float.nan)%float = Float.nan.
Proof.
  apply Prim2SF_inj. rewrite FloatAxioms.add_spec, Prim2SF_nan. by destruct (Prim2SF x).
Qed.

Lemma div_nan_l (y : float) : (Float.nan / y)%float = Float.nan.
Proof. apply Prim2SF_inj. by rewrite FloatAxioms.div_spec, Prim2SF_nan. Qed.

(** X17. The raster returned by [remove_texture_noise] is NaN at every
    position outside every block of the swath bounds, whatever the gaussian
    filter returns there: the signal to noise ratio is NaN where the noise is.
    With [remove_negative] this holds when the gap filling of the library
    replaces masked cells only. *)
Theorem remove_texture_noise_outside_blocks {lib : Library}
    (params : gmap string (gmap string json)) (s : Sentinel1Image) (pol : string)
    (d : PolData) (window weight s0_min : float) (remove_negative : bool) (algorithm : string)
    (min_dn : Z) (out : raster) (l p : nat) :
  xml s !! pol = Some d →
  returns (remove_texture_noise params s pol window weight s0_min remove_negative algorithm
             min_dn).2 out →
  outside_blocks d l p →
  (remove_negative = true → fill_gaps_keeps_unmasked) →
  cell out l p = Some Float.nan.
Proof.
  intros Hd Hret Hout Hfill. unfold remove_texture_noise in Hret. cbn [snd] in Hret.
  set (s' := if (IPFversion s =? 3.2)%float then set_IPFversion 3.1 s else s) in Hret.
  assert (xml s' !! pol = Some d) as Hd' by (unfold s'; by destruct (_ =? _)%float).
  apply returns_bind in Hret as (sigma0 & Hsigma0 & Hret).
  apply returns_bind in Hret as (nesz & Hnesz & Hret).
  apply returns_bind in Hret as (sigma0o & Hsigma0o & Hret).
  destruct (get_nesz_full_size_nan _ _ _ _ Hd' _ _ _ _ Hnesz Hout) as [Hn _].
  destruct (get_raw_sigma0_full_size_nan _ _ _ Hd' _ _ _ _ Hsigma0 Hout) as [Hs _].
  assert (cell sigma0o l p = Some Float.nan) as Hc.
  { destruct (nanmean nesz =? 0)%float; [by apply returns_ret in Hsigma0o as <-|].
    apply returns_bind in Hsigma0o as (diff & [_ ->]%returns_raster_zip & Hsigma0o).
    apply returns_bind in Hsigma0o as (snr & [Hshape ->]%returns_raster_zip & Hsigma0o).
    apply returns_bind in Hsigma0o as (num & [_ ->]%returns_raster_zip & Hsigma0o).
    apply returns_raster_zip in Hsigma0o as [_ ->].
    destruct (shape_cell_is_Some _ _ _ _ _ Hshape Hn) as [g Hg].
    rewrite !cell_zip_with, Hg, Hs, Hn. simpl.
    by rewrite div_nan_r, mul_nan_l, add_nan_r, div_nan_l, add_nan_l. }
  destruct remove_negative; [|by apply returns_ret in Hret as <-].
  apply returns_bind in Hret as (m & _ & Hret).
  destruct (m <? 0)%float; apply returns_ret in Hret as <-; [|done].
  rewrite (Hfill eq_refl); [done|].
  unfold cell in *. rewrite list_lookup_fmap.
  destruct (sigma0o !! l) as [row|]; [|done].
  simpl in *. rewrite list_lookup_fmap, Hc. simpl. by rewrite leb_nan_l.
Qed.

Lemma remove_texture_noise_outside_blocks_witness :
  fill_gaps_keeps_unmasked (lib := demo_library)
  ∧ ∃ out,
      returns (remove_texture_noise (lib := demo_library) demo_params
                 (demo_image demo_name_S1A 2.9) "VH" 3 0.1 0 true "NERSC" 0).2 out
      ∧ cell out 0 22 = Some Float.nan.
Proof.
  split; [apply demo_fill_gaps_keeps_unmasked|].
  eexists. split; [vm_compute; reflexivity|].
  match goal with |- cell ?z _ _ = _ =>
    apply (remove_texture_noise_outside_blocks (lib := demo_library) demo_params
             (demo_image demo_name_S1A 2.9) "VH" demo_pol 3 0.1 0 true "NERSC" 0 z 0 22 eq_refl
             ltac:(vm_compute; reflexivity))
  end.
  - apply demo_outside_blocks. lia.
  - intros _. apply demo_fill_gaps_keeps_unmasked.
Defined.

(** * The scales and offsets of the total gain *)

(** X18. For an entry of the coefficient file with a list [B] of at least ten
    numbers, numbers [A_SCALE] and [Y_SCALE] and a nonzero [Y_SCALE],
    [get_tg_scales_offsets] returns five scales and five offsets: offset [i] is
    [B[2i] / Y_SCALE] and scale [i] is [B[2i+1] * A_SCALE / Y_SCALE]. With a
    zero [Y_SCALE] it raises [ZeroDivisionError], with an empty [B]
    [IndexError]. *)
Theorem get_tg_scales_offsets_values (params : gmap string (gmap string json))
    (s : Sentinel1Image) (entry : gmap string json) (B : list float) (A Y : float) :
  params !! apg_key s = Some entry →
  entry !! "B" = Some (JList B) →
  entry !! "A_SCALE" = Some (JNum A) →
  entry !! "Y_SCALE" = Some (JNum Y) →
  ((Y =? 0)%float = false → (10 ≤ length B)%nat →
     ∃ scales offsets,
       returns (get_tg_scales_offsets params s) (scales, offsets)
       ∧ length scales = 5%nat ∧ length offsets = 5%nat
       ∧ ∀ i, (i < 5)%nat →
           ∃ b0 b1, B !! (i * 2)%nat = Some b0 ∧ B !! (1 + i * 2)%nat = Some b1
                    ∧ offsets !! i = Some (b0 / Y)%float
                    ∧ scales !! i = Some (b1 * A / Y)%float)
  ∧ ((Y =? 0)%float = true → B ≠ [] →
     outcome (get_tg_scales_offsets params s) = inl ZeroDivisionError)
  ∧ (B = [] →
     outcome (get_tg_scales_offsets params s) = inl (IndexError "index out of range")).
Proof.
  intros Hentry HB HA HY.
  assert (returns (params_getitem params (apg_key s)) entry) as Hp.
  { unfold params_getitem. by rewrite (subscript_Some _ _ _ Hentry). }
  unfold get_tg_scales_offsets, returns. rewrite (outcome_bind_returns _ _ _ Hp).
  unfold subscript. rewrite HB, HA, HY.
  split; [|split].
  - intros Hnz Hlen.
    do 10 (destruct B as [|? B]; [simpl in Hlen; lia|]).
    eexists _, _. split.
    + repeat (progress cbv -[PrimFloat.eqb PrimFloat.div PrimFloat.mul]; rewrite ?Hnz).
      reflexivity.
    + split; [reflexivity|]. split; [reflexivity|].
      intros i Hi. do 5 (destruct i as [|i]; [by eexists _, _|]). lia.
  - intros Hz Hne. destruct B as [|b0 [|b1 B]]; [done|..];
      cbv -[PrimFloat.eqb PrimFloat.div PrimFloat.mul]; by rewrite Hz.
  - by intros ->.
Qed.

Definition demo_apg_entry : gmap string json :=
  {[ "B" := JList (Float.of_nat <$> seq 0 10); "A_SCALE" := JNum 2; "Y_SCALE" := JNum 4 ]}.
Definition demo_apg_params : gmap string (gmap string json) :=
  {[ "S1A_IW_GRDH_1SDV_APG_2.90" := demo_apg_entry ]}.

Lemma get_tg_scales_offsets_values_witness :
  ∃ scales offsets,
    returns (get_tg_scales_offsets demo_apg_params (demo_image demo_name_S1A 2.9))
      (scales, offsets)
    ∧ offsets !! 1%nat = Some (2 / 4)%float ∧ scales !! 1%nat = Some (3 * 2 / 4)%float.
Proof.
  destruct (get_tg_scales_offsets_values demo_apg_params (demo_image demo_name_S1A 2.9)
              demo_apg_entry (Float.of_nat <$> seq 0 10) 2 4
              ltac:(vm_compute; reflexivity) ltac:(vm_compute; reflexivity)
              ltac:(vm_compute; reflexivity) ltac:(vm_compute; reflexivity)) as [H _].
  destruct H as (scales & offsets & Hret & _ & _ & Hall); [reflexivity|simpl; lia|].
  exists scales, offsets. split; [exact Hret|].
  destruct (Hall 1%nat ltac:(lia)) as (b0 & b1 & Hb0 & Hb1 & -> & ->).
  injection Hb0 as <-. injection Hb1 as <-. split; reflexivity.
Defined.

(** X19. An object returned by [__init__] keeps the name it was built from;
    its mode is IW with the swaths 1 to 3 or EW with the swaths 1 to 5, and
    its polarisations are HH and HV with cross-polarisation HV, or VH and VV
    with cross-polarisation VH. *)
Theorem init_invariants {lib : Library} (fname : string) (version : float)
    (x : gmap string PolData) (meas : gmap string (list (list nat)))
    (auxp : gmap string (gmap string AuxCalibrationParams)) (s : Sentinel1Image) :
  returns (init fname version x meas auxp) s →
  filename s = fname
  ∧ obsMode s = slice 4 6 (basename fname)
  ∧ ((obsMode s = "IW" ∧ swath_ids s = [1; 2; 3]%nat)
     ∨ (obsMode s = "EW" ∧ swath_ids s = [1; 2; 3; 4; 5]%nat))
  ∧ ((crosspol s = "HV" ∧ pols s = ["HH"; "HV"])
     ∨ (crosspol s = "VH" ∧ pols s = ["VH"; "VV"])).
Proof.
  intros Hret. pose proof (init_returns_accepted _ _ _ _ _ _ Hret) as Hacc.
  pose proof Hret as Hs. rewrite (init_accepted _ _ _ _ version _ _ _ Hacc) in Hs.
  destruct Hacc as (_ & (pm & _ & Htab) & Hn & _).
  injection Hs as <-. cbn [filename obsMode swath_ids crosspol pols] in *.
  split; [done|]. split; [done|]. split.
  - revert Hn. unfold swath_count.
    destruct (String.eqb_spec (slice 4 6 (basename fname)) "IW") as [->|_];
      [intros <-%returns_ret; by left|].
    destruct (String.eqb_spec (slice 4 6 (basename fname)) "EW") as [->|_];
      [intros <-%returns_ret; by right|].
    by intros ?%returns_raise.
  - revert Htab. unfold pol_mode_table.
    destruct (String.eqb pm "1SDH"); [intros [= <- <-]%returns_ret; by left|].
    destruct (String.eqb pm "1SDV"); [intros [= <- <-]%returns_ret; by right|].
    by intros ?%returns_raise.
Qed.

Lemma init_invariants_witness :
  returns (init (lib := demo_library) demo_name_S1A 2.9 demo_xml demo_measurements
             demo_aux_params) (demo_image demo_name_S1A 2.9)
  ∧ obsMode (demo_image demo_name_S1A 2.9) = "IW"
  ∧ swath_ids (demo_image demo_name_S1A 2.9) = [1; 2; 3]%nat.
Proof.
  assert (returns (init (lib := demo_library) demo_name_S1A 2.9 demo_xml demo_measurements
                     demo_aux_params) (demo_image demo_name_S1A 2.9)) as Hret
    by (vm_compute; reflexivity).
  split; [exact Hret|].
  destruct (init_invariants (lib := demo_library) demo_name_S1A 2.9 demo_xml
              demo_measurements demo_aux_params _ Hret) as (_ & _ & [[Hm Hs]|[Hm _]] & _).
  - by split.
  - discriminate Hm.
Defined.

(** * Antenna pattern and range spread loss on the noise vectors *)

Lemma get_swath_id_vectors_shape (s : Sentinel1Image) (pol : string) (d : PolData)
    (ids : list (list nat)) :
  xml s !! pol = Some d → returns (get_swath_id_vectors s pol) ids →
  length <$> ids = length <$> nr_pixel (noise_range d).
Proof.
  intros Hd. unfold get_swath_id_vectors. rewrite (subscript_Some _ _ _ Hd), ret_bind.
  intros Hret.
  destruct (swath_id_loops (nr_line (noise_range d)) (nr_pixel (noise_range d))
              (swath_bounds d) ((λ p, replicate (length p) 0%nat) <$> nr_pixel (noise_range d))
              ids) as [[Hs _] _]; [|exact Hret|exact Hs].
  split; [apply replicate_shape|].
  intros v k p n Hp. unfold cell. rewrite list_lookup_fmap.
  destruct (nr_pixel (noise_range d) !! v) as [pix|]; [|done]. simpl.
  intros [-> _]%lookup_replicate. by left.
Qed.

Lemma returns_grid_row (f : float → float → float) (l : nat) (ps : list nat)
    (vals : list float) :
  returns (grid_row f l ps) vals → vals = (λ p, f (Float.of_nat l) (Float.of_nat p)) <$> ps.
Proof.
  unfold grid_row. destruct (nondecreasing ps); [by intros <-%returns_ret|].
  by intros ?%returns_raise.
Qed.

Section Eap_rsl_facts.

Context {lib : Library}.
Context (s : Sentinel1Image) (pol : string) (d : PolData).
Context (min_size : nat) (rsl_power : float).
Context (ids : list (list nat)).

Abbreviation eline := (nr_line (noise_range d)).
Abbreviation epixel := (nr_pixel (noise_range d)).

Context (Hids : length <$> ids = length <$> epixel).

Definition eap_rsl_shape (acc : list (list float) * list (list float)) : Prop :=
  length <$> acc.1 = length <$> epixel ∧ length <$> acc.2 = length <$> epixel.

(** the number of pixels of vector [i] with swath number [j] *)
Definition swath_pixels (i j : nat) : nat :=
  length (np_where (λ x, (x =? j)%nat) (default [] (ids !! i))).

(** One iteration keeps the shapes; it writes the pixels of vector [i] whose
    swath number is [swid], when there are more than [min_size] of them. *)
Lemma eap_rsl_step_inv (swid : nat) (eapf : float → float) (baf rslf : float → float → float)
    (acc acc' : list (list float) * list (list float))
    (i l : nat) (p swids : list nat) :
  (i, (l, (p, swids))) ∈ imap pair (zip eline (zip epixel ids)) →
  eap_rsl_shape acc →
  returns (eap_rsl_step swid min_size eapf baf rslf acc (i, (l, (p, swids)))) acc' →
  eap_rsl_shape acc'
  ∧ ∀ v k q j, cell epixel v k = Some q → cell ids v k = Some j →
      if bool_decide (v = i) && (j =? swid)%nat && (min_size <? swath_pixels v j)%nat
      then cell acc'.1 v k = Some (eapf (baf (Float.of_nat l) (Float.of_nat q)))
           ∧ cell acc'.2 v k = Some (rslf (Float.of_nat l) (Float.of_nat q))
      else cell acc'.1 v k = cell acc.1 v k ∧ cell acc'.2 v k = cell acc.2 v k.
Proof.
  intros (i' & e & [= <- <-] & He)%elem_of_lookup_imap [Hs1 Hs2] Hret.
  apply lookup_zip_Some in He as [Hl [Hp Hsw]%lookup_zip_Some]. simpl in *.
  assert (swath_pixels i swid = length (np_where (λ x, (x =? swid)%nat) swids)) as Hcount
    by (unfold swath_pixels; by rewrite Hsw).
  assert (length swids = length p) as Hlen.
  { assert ((length <$> ids) !! i = Some (length p)) as H
      by (by rewrite Hids, list_lookup_fmap, Hp).
    rewrite list_lookup_fmap, Hsw in H. by injection H. }
  unfold eap_rsl_step in Hret.
  destruct (min_size <? length (np_where (λ x, (x =? swid)%nat) swids))%nat eqn:Hsize.
  - apply returns_bind in Hret as (ps & Hps%returns_take_indices & Hret).
    apply returns_bind in Hret as (ba & ->%returns_grid_row & Hret).
    apply returns_bind in Hret as (rsl & ->%returns_grid_row & Hret).
    apply returns_bind in Hret as (erow & Herow%returns_getitem & Hret).
    apply returns_bind in Hret as (rrow & Hrrow%returns_getitem & <-%returns_ret).
    assert (length erow = length p ∧ length rrow = length p) as [Hle Hlr].
    { split.
      - assert ((length <$> acc.1) !! i = Some (length p)) as H
          by (by rewrite Hs1, list_lookup_fmap, Hp).
        rewrite list_lookup_fmap, Herow in H. by injection H.
      - assert ((length <$> acc.2) !! i = Some (length p)) as H
          by (by rewrite Hs2, list_lookup_fmap, Hp).
        rewrite list_lookup_fmap, Hrrow in H. by injection H. }
    split.
    + split; simpl; rewrite list_fmap_insert, length_put_indices.
      * rewrite <- Hs1. apply list_insert_id. by rewrite list_lookup_fmap, Herow.
      * rewrite <- Hs2. apply list_insert_id. by rewrite list_lookup_fmap, Hrrow.
    + intros v k q j Hq Hj. cbn [fst snd]. unfold cell in *.
      destruct (decide (v = i)) as [->|Hne].
      * rewrite bool_decide_eq_true_2 by done. rewrite Hp in Hq. rewrite Hsw in Hj.
        simpl in Hq, Hj.
        rewrite !list_lookup_insert_eq by (by eapply lookup_lt_Some).
        destruct (Nat.eqb_spec j swid) as [->|Hjne]; simpl andb.
        -- rewrite Hcount, Hsize. simpl.
           assert (k ∈ np_where (λ x, (x =? swid)%nat) swids) as Hk.
           { apply elem_of_np_where. exists swid. split; [done|]. apply Nat.eqb_refl. }
           rewrite <- list_fmap_compose.
           rewrite (put_indices_map_lookup _ p _ _ _ _ Hps Hk)
             by (rewrite Hle; by eapply lookup_lt_Some).
           rewrite (put_indices_map_lookup _ p _ _ _ _ Hps Hk)
             by (rewrite Hlr; by eapply lookup_lt_Some).
           by rewrite Hq.
        -- simpl. rewrite !put_indices_frame; [by rewrite Herow, Hrrow|..];
             intros (x & Hx & ->%Nat.eqb_eq)%elem_of_np_where; congruence.
      * rewrite bool_decide_eq_false_2 by done. simpl andb.
        by rewrite !list_lookup_insert_ne.
  - apply returns_ret in Hret as <-. split; [done|].
    intros v k q j Hq Hj.
    destruct (bool_decide_reflect (v = i)) as [->|]; simpl andb; [|done].
    destruct (Nat.eqb_spec j swid) as [->|]; simpl andb; [|done].
    by rewrite Hcount, Hsize.
Qed.

Context (v k l q j : nat).
Context (Hl : eline !! v = Some l) (Hq : cell epixel v k = Some q).
Context (Hj : cell ids v k = Some j).

(** [e] and [r] are the antenna pattern and the range spread loss of the swath
    of the pixel, which is a swath of the product with more than [min_size]
    pixels in the vector *)
Definition eap_rsl_written (e r : float) : Prop :=
  j ∈ swath_ids s ∧ (min_size < swath_pixels v j)%nat
  ∧ ∃ eapf baf rslf,
      returns (get_eap_interpolator s (swath_name_of s j) pol) eapf
      ∧ get_boresight_angle_interpolator s pol = inr baf
      ∧ get_range_spread_loss_interpolator s pol rsl_power = inr rslf
      ∧ e = eapf (baf (Float.of_nat l) (Float.of_nat q))
      ∧ r = rslf (Float.of_nat l) (Float.of_nat q).

Definition eap_rsl_sound (acc : list (list float) * list (list float)) : Prop :=
  eap_rsl_shape acc
  ∧ ∃ e r, cell acc.1 v k = Some e ∧ cell acc.2 v k = Some r
           ∧ ((e = Float.nan ∧ r = Float.nan) ∨ eap_rsl_written e r).

Definition eap_rsl_done (acc : list (list float) * list (list float)) : Prop :=
  eap_rsl_shape acc
  ∧ ∃ e r, cell acc.1 v k = Some e ∧ cell acc.2 v k = Some r ∧ eap_rsl_written e r.

Abbreviation entries := (imap pair (zip eline (zip epixel ids))).

Section One_swath.

Context (swid : nat) (eapf : float → float) (baf rslf : float → float → float).
Context (Hswid : swid ∈ swath_ids s).
Context (Heap : returns (get_eap_interpolator s (swath_name_of s swid) pol) eapf).
Context (Hba : get_boresight_angle_interpolator s pol = inr baf).
Context (Hrsl : get_range_spread_loss_interpolator s pol rsl_power = inr rslf).

Lemma eap_rsl_step_facts (acc acc' : list (list float) * list (list float))
    (e : nat * (nat * (list nat * list nat))) :
  e ∈ entries → eap_rsl_shape acc →
  returns (eap_rsl_step swid min_size eapf baf rslf acc e) acc' →
  eap_rsl_shape acc'
  ∧ ((cell acc'.1 v k = cell acc.1 v k ∧ cell acc'.2 v k = cell acc.2 v k) ∨ eap_rsl_done acc')
  ∧ (e.1 = v → swid = j → (min_size < swath_pixels v j)%nat → eap_rsl_done acc').
Proof.
  destruct e as [i [l' [p swids]]]. intros He Hs Hstep.
  destruct (eap_rsl_step_inv _ _ _ _ _ _ _ _ _ _ He Hs Hstep) as [Hs' Hcell].
  split; [done|]. specialize (Hcell v k q j Hq Hj). cbn [fst].
  destruct (bool_decide_reflect (v = i)) as [<-|Hne]; simpl andb in Hcell.
  - destruct (Nat.eqb_spec j swid) as [<-|Hjne]; simpl andb in Hcell.
    + destruct (Nat.ltb_spec min_size (swath_pixels v j)) as [Hlt|Hge].
      * assert (eap_rsl_done acc') as Hdone.
        { destruct Hcell as [He1 He2]. split; [done|]. eexists _, _.
          split; [exact He1|]. split; [exact He2|].
          apply elem_of_lookup_imap in He as (i' & e' & [= <- <-] & He').
          apply lookup_zip_Some in He' as [Hl' _]. simpl in Hl'.
          rewrite Hl in Hl'. injection Hl' as <-.
          split; [done|]. split; [done|]. by exists eapf, baf, rslf. }
        split; [by right|done].
      * split; [by left|]. intros _ _ ?. lia.
    + split; [by left|]. intros _ ?. congruence.
  - split; [by left|]. intros ?. congruence.
Qed.

Lemma eap_rsl_swath_facts (acc acc' : list (list float) * list (list float)) :
  returns (for_each entries (eap_rsl_step swid min_size eapf baf rslf) acc) acc' →
  (eap_rsl_shape acc → eap_rsl_shape acc')
  ∧ (eap_rsl_sound acc → eap_rsl_sound acc')
  ∧ (eap_rsl_done acc → eap_rsl_done acc')
  ∧ (eap_rsl_shape acc → swid = j → (min_size < swath_pixels v j)%nat → eap_rsl_done acc').
Proof.
  intros Hret. split; [|split; [|split]].
  - intros Hs. revert Hret. apply for_each_invariant; [|done].
    intros c e c' He Hc Hstep. by destruct (eap_rsl_step_facts _ _ _ He Hc Hstep).
  - intros Hsound. revert Hret. apply for_each_invariant; [|done].
    intros c e c' He [Hs (x & y & Hx & Hy & Hor)] Hstep.
    destruct (eap_rsl_step_facts _ _ _ He Hs Hstep) as (Hs' & [[H1 H2]|Hdone] & _).
    + split; [done|]. exists x, y. by rewrite H1, H2.
    + split; [done|]. destruct Hdone as [_ (x' & y' & ? & ? & ?)]. exists x', y'.
      split; [done|]. split; [done|]. by right.
  - intros Hdone. revert Hret. apply for_each_invariant; [|done].
    intros c e c' He [Hs (x & y & Hx & Hy & Hw)] Hstep.
    destruct (eap_rsl_step_facts _ _ _ He Hs Hstep) as (Hs' & [[H1 H2]|Hdone'] & _); [|done].
    split; [done|]. exists x, y. by rewrite H1, H2.
  - intros Hs Hswj Hlt. revert Hret.
    assert (∃ p swids, (v, (l, (p, swids))) ∈ entries) as (p & swids & Hin).
    { unfold cell in Hq, Hj. destruct (epixel !! v) as [p|] eqn:Hp; [|done].
      destruct (ids !! v) as [swids|] eqn:Hsw; [|done].
      exists p, swids. apply elem_of_lookup_imap. exists v, (l, (p, swids)).
      split; [done|]. apply lookup_zip_Some. split; [done|]. by apply lookup_zip_Some. }
    apply (for_each_establish eap_rsl_shape eap_rsl_done _ _ _ _ _ Hin Hs).
    + intros c e c' He Hc Hstep. by destruct (eap_rsl_step_facts _ _ _ He Hc Hstep).
    + intros c c' Hc Hstep.
      destruct (eap_rsl_step_facts _ _ _ Hin Hc Hstep) as (_ & _ & H). by apply H.
    + intros c e c' He Hc [_ (x & y & Hx & Hy & Hw)] Hstep.
      destruct (eap_rsl_step_facts _ _ _ He Hc Hstep) as (Hs' & [[H1 H2]|Hdone'] & _);
        [|done].
      split; [done|]. exists x, y. by rewrite H1, H2.
Qed.

End One_swath.

(** the body of the loop over the swaths *)
Definition eap_rsl_swath (acc : list (list float) * list (list float)) (swid : nat) :=
  eap_interpolator ← get_eap_interpolator s (swath_name_of s swid) pol;
  ba_interpolator ← lift (get_boresight_angle_interpolator s pol);
  rsl_interpolator ← lift (get_range_spread_loss_interpolator s pol rsl_power);
  for_each entries
    (eap_rsl_step swid min_size eap_interpolator ba_interpolator rsl_interpolator) acc.

Lemma eap_rsl_loops (out : list (list float) * list (list float)) :
  let nans := (λ p : list nat, replicate (length p) Float.nan) <$> epixel in
  returns (for_each (swath_ids s) eap_rsl_swath (nans, nans)) out →
  eap_rsl_sound out
  ∧ (j ∈ swath_ids s → (min_size < swath_pixels v j)%nat → eap_rsl_done out).
Proof.
  intros nans Hret.
  assert (length <$> nans = length <$> epixel) as Hs0 by apply replicate_shape.
  assert (∀ swid acc acc', swid ∈ swath_ids s → returns (eap_rsl_swath acc swid) acc' →
            (eap_rsl_shape acc → eap_rsl_shape acc')
            ∧ (eap_rsl_sound acc → eap_rsl_sound acc')
            ∧ (eap_rsl_done acc → eap_rsl_done acc')
            ∧ (eap_rsl_shape acc → swid = j → (min_size < swath_pixels v j)%nat →
               eap_rsl_done acc')) as Hswath.
  { intros swid acc acc' Hswid (eapf & Heap & H)%returns_bind.
    apply returns_bind in H as (baf & Hba%returns_lift & H).
    apply returns_bind in H as (rslf & Hrsl%returns_lift & H).
    by apply (eap_rsl_swath_facts swid eapf baf rslf). }
  split.
  - revert Hret. apply for_each_invariant.
    + intros acc swid acc' Hswid Hacc Hstep.
      destruct (Hswath _ _ _ Hswid Hstep) as (_ & H & _). by apply H.
    + split; [done|]. destruct (shape_cell_is_Some _ _ _ _ _ Hs0 Hq) as [x Hx].
      assert (x = Float.nan) as ->.
      { revert Hx. unfold cell, nans. rewrite list_lookup_fmap.
        destruct (epixel !! v) as [pix|]; [|done]. simpl.
        by intros [-> _]%lookup_replicate. }
      exists Float.nan, Float.nan. split; [done|]. split; [done|]. by left.
  - intros Hin Hlt. revert Hret.
    apply (for_each_establish eap_rsl_shape eap_rsl_done _ _ j); [done|done|..].
    + intros acc swid acc' Hswid Hacc Hstep.
      destruct (Hswath _ _ _ Hswid Hstep) as (H & _). by apply H.
    + intros acc acc' Hacc Hstep.
      destruct (Hswath _ _ _ Hin Hstep) as (_ & _ & _ & H). by apply H.
    + intros acc swid acc' Hswid _ Hdone Hstep.
      destruct (Hswath _ _ _ Hswid Hstep) as (_ & _ & H & _). by apply H.
Qed.

End Eap_rsl_facts.

(** X20. The two lists of [get_eap_rsl_vectors] have the shape of the pixel
    vectors. A pixel whose swath number (of [get_swath_id_vectors]) is a swath
    of the product with more than [min_size] pixels in its vector holds the
    antenna pattern of that swath at the boresight angle of the pixel, and the
    range spread loss of the pixel; every other pixel holds NaN in both. *)
Theorem get_eap_rsl_vectors_values {lib : Library} (s : Sentinel1Image) (pol : string)
    (d : PolData) (min_size : nat) (rsl_power : float) (eap rsl : list (list float)) :
  xml s !! pol = Some d →
  returns (get_eap_rsl_vectors s pol min_size rsl_power) (eap, rsl) →
  ∃ ids, returns (get_swath_id_vectors s pol) ids
    ∧ length <$> eap = length <$> nr_pixel (noise_range d)
    ∧ length <$> rsl = length <$> nr_pixel (noise_range d)
    ∧ ∀ v k l q j, nr_line (noise_range d) !! v = Some l →
        cell (nr_pixel (noise_range d)) v k = Some q → cell ids v k = Some j →
        ∃ e r, cell eap v k = Some e ∧ cell rsl v k = Some r
          ∧ (j ∈ swath_ids s → (min_size < swath_pixels ids v j)%nat →
             eap_rsl_written s pol min_size rsl_power ids v l q j e r)
          ∧ (¬ (j ∈ swath_ids s ∧ (min_size < swath_pixels ids v j)%nat) →
             e = Float.nan ∧ r = Float.nan).
Proof.
  intros Hd. unfold get_eap_rsl_vectors. rewrite (subscript_Some _ _ _ Hd), ret_bind.
  intros (ids & Hids & Hret)%returns_bind. exists ids. split; [done|].
  pose proof (get_swath_id_vectors_shape _ _ _ _ Hd Hids) as Hshape.
  assert (∀ v k l q j, nr_line (noise_range d) !! v = Some l →
            cell (nr_pixel (noise_range d)) v k = Some q → cell ids v k = Some j →
            eap_rsl_sound s pol d min_size rsl_power ids v k l q j (eap, rsl)
            ∧ (j ∈ swath_ids s → (min_size < swath_pixels ids v j)%nat →
               eap_rsl_done s pol d min_size rsl_power ids v k l q j (eap, rsl))) as Hall.
  { intros v k l q j Hl Hq Hj.
    by apply (eap_rsl_loops s pol d min_size rsl_power ids Hshape v k l q j Hl Hq Hj). }
  assert (eap_rsl_shape d (eap, rsl)) as [Hs1 Hs2].
  { revert Hret. apply (for_each_invariant (eap_rsl_shape d)).
    - intros acc swid acc' _ Hacc (eapf & _ & H)%returns_bind.
      apply returns_bind in H as (baf & _ & H). apply returns_bind in H as (rslf & _ & H).
      revert H. apply (for_each_invariant (eap_rsl_shape d)); [|done].
      intros c [i [l' [p swids]]] c' He Hc Hstep.
      by destruct (eap_rsl_step_inv d min_size ids Hshape _ _ _ _ _ _ _ _ _ _ He Hc Hstep).
    - split; apply replicate_shape. }
  split; [done|]. split; [done|].
  intros v k l q j Hl Hq Hj. destruct (Hall v k l q j Hl Hq Hj) as [[_ Hsound] Hdone].
  destruct Hsound as (e & r & He & Hr & Hor). exists e, r. split; [done|]. split; [done|].
  split.
  - intros Hin Hlt. destruct (Hdone Hin Hlt) as [_ (e' & r' & He' & Hr' & Hw)].
    cbn [fst snd] in *. congruence.
  - intros Hno. destruct Hor as [?|(? & ? & _)]; [done|]. by destruct Hno.
Qed.

Lemma get_eap_rsl_vectors_values_witness :
  ∃ eap rsl,
    returns (get_eap_rsl_vectors (lib := demo_library) (demo_image demo_name_S1A 2.9) "VH" 3
               (3 / 2)) (eap, rsl)
    ∧ length <$> eap = [24%nat] ∧ length <$> rsl = [24%nat]
    ∧ cell eap 0 22 = Some Float.nan ∧ cell rsl 0 3 = Some 1%float.
Proof.
  eexists _, _. split; [vm_compute; reflexivity|].
  match goal with |- length <$> ?eap = _ ∧ length <$> ?rsl = _ ∧ _ =>
    destruct (get_eap_rsl_vectors_values (lib := demo_library) (demo_image demo_name_S1A 2.9)
                "VH" demo_pol 3 (3 / 2) eap rsl eq_refl ltac:(vm_compute; reflexivity))
      as (ids & _ & Hs1 & Hs2 & _)
  end.
  split; [exact Hs1|]. split; [exact Hs2|]. split; reflexivity.
Defined.

(** * Noise from the total gain *)

Section Total_gain_values.

Context (pixel : list (list nat)) (ids : list (list nat)) (gtot : list (list float)).
Context (scales offsets : list float).
Context (Hids : length <$> ids = length <$> pixel).

(** the body of the loop over the swath numbers, for the vector [i] *)
Definition tg_step (i : nat) (noise : list (list Z)) (j : nat) : M (list (list Z)) :=
  ids_row ← getitem ids i;
  g ← getitem gtot i;
  _ ← same_length ids_row g;
  row ← getitem noise i;
  o ← getitem offsets (j - 1);
  sc ← getitem scales (j - 1);
  let gpi := np_where (λ x, (x =? j)%nat) ids_row in
  vals ← take_indices g gpi;
  mret (<[i := put_indices row gpi ((λ x, Float.to_int64 (o + x * sc)) <$> vals)]> noise).

(** One iteration keeps the shape and writes the pixels of vector [i] whose
    swath number is [j]: the truncated sum of the offset and the scaled gain. *)
Lemma tg_step_inv (i j : nat) (noise noise' : list (list Z)) :
  length <$> noise = length <$> pixel → returns (tg_step i noise j) noise' →
  length <$> noise' = length <$> pixel
  ∧ ∃ o sc, offsets !! (j - 1)%nat = Some o ∧ scales !! (j - 1)%nat = Some sc
      ∧ ∀ v k j0, cell ids v k = Some j0 →
          if bool_decide (v = i) && (j0 =? j)%nat
          then ∃ g, cell gtot v k = Some g
                    ∧ cell noise' v k = Some (Float.to_int64 (o + g * sc))
          else cell noise' v k = cell noise v k.
Proof.
  intros Hs (ids_row & Hrow%returns_getitem & H)%returns_bind.
  apply returns_bind in H as (g & Hg%returns_getitem & H).
  apply returns_bind in H as (u & Hlen%returns_same_length & H).
  apply returns_bind in H as (row & Hnoise%returns_getitem & H).
  apply returns_bind in H as (o & Ho%returns_getitem & H).
  apply returns_bind in H as (sc & Hsc%returns_getitem & H).
  apply returns_bind in H as (vals & Hvals%returns_take_indices & <-%returns_ret).
  assert (length row = length ids_row) as Hlr.
  { assert ((length <$> noise) !! i = (length <$> ids) !! i) as H by (by rewrite Hs, Hids).
    rewrite !list_lookup_fmap, Hnoise, Hrow in H. by injection H. }
  split.
  - rewrite list_fmap_insert, length_put_indices.
    rewrite <- Hs. apply list_insert_id. by rewrite list_lookup_fmap, Hnoise.
  - exists o, sc. split; [done|]. split; [done|]. intros v k j0 Hj0. unfold cell in *.
    destruct (decide (v = i)) as [->|Hne].
    + rewrite bool_decide_eq_true_2 by done. rewrite Hrow in Hj0. simpl in Hj0.
      rewrite list_lookup_insert_eq by (by eapply lookup_lt_Some). rewrite Hg. simpl.
      destruct (Nat.eqb_spec j0 j) as [->|Hjne].
      * assert (k ∈ np_where (λ x, (x =? j)%nat) ids_row) as Hk.
        { apply elem_of_np_where. exists j. split; [done|]. apply Nat.eqb_refl. }
        assert (is_Some (g !! k)) as [x Hx].
        { apply lookup_lt_is_Some. rewrite <- Hlen. by eapply lookup_lt_Some. }
        exists x. split; [done|].
        rewrite (put_indices_map_lookup _ g _ _ _ _ Hvals Hk)
          by (rewrite Hlr; by eapply lookup_lt_Some).
        by rewrite Hx.
      * rewrite put_indices_frame; [by rewrite Hnoise|].
        intros (x & Hx & ->%Nat.eqb_eq)%elem_of_np_where. congruence.
    + rewrite bool_decide_eq_false_2 by done. simpl andb.
      by rewrite list_lookup_insert_ne.
Qed.

Context (v k j0 : nat) (Hj0 : cell ids v k = Some j0).

(** [n] is the truncated total-gain noise of the pixel *)
Definition tg_written (n : Z) : Prop :=
  (1 ≤ j0 ≤ 5)%nat ∧ (v < length gtot)%nat
  ∧ ∃ g sc o, cell gtot v k = Some g ∧ scales !! (j0 - 1)%nat = Some sc
              ∧ offsets !! (j0 - 1)%nat = Some o
              ∧ n = Float.to_int64 (o + g * sc).

Definition tg_sound (noise : list (list Z)) : Prop :=
  length <$> noise = length <$> pixel
  ∧ ∃ n, cell noise v k = Some n ∧ (n = 0%Z ∨ tg_written n).

Definition tg_done (noise : list (list Z)) : Prop :=
  length <$> noise = length <$> pixel ∧ ∃ n, cell noise v k = Some n ∧ tg_written n.

Lemma tg_step_facts (i j : nat) (noise noise' : list (list Z)) :
  (i < length gtot)%nat → (1 ≤ j ≤ 5)%nat →
  length <$> noise = length <$> pixel → returns (tg_step i noise j) noise' →
  length <$> noise' = length <$> pixel
  ∧ (cell noise' v k = cell noise v k ∨ tg_done noise')
  ∧ (v = i → j0 = j → tg_done noise').
Proof.
  intros Hi Hj Hs Hstep.
  destruct (tg_step_inv _ _ _ _ Hs Hstep) as (Hs' & o & sc & Ho & Hsc & Hcell).
  split; [done|]. specialize (Hcell v k j0 Hj0).
  destruct (bool_decide_reflect (v = i)) as [<-|Hne]; simpl andb in Hcell.
  - destruct (Nat.eqb_spec j0 j) as [<-|Hjne].
    + assert (tg_done noise') as Hdone.
      { destruct Hcell as (g & Hg & Hn). split; [done|]. eexists. split; [exact Hn|].
        split; [done|]. split; [done|]. by exists g, sc, o. }
      split; [by right|done].
    + split; [by left|]. intros _ ?. congruence.
  - split; [by left|]. intros ?. congruence.
Qed.

Lemma tg_vector_facts (i : nat) (noise noise' : list (list Z)) :
  (i < length gtot)%nat →
  returns (for_each (seq 1 5) (tg_step i) noise) noise' →
  (length <$> noise = length <$> pixel → length <$> noise' = length <$> pixel)
  ∧ (tg_sound noise → tg_sound noise')
  ∧ (tg_done noise → tg_done noise')
  ∧ (length <$> noise = length <$> pixel → v = i → (1 ≤ j0 ≤ 5)%nat → tg_done noise').
Proof.
  intros Hi Hret.
  assert (∀ j : nat, j ∈ seq 1 5 → (1 ≤ j ≤ 5)%nat) as Hseq
    by (intros j ?%elem_of_seq; lia).
  split; [|split; [|split]].
  - intros Hs. revert Hret.
    apply (for_each_invariant (λ c, length <$> c = length <$> pixel)); [|done].
    intros c j c' Hj%Hseq Hc Hstep. by destruct (tg_step_facts _ _ _ _ Hi Hj Hc Hstep).
  - intros Hsound. revert Hret. apply for_each_invariant; [|done].
    intros c j c' Hj%Hseq [Hs (n & Hn & Hor)] Hstep.
    destruct (tg_step_facts _ _ _ _ Hi Hj Hs Hstep) as (Hs' & [Heq|[_ (m & Hm & Hw)]] & _).
    + split; [done|]. exists n. by rewrite Heq.
    + split; [done|]. exists m. split; [done|by right].
  - intros Hdone. revert Hret. apply for_each_invariant; [|done].
    intros c j c' Hj%Hseq [Hs (n & Hn & Hw)] Hstep.
    destruct (tg_step_facts _ _ _ _ Hi Hj Hs Hstep) as (Hs' & [Heq|Hdone'] & _); [|done].
    split; [done|]. exists n. by rewrite Heq.
  - intros Hs Hv Hj0r. revert Hret.
    apply (for_each_establish (λ c, length <$> c = length <$> pixel) tg_done _ _ j0).
    + apply elem_of_seq. lia.
    + done.
    + intros c j c' Hj%Hseq Hc Hstep. by destruct (tg_step_facts _ _ _ _ Hi Hj Hc Hstep).
    + intros c c' Hc Hstep.
      destruct (tg_step_facts _ _ _ _ Hi Hj0r Hc Hstep) as (_ & _ & H). by apply H.
    + intros c j c' Hj%Hseq Hc [_ (n & Hn & Hw)] Hstep.
      destruct (tg_step_facts _ _ _ _ Hi Hj Hc Hstep) as (Hs' & [Heq|Hdone'] & _); [|done].
      split; [done|]. exists n. by rewrite Heq.
Qed.

Lemma tg_loops (noise : list (list Z)) :
  returns (for_each (seq 0 (length gtot)) (λ noise i, for_each (seq 1 5) (tg_step i) noise)
             ((λ p : list nat, replicate (length p) 0%Z) <$> pixel)) noise →
  tg_sound noise ∧ ((1 ≤ j0 ≤ 5)%nat → (v < length gtot)%nat → tg_done noise).
Proof.
  intros Hret.
  assert (length <$> ((λ p : list nat, replicate (length p) 0%Z) <$> pixel)
          = length <$> pixel) as Hs0 by apply replicate_shape.
  assert (∀ i : nat, i ∈ seq 0 (length gtot) → (i < length gtot)%nat) as Hseq
    by (intros i ?%elem_of_seq; lia).
  split.
  - revert Hret. apply for_each_invariant.
    + intros acc i acc' Hi%Hseq Hacc Hvec.
      destruct (tg_vector_facts _ _ _ Hi Hvec) as (_ & H & _). by apply H.
    + split; [done|].
      assert (length <$> ((λ p : list nat, replicate (length p) 0%Z) <$> pixel)
              = length <$> ids) as Hs1 by (by rewrite Hs0, Hids).
      destruct (shape_cell_is_Some _ _ _ _ _ Hs1 Hj0) as [n Hn].
      exists n. split; [done|]. left. revert Hn. unfold cell. rewrite list_lookup_fmap.
      destruct (pixel !! v) as [pix|]; [|done]. simpl.
      by intros [-> _]%lookup_replicate.
  - intros Hj0r Hv. revert Hret.
    apply (for_each_establish (λ c, length <$> c = length <$> pixel) tg_done _ _ v).
    + apply elem_of_seq. lia.
    + done.
    + intros acc i acc' Hi%Hseq Hacc Hvec.
      destruct (tg_vector_facts _ _ _ Hi Hvec) as (H & _). by apply H.
    + intros acc acc' Hacc Hvec.
      destruct (tg_vector_facts _ _ _ Hv Hvec) as (_ & _ & _ & H). by apply H.
    + intros acc i acc' Hi%Hseq _ Hdone Hvec.
      destruct (tg_vector_facts _ _ _ Hi Hvec) as (_ & _ & H & _). by apply H.
Qed.

End Total_gain_values.

(** X21. The vectors of [get_noise_tg_vectors] have the shape of the pixel
    vectors and hold integers: a pixel with swath number [j] from 1 to 5, in a
    vector for which a total gain is given, holds
    [offsets[j-1] + gain * scales[j-1]] truncated towards zero, and every
    other pixel holds 0. *)
Theorem get_noise_tg_vectors_values {lib : Library} (params : gmap string (gmap string json))
    (s : Sentinel1Image) (pol : string) (d : PolData) (noise : list (list Z)) :
  xml s !! pol = Some d →
  returns (get_noise_tg_vectors params s pol) noise →
  ∃ scales offsets gtot ids,
    returns (get_tg_scales_offsets params s) (scales, offsets)
    ∧ get_tg_vectors s pol = inr gtot
    ∧ returns (get_swath_id_vectors s pol) ids
    ∧ length <$> noise = length <$> nr_pixel (noise_range d)
    ∧ ∀ v k j, cell ids v k = Some j →
        ∃ n, cell noise v k = Some n
             ∧ ((1 ≤ j ≤ 5)%nat → (v < length gtot)%nat →
                ∃ g sc o, cell gtot v k = Some g ∧ scales !! (j - 1)%nat = Some sc
                          ∧ offsets !! (j - 1)%nat = Some o
                          ∧ n = Float.to_int64 (o + g * sc))
             ∧ (¬ ((1 ≤ j ≤ 5)%nat ∧ (v < length gtot)%nat) → n = 0%Z).
Proof.
  intros Hd. unfold get_noise_tg_vectors. rewrite (subscript_Some _ _ _ Hd), ret_bind.
  intros ([scales offsets] & Hso & H)%returns_bind.
  apply returns_bind in H as (gtot & Hg%returns_lift & H).
  apply returns_bind in H as (ids & Hids & Hret).
  exists scales, offsets, gtot, ids. split; [done|]. split; [done|]. split; [done|].
  pose proof (get_swath_id_vectors_shape _ _ _ _ Hd Hids) as Hshape.
  assert (∀ v k j, cell ids v k = Some j →
            tg_sound (nr_pixel (noise_range d)) gtot scales offsets v k j noise
            ∧ ((1 ≤ j ≤ 5)%nat → (v < length gtot)%nat →
               tg_done (nr_pixel (noise_range d)) gtot scales offsets v k j noise)) as Hall.
  { intros v k j Hj.
    by apply (tg_loops (nr_pixel (noise_range d)) ids gtot scales offsets Hshape v k j Hj). }
  split.
  - revert Hret.
    apply (for_each_invariant (λ c, length <$> c = length <$> nr_pixel (noise_range d)));
      [|apply replicate_shape].
    intros acc i acc' _ Hacc.
    apply (for_each_invariant (λ c, length <$> c = length <$> nr_pixel (noise_range d)));
      [|done].
    intros c j c' _ Hc Hstep.
    by destruct (tg_step_inv (nr_pixel (noise_range d)) ids gtot scales offsets Hshape
                   _ _ _ _ Hc Hstep).
  - intros v k j Hj. destruct (Hall v k j Hj) as [[_ (n & Hn & Hor)] Hdone].
    exists n. split; [done|]. split.
    + intros Hjr Hv. destruct (Hdone Hjr Hv) as [_ (n' & Hn' & _ & _ & Hw)].
      by replace n with n' by congruence.
    + intros Hno. destruct Hor as [->|(? & ? & _)]; [done|]. by destruct Hno.
Qed.

Lemma get_noise_tg_vectors_values_witness :
  ∃ noise,
    returns (get_noise_tg_vectors (lib := demo_library) demo_apg_params
               (demo_image demo_name_S1A 2.9) "VH") noise
    ∧ length <$> noise = [24%nat]
    ∧ cell noise 0 18 = Some 3%Z ∧ cell noise 0 22 = Some 0%Z.
Proof.
  eexists. split; [vm_compute; reflexivity|].
  match goal with |- length <$> ?noise = _ ∧ _ =>
    destruct (get_noise_tg_vectors_values (lib := demo_library) demo_apg_params
                (demo_image demo_name_S1A 2.9) "VH" demo_pol noise eq_refl
                ltac:(vm_compute; reflexivity))
      as (scales & offsets & gtot & ids & _ & _ & _ & Hs & _)
  end.
  split; [exact Hs|]. split; reflexivity.
Defined.

(** * When the index computations return *)

(** A loop returns when every iteration does, from an accumulator that keeps
    an invariant. *)
Lemma for_each_returns_invariant {A B} (I : B → Prop) (l : list A) (f : B → A → M B) (acc : B) :
  I acc →
  (∀ acc0 x, x ∈ l → I acc0 → ∃ acc', returns (f acc0 x) acc' ∧ I acc') →
  ∃ out, returns (for_each l f acc) out ∧ I out.
Proof.
  revert acc. induction l as [|x l IH]; intros acc Hacc Hall; simpl.
  - exists acc. split; [by apply returns_ret|done].
  - destruct (Hall acc x) as (acc' & Hx & Hacc'); [left|done|].
    destruct (IH acc' Hacc') as (out & Hout & HI); [intros ????; apply Hall; [by right|done]|].
    exists out. split; [|done]. apply returns_bind. by exists acc'.
Qed.

(** X22. [get_swath_id_vectors] returns for every annotation that has at least
    as many pixel vectors as lines, whatever the swath bounds are. *)
Theorem get_swath_id_vectors_returns (s : Sentinel1Image) (pol : string) (d : PolData) :
  xml s !! pol = Some d →
  (length (nr_line (noise_range d)) ≤ length (nr_pixel (noise_range d)))%nat →
  ∃ ids, returns (get_swath_id_vectors s pol) ids.
Proof.
  intros Hd Hlen. unfold get_swath_id_vectors. rewrite (subscript_Some _ _ _ Hd), ret_bind.
  set (I := λ c : list (list nat), length <$> c = length <$> nr_pixel (noise_range d)).
  assert (∃ out, returns
            (for_each (imap pair (swath_bounds d))
               (swath_id_swath (nr_line (noise_range d)) (nr_pixel (noise_range d)))
               ((λ p, replicate (length p) 0%nat) <$> nr_pixel (noise_range d))) out ∧ I out)
    as (out & Hout & _); [|by exists out].
  apply for_each_returns_invariant; [apply replicate_shape|].
  intros acc entry _ Hacc. unfold swath_id_swath.
  apply for_each_returns_invariant; [done|]. intros acc1 b _ Hacc1. unfold swath_id_block.
  apply for_each_returns_invariant; [done|].
  intros acc2 v1 (l & Hl & _)%elem_of_np_where Hacc2.
  assert (v1 < length (nr_pixel (noise_range d)))%nat as Hv1
    by (apply lookup_lt_Some in Hl; lia).
  destruct (lookup_lt_is_Some_2 _ _ Hv1) as [pix Hpix].
  assert (is_Some (acc2 !! v1)) as [row Hrow].
  { apply lookup_lt_is_Some. apply (f_equal length) in Hacc2.
    rewrite !length_fmap in Hacc2. lia. }
  eexists. split.
  - unfold swath_id_step. rewrite (getitem_Some _ _ _ Hpix), ret_bind.
    rewrite (getitem_Some _ _ _ Hrow), ret_bind. by apply returns_ret.
  - unfold I. rewrite list_fmap_insert, length_put_indices.
    rewrite <- Hacc2. apply list_insert_id. by rewrite list_lookup_fmap, Hrow.
Qed.

Lemma get_swath_id_vectors_returns_witness :
  ∃ ids, returns (get_swath_id_vectors (demo_image demo_name_S1A 2.9) "VH") ids.
Proof.
  apply (get_swath_id_vectors_returns (demo_image demo_name_S1A 2.9) "VH" demo_pol eq_refl).
  simpl. lia.
Defined.

Lemma dict_get_missing {A} (d : list (string * A)) (key : string) :
  key ∉ d.*1 → dict_get d key = raise (KeyError key).
Proof.
  intros Hn. unfold dict_get. destruct (list_find _ d) as [[i [k' x]]|] eqn:Hf; [|done].
  apply list_find_Some in Hf as (Hl & Hk & _). simpl in Hk. subst k'.
  destruct Hn. apply list_elem_of_fmap. exists (key, x).
  split; [done|]. by eapply list_elem_of_lookup_2.
Qed.

Lemma dict_get_present {A} (d : list (string * A)) (key : string) :
  key ∈ d.*1 → ∃ x, returns (dict_get d key) x.
Proof.
  intros ([k x] & -> & Hin)%list_elem_of_fmap. unfold dict_get.
  destruct (list_find _ d) as [[i [k' x']]|] eqn:Hf; [exists x'; by apply returns_ret|].
  apply list_find_None in Hf. rewrite Forall_forall in Hf. by destruct (Hf _ Hin).
Qed.

Section Index_map_outcome.

Context (s : Sentinel1Image) (d : PolData).

Abbreviation index_map_step :=
  (λ (m : list (list nat)) (iSW : nat),
     swathBound ← dict_get (swath_bounds d) (swath_name_of s iSW);
     for_each swathBound (λ m b, mret (fill_block m b iSW)) m).

Lemma index_step_returns (m : list (list nat)) (iSW : nat) :
  swath_name_of s iSW ∈ (swath_bounds d).*1 → ∃ m', returns (index_map_step m iSW) m'.
Proof.
  intros (coords & Hcoords)%dict_get_present.
  destruct (for_each_returns coords (λ m b, mret (fill_block m b iSW)) m) as (m' & Hm').
  { intros acc b _. eexists. by apply returns_ret. }
  exists m'. apply returns_bind. by exists coords.
Qed.

Lemma index_map_returns (k start : nat) (m : list (list nat)) :
  (∀ i, (start ≤ i < start + k)%nat → swath_name_of s i ∈ (swath_bounds d).*1) →
  ∃ out, returns (for_each (seq start k) index_map_step m) out.
Proof.
  intros Hall. apply for_each_returns. intros acc i Hi%elem_of_seq.
  by apply index_step_returns, Hall.
Qed.

Lemma index_map_missing (k start i0 : nat) (m : list (list nat)) :
  (start ≤ i0 < start + k)%nat →
  (∀ i, (start ≤ i < i0)%nat → swath_name_of s i ∈ (swath_bounds d).*1) →
  swath_name_of s i0 ∉ (swath_bounds d).*1 →
  outcome (for_each (seq start k) index_map_step m) = inl (KeyError (swath_name_of s i0)).
Proof.
  revert start m. induction k as [|k IH]; intros start m Hi0 Hbefore Hmiss; [lia|].
  cbn [seq for_each]. destruct (decide (i0 = start)) as [->|Hne].
  - apply outcome_bind_raise, outcome_bind_raise. by rewrite dict_get_missing.
  - destruct (index_step_returns m start) as (m' & Hm'); [apply Hbefore; lia|].
    rewrite (outcome_bind_returns _ _ _ Hm'). apply IH; [lia| |done].
    intros i Hi. apply Hbefore. lia.
Qed.

End Index_map_outcome.

(** X23. [subswathIndexMap] returns when the mode is IW or EW and the swath
    bounds name every swath of the mode; it raises [KeyError] with the mode
    when the mode is neither, and with the name of the first swath of the mode
    that the swath bounds do not name. *)
Theorem subswathIndexMap_outcome (s : Sentinel1Image) (pol : string) (d : PolData) :
  xml s !! pol = Some d →
  (obsMode s ≠ "IW" → obsMode s ≠ "EW" →
     outcome (subswathIndexMap s pol) = inl (KeyError (obsMode s)))
  ∧ ∀ count, returns (swath_count (obsMode s)) count →
      ((∀ i, (1 ≤ i ≤ count)%nat → swath_name_of s i ∈ (swath_bounds d).*1) →
         ∃ m, returns (subswathIndexMap s pol) m)
      ∧ (∀ i0, (1 ≤ i0 ≤ count)%nat →
           (∀ i, (1 ≤ i < i0)%nat → swath_name_of s i ∈ (swath_bounds d).*1) →
           swath_name_of s i0 ∉ (swath_bounds d).*1 →
           outcome (subswathIndexMap s pol) = inl (KeyError (swath_name_of s i0))).
Proof.
  intros Hd. unfold subswathIndexMap. rewrite (subscript_Some _ _ _ Hd), ret_bind. split.
  - intros HIW HEW. apply outcome_bind_raise. unfold swath_count.
    destruct (String.eqb_spec (obsMode s) "IW"); [done|].
    by destruct (String.eqb_spec (obsMode s) "EW").
  - intros count Hcount. split.
    + intros Hall.
      destruct (index_map_returns s d count 1
                  (replicate (shape d).1 (replicate (shape d).2 0%nat))) as (m & Hm).
      { intros i Hi. apply Hall. lia. }
      exists m. apply returns_bind. by exists count.
    + intros i0 Hi0 Hbefore Hmiss. rewrite (outcome_bind_returns _ _ _ Hcount).
      apply index_map_missing; [lia|done|done].
Qed.

Lemma subswathIndexMap_outcome_witness :
  ∃ m, returns (subswathIndexMap (demo_image demo_name_S1A 2.9) "VH") m.
Proof.
  destruct (subswathIndexMap_outcome (demo_image demo_name_S1A 2.9) "VH" demo_pol eq_refl)
    as [_ H].
  destruct (H 3%nat eq_refl) as [Hret _]. apply Hret.
  intros i Hi. assert (i = 1 ∨ i = 2 ∨ i = 3)%nat as [-> | [-> | ->] ] by lia;
    vm_compute; set_solver.
Defined.
